(** * EdgePoly strategies: the backtesting engine, the base strategy and the
    numeric helpers

    A shallow embedding of [backtesting/engine.ts] (class [BacktestEngine]:
    [constructor], [simulate], [shouldExitPosition], [applySlippage],
    [calculatePnL], [calculateSummary], [calculateExposure],
    [calculateDrawdowns], [calculateMonthlyReturns], [calculateMetrics],
    [getMaxDrawdownDuration]), of the numeric helpers of [utils/helpers.ts]
    ([clamp], [round], [timeDiff], [median], [percentile], [sharpeRatio],
    [sortinoRatio], [maxDrawdown], [cagr]) and of the counters and the
    position sizing of [strategies/base.ts] ([calculateKellyFraction],
    [getPositionSize], [onSignalExecuted], [getStatus]), followed by their
    properties: costs, exit evaluation, position limits, running equity, the
    equity curve, drawdown periods, notifications and degenerate statistics
    of the engine, then the post-pass, the helpers and the base strategy.

    Numbers.  A JavaScript [number] is modelled by exact rational arithmetic
    extended with the three non-finite values the engine can produce
    ([Infinity], [-Infinity], [NaN]).  Rounding, overflow and the sign of zero
    are not modelled, so a property is stated of the code only where rounding
    cannot change it: a test against an exact zero is used on sums and
    differences of equal or zero terms and not on a value that floating
    point only brings near zero, and [round] is described by what holds of
    any nearest-unit rounding.  Quantities that the engine only ever adds,
    subtracts and multiplies (prices, sizes, equity, pnl) are kept in [Q] for
    a strategy that returns finite sizes; the tests the engine applies to a
    size and to a pnl ([belowMinimum], [classify]) and the pnl formula
    ([pnlAtSize]) are defined on every [number], [NaN] included.  Every
    quantity that goes through an unguarded division or a square root is a
    [number].  [Math.sqrt] and [Math.pow] are parameters of the model, except
    for a square and for a power of 10 with a count of decimal places.
    [maxConcurrentPositions] is any finite number, a fraction included.

    Dates are epoch milliseconds in [Z].  The [positions] and [marketData]
    maps are association lists in insertion order.  The strategy is an object
    with private state, threaded through its callbacks; a callback that
    throws is outside the model.  The loop bodies of [simulate] are separate
    definitions, folded over the lists the loops iterate. *)

From Stdlib Require Import String QArith Qminmax Qabs ZArith List Bool Lia Lqa.
From Stdlib Require Import Sorting.Mergesort Sorting.Sorted Sorting.Permutation Orders.
From Stdlib Require Import Qround Ascii DecimalString DecimalPos DecimalZ.
Import ListNotations.

Set Implicit Arguments.
Local Open Scope Q_scope.

(* ================================================================== *)
(** ** JavaScript numbers *)
(* ================================================================== *)

Module JS.

Inductive number : Type :=
| Fin (q : Q)
| PosInf
| NegInf
| NaN.

(** [a < b] on rationals, as a boolean. *)
Definition Qltb (a b : Q) : bool := negb (Qle_bool b a).

Definition isFinite (x : number) : bool :=
  match x with Fin _ => true | _ => false end.

(** Equality of numbers up to the representation of a fraction. *)
Definition same (x y : number) : Prop :=
  match x, y with
  | Fin a, Fin b => a == b
  | PosInf, PosInf | NegInf, NegInf | NaN, NaN => True
  | _, _ => False
  end.

Definition neg (x : number) : number :=
  match x with
  | Fin q => Fin (- q)
  | PosInf => NegInf
  | NegInf => PosInf
  | NaN => NaN
  end.

Definition add (x y : number) : number :=
  match x, y with
  | NaN, _ | _, NaN => NaN
  | Fin a, Fin b => Fin (a + b)
  | PosInf, NegInf | NegInf, PosInf => NaN
  | PosInf, _ | _, PosInf => PosInf
  | NegInf, _ | _, NegInf => NegInf
  end.

Definition sub (x y : number) : number := add x (neg y).

(** An infinity of sign [pos] times the finite [q]. *)
Definition scaleInf (pos : bool) (q : Q) : number :=
  match q ?= 0 with
  | Eq => NaN
  | Gt => if pos then PosInf else NegInf
  | Lt => if pos then NegInf else PosInf
  end.

Definition mul (x y : number) : number :=
  match x, y with
  | NaN, _ | _, NaN => NaN
  | Fin a, Fin b => Fin (a * b)
  | PosInf, Fin q | Fin q, PosInf => scaleInf true q
  | NegInf, Fin q | Fin q, NegInf => scaleInf false q
  | PosInf, PosInf | NegInf, NegInf => PosInf
  | PosInf, NegInf | NegInf, PosInf => NegInf
  end.

Definition div (x y : number) : number :=
  match x, y with
  | NaN, _ | _, NaN => NaN
  | Fin a, Fin b =>
      if Qeq_bool b 0 then
        match a ?= 0 with
        | Eq => NaN
        | Gt => PosInf
        | Lt => NegInf
        end
      else Fin (a / b)
  | Fin _, (PosInf | NegInf) => Fin 0
  | PosInf, Fin b => if Qltb b 0 then NegInf else PosInf
  | NegInf, Fin b => if Qltb b 0 then PosInf else NegInf
  | _, _ => NaN
  end.

(** [x < y]; every comparison with [NaN] is false. *)
Definition ltb (x y : number) : bool :=
  match x, y with
  | Fin a, Fin b => Qltb a b
  | NegInf, (Fin _ | PosInf) => true
  | Fin _, PosInf => true
  | _, _ => false
  end.

Definition gtb (x y : number) : bool := ltb y x.

(** [x === y]. *)
Definition strictEq (x y : number) : bool :=
  match x, y with
  | Fin a, Fin b => Qeq_bool a b
  | PosInf, PosInf | NegInf, NegInf => true
  | _, _ => false
  end.

(** [Math.max(x, y)]. *)
Definition max (x y : number) : number :=
  match x, y with
  | NaN, _ | _, NaN => NaN
  | _, _ => if ltb x y then y else x
  end.

(** [Math.pow(x, 2)]. *)
Definition square (x : number) : number := mul x x.

(** [xs.reduce((a, b) => a + b, 0)]. *)
Definition sum (xs : list number) : number := fold_left add xs (Fin 0).

(** [Math.max(...xs)]; with no argument it is [-Infinity]. *)
Definition maxOf (xs : list number) : number := fold_left max xs NegInf.

(** [xs.length] as a number. *)
Definition len {A} (xs : list A) : Q := inject_Z (Z.of_nat (length xs)).

(** Truthiness of an optional numeric field: [undefined] and [0] are falsy. *)
Definition truthy (x : option Q) : bool :=
  match x with
  | Some q => negb (Qeq_bool q 0)
  | None => false
  end.

(** [x || d] for an optional numeric field [x]. *)
Definition orElse (x : option Q) (d : Q) : Q :=
  match x with
  | Some q => if Qeq_bool q 0 then d else q
  | None => d
  end.

End JS.

Import JS.

(** The two functions of [Math] that have no rational counterpart.
    [Math_sqrt] is applied to non-negative finite arguments only. *)
Class MathEnv : Type := {
  Math_sqrt : Q -> Q;
  Math_pow : number -> number -> number
}.

(** [Math.sqrt] on numbers. *)
Definition sqrt `{MathEnv} (x : number) : number :=
  match x with
  | Fin q => if Qltb q 0 then NaN else Fin (Math_sqrt q)
  | PosInf => PosInf
  | NegInf | NaN => NaN
  end.

(** What the proofs need to know of a square root. *)
Class SqrtLaws `{MathEnv} : Prop := {
  sqrt_zero : forall q, q == 0 -> Math_sqrt q == 0;
  sqrt_pos : forall q, 0 < q -> 0 < Math_sqrt q
}.

(** And of a power: 1 to any finite power is 1. *)
Class PowLaws `{MathEnv} : Prop := {
  pow_one : forall x y, x == 1 -> same (Math_pow (Fin x) (Fin y)) (Fin 1)
}.

(* ================================================================== *)
(** ** utils/helpers.ts *)
(* ================================================================== *)

Section Helpers.
Context `{MathEnv}.

Definition sharpeRatio (returns : list number) (riskFreeRate : number) : number :=
  if (length returns =? 0)%nat then Fin 0
  else
    let avgReturn := div (sum returns) (Fin (len returns)) in
    let excessReturn := sub avgReturn riskFreeRate in
    let squaredDiffs := map (fun r => square (sub r avgReturn)) returns in
    let variance := div (sum squaredDiffs) (Fin (len returns)) in
    let stdDev := sqrt variance in
    if strictEq stdDev (Fin 0) then Fin 0
    else div excessReturn stdDev.

(** [returns.filter(r => r < riskFreeRate)]. *)
Definition negativeReturns (returns : list number) (riskFreeRate : number)
  : list number :=
  filter (fun r => ltb r riskFreeRate) returns.

Definition sortinoRatio (returns : list number) (riskFreeRate : number) : number :=
  if (length returns =? 0)%nat then Fin 0
  else
    let avgReturn := div (sum returns) (Fin (len returns)) in
    let excessReturn := sub avgReturn riskFreeRate in
    let negs := negativeReturns returns riskFreeRate in
    if (length negs =? 0)%nat then PosInf
    else
      let squaredDiffs := map (fun r => square (sub r riskFreeRate)) negs in
      let downVariance := div (sum squaredDiffs) (Fin (len negs)) in
      let downDev := sqrt downVariance in
      if strictEq downDev (Fin 0) then Fin 0
      else div excessReturn downDev.

Record Drawdown : Type := { dd_value : Q; dd_percent : Q }.

(** Loop state of [maxDrawdown]: [peak], [maxDD], [maxDDPercent]. *)
Definition maxDrawdown_step (st : Q * Q * Q) (equity : Q) : Q * Q * Q :=
  let '(peak, maxDD, maxDDPercent) := st in
  let peak := if Qltb peak equity then equity else peak in
  let dd := peak - equity in
  let ddPercent := if Qltb 0 peak then dd / peak else 0 in
  if Qltb maxDD dd then (peak, dd, ddPercent) else (peak, maxDD, maxDDPercent).

Definition maxDrawdown (equityCurve : list Q) : Drawdown :=
  match equityCurve with
  | [] => {| dd_value := 0; dd_percent := 0 |}
  | e0 :: _ =>
      let '(_, maxDD, maxDDPercent) :=
        fold_left maxDrawdown_step equityCurve (e0, 0, 0) in
      {| dd_value := maxDD; dd_percent := maxDDPercent |}
  end.

Definition cagr (startValue endValue years : Q) : number :=
  if Qle_bool startValue 0 || Qle_bool years 0 then Fin 0
  else sub (Math_pow (div (Fin endValue) (Fin startValue))
                     (div (Fin 1) (Fin years)))
           (Fin 1).

End Helpers.

(* ================================================================== *)
(** ** types.ts: the records the engine reads and writes *)
(* ================================================================== *)

Inductive SignalType : Type := buy | sell | hold | close.

Definition isBuy (t : SignalType) : bool :=
  match t with buy => true | _ => false end.

Definition isSell (t : SignalType) : bool :=
  match t with sell => true | _ => false end.

(** The fields of [Signal] the engine looks at. *)
Record Signal : Type := {
  sig_id : string;
  sig_marketId : string;
  sig_type : SignalType;
  sig_entryPrice : option Q;
  sig_stopLoss : option Q;
  sig_takeProfit : option Q;
  sig_expiresAt : option Z
}.

Inductive Outcome : Type := win | loss | breakeven | pending.

Record SignalResult : Type := {
  res_signalId : string;
  res_executed : bool;
  res_entryPrice : Q;
  res_exitPrice : option Q;
  res_pnl : option Q;
  res_pnlPercent : option number;
  res_holdingPeriod : option Q;
  res_outcome : Outcome
}.

(** A [MarketSnapshot]; [m_price] and [m_outcomeId] are [outcomes[0].price]
    and [outcomes[0].id], the only outcome the engine reads (every snapshot
    is taken to have one). *)
Record MarketSnapshot : Type := {
  m_id : string;
  m_price : Q;
  m_outcomeId : string;
  m_resolved : bool;
  m_timestamp : Z
}.

Record BacktestConfig : Type := {
  startDate : Z;
  endDate : Z;
  initialCapital : Q;
  maxConcurrentPositions : option Q
}.

Record BacktestTrade : Type := {
  tr_marketId : string;
  tr_outcomeId : string;
  tr_side : SignalType;
  tr_entryTime : Z;
  tr_exitTime : option Z;
  tr_entryPrice : Q;
  tr_exitPrice : option Q;
  tr_size : Q;
  tr_pnl : Q;
  tr_pnlPercent : number;
  tr_fees : Q;
  tr_slippage : Q;
  tr_signal : Signal
}.

Record EquityPoint : Type := {
  ep_timestamp : Z;
  ep_equity : Q;
  ep_drawdown : Q;
  ep_drawdownPercent : Q
}.

Record DrawdownPeriod : Type := {
  dp_startDate : Z;
  dp_endDate : Z;
  dp_maxDrawdown : Q;
  dp_maxDrawdownPercent : Q;
  dp_duration : Q;
  dp_recovered : bool;
  dp_recoveryDate : option Z
}.

(** The entries of the engine's [positions] map. *)
Record Position : Type := {
  pos_side : SignalType;
  pos_entryPrice : Q;
  pos_entryTime : Z;
  pos_size : Q;
  pos_signal : Signal
}.

(** [IStrategy], as far as [simulate] calls it.  A strategy is an object with
    private state [S]; each callback returns the state it leaves behind.
    [getPositionSize] is the size of a strategy that returns a finite
    number; a size of [NaN] or [Infinity], which the engine's test
    [positionSize < 1] does not stop, is followed through [belowMinimum],
    [pnlAtSize] and [classify] instead. *)
Record IStrategy (S : Type) : Type := {
  generateSignals : S -> list MarketSnapshot -> list Signal * S;
  validateSignal : S -> Signal -> bool * S;
  getPositionSize : S -> Signal -> Q -> Q * S;
  onSignalExecuted : S -> Signal -> SignalResult -> S
}.

(* ================================================================== *)
(** ** backtesting/engine.ts: construction and the per-position helpers *)
(* ================================================================== *)

Record Options : Type := {
  opt_slippage : option Q;
  opt_fees : option Q
}.

Record BacktestEngine : Type := {
  slippage : Q;
  fees : Q
}.

Definition constructor (options : Options) : BacktestEngine :=
  {| slippage := orElse (opt_slippage options) 0.005;
     fees := orElse (opt_fees options) 0.02 |}.

Definition applySlippage (this : BacktestEngine) (price : Q) (side : SignalType) : Q :=
  let slippageFactor := if isBuy side then 1 + slippage this else 1 - slippage this in
  price * slippageFactor.

Definition calculatePnL (entryPrice exitPrice size : Q) (side : SignalType) : Q :=
  let priceDiff := if isBuy side then exitPrice - entryPrice
                   else entryPrice - exitPrice in
  priceDiff * size.

(** An optional numeric field guarded by [if (signal.field)]: the level it
    holds when it is set and non-zero. *)
Definition whenSet (x : option Q) : option Q :=
  match x with
  | Some q => if Qeq_bool q 0 then None else Some q
  | None => None
  end.

(** [now] is the reading of [new Date()] taken by the expiration check. *)
Definition shouldExitPosition (position : Position) (currentPrice : Q)
    (_market : MarketSnapshot) (now : Z) : bool :=
  let signal := pos_signal position in
  let side := pos_side position in
  let stopHit :=
    match whenSet (sig_stopLoss signal) with
    | Some stopLoss =>
        isBuy side && Qle_bool currentPrice stopLoss
        || isSell side && Qle_bool stopLoss currentPrice
    | None => false
    end in
  let targetHit :=
    match whenSet (sig_takeProfit signal) with
    | Some takeProfit =>
        isBuy side && Qle_bool takeProfit currentPrice
        || isSell side && Qle_bool currentPrice takeProfit
    | None => false
    end in
  if stopHit then true
  else if targetHit then true
  else match sig_expiresAt signal with
       | Some expiresAt => (expiresAt <? now)%Z
       | None => false
       end.

(* ================================================================== *)
(** ** The timeline: distinct timestamps, ascending *)
(* ================================================================== *)

Module ZOrder <: TotalLeBool.
Definition t := Z.
Definition leb := Z.leb.
Theorem leb_total : forall a1 a2, leb a1 a2 = true \/ leb a2 a1 = true.
Proof. intros a1 a2; unfold leb; lia. Qed.
End ZOrder.

(** [Array.prototype.sort((a, b) => a - b)]. *)
Module ZSort := Sort ZOrder.

(** [Set.prototype.add]: insertion order, no second copy. *)
Definition Set_add (s : list Z) (x : Z) : list Z :=
  if existsb (Z.eqb x) s then s else s ++ [x].

(** [marketData] is the [Map] from market id to its snapshots, in insertion
    order. *)
Definition MarketData : Type := list (string * list MarketSnapshot).

Definition allTimestamps (marketData : MarketData) : list Z :=
  fold_left
    (fun acc entry =>
       fold_left (fun acc snapshot => Set_add acc (m_timestamp snapshot))
                 (snd entry) acc)
    marketData [].

Definition sortedTimestamps (marketData : MarketData) : list Z :=
  ZSort.sort (allTimestamps marketData).

(** The frame of [timestamp]: for each market, its first snapshot taken at
    that time, if there is one. *)
Definition currentSnapshots (marketData : MarketData) (timestamp : Z)
  : list MarketSnapshot :=
  flat_map
    (fun entry =>
       match find (fun s => (m_timestamp s =? timestamp)%Z) (snd entry) with
       | Some snapshot => [snapshot]
       | None => []
       end)
    marketData.

(** [snapshots.find(m => m.id === marketId)]. *)
Definition findMarket (snapshots : list MarketSnapshot) (marketId : string)
  : option MarketSnapshot :=
  find (fun m => String.eqb (m_id m) marketId) snapshots.

(* ================================================================== *)
(** ** The [positions] map *)
(* ================================================================== *)

Definition Positions : Type := list (string * Position).

Definition Map_has (positions : Positions) (key : string) : bool :=
  existsb (fun e => String.eqb (fst e) key) positions.

Definition Map_delete (positions : Positions) (key : string) : Positions :=
  filter (fun e => negb (String.eqb (fst e) key)) positions.

(** [Map.prototype.set]: a present key keeps its place, a new one goes last. *)
Fixpoint Map_set (positions : Positions) (key : string) (value : Position)
  : Positions :=
  match positions with
  | [] => [(key, value)]
  | e :: rest =>
      if String.eqb (fst e) key then (key, value) :: rest
      else e :: Map_set rest key value
  end.

(* ================================================================== *)
(** ** [simulate] *)
(* ================================================================== *)

(** The local variables of [simulate], the strategy object, and a record of
    the [onSignalExecuted] calls made so far. *)
Record Sim (S : Type) : Type := {
  trades : list BacktestTrade;
  equityCurve : list EquityPoint;
  positions : Positions;
  equity : Q;
  peakEquity : Q;
  strat : S;
  notified : list (Signal * SignalResult)
}.

Definition msPerHour : Q := 1000 * 60 * 60.

(** [config.maxConcurrentPositions || 10]; the configured maximum is any
    finite number. *)
Definition positionLimit (config : BacktestConfig) : Q :=
  orElse (maxConcurrentPositions config) 10.

(** [positions.size >= (config.maxConcurrentPositions || 10)]. *)
Definition capReached (config : BacktestConfig) (positions : Positions) : bool :=
  Qle_bool (positionLimit config) (len positions).

(** The number of positions from which that test holds: the limit rounded
    up to a whole number, 0 for a negative limit. *)
Definition positionCap (config : BacktestConfig) : nat :=
  Z.to_nat (Qceiling (positionLimit config)).

(** [pnl > 0 ? 'win' : pnl < 0 ? 'loss' : 'breakeven'], on any number. *)
Definition classify (pnl : number) : Outcome :=
  if gtb pnl (Fin 0) then win else if ltb pnl (Fin 0) then loss else breakeven.

(** [positionSize < 1], the test that skips a signal, on any number. *)
Definition belowMinimum (positionSize : number) : bool :=
  ltb positionSize (Fin 1).

Section Simulate.
Context {S : Type}.
Variable strategy : IStrategy S.
Variable this : BacktestEngine.
Variable config : BacktestConfig.
Variable marketData : MarketData.
(** [clock t] is the wall-clock reading of [new Date()] while the frame of
    timestamp [t] is processed. *)
Variable clock : Z -> Z.

(** The trade recorded when [position] is closed in a frame. *)
Definition closingTrade (marketId : string) (position : Position)
    (market : MarketSnapshot) (date : Z) : BacktestTrade :=
  let currentPrice := m_price market in
  let exitPrice :=
    applySlippage this currentPrice
                  (if isBuy (pos_side position) then sell else buy) in
  let pnl := calculatePnL (pos_entryPrice position) exitPrice
                          (pos_size position) (pos_side position) in
  {| tr_marketId := marketId;
     tr_outcomeId := m_outcomeId market;
     tr_side := pos_side position;
     tr_entryTime := pos_entryTime position;
     tr_exitTime := Some date;
     tr_entryPrice := pos_entryPrice position;
     tr_exitPrice := Some exitPrice;
     tr_size := pos_size position;
     tr_pnl := pnl - fees this * pos_size position * 2;
     tr_pnlPercent :=
       mul (div (Fin pnl) (Fin (pos_size position * pos_entryPrice position)))
           (Fin 100);
     tr_fees := fees this * pos_size position * 2;
     tr_slippage := Qabs (exitPrice - currentPrice) * pos_size position;
     tr_signal := pos_signal position |}.

(** The argument of [strategy.onSignalExecuted] for a closed trade. *)
Definition executionResult (position : Position) (trade : BacktestTrade)
    (date : Z) : SignalResult :=
  {| res_signalId := sig_id (pos_signal position);
     res_executed := true;
     res_entryPrice := pos_entryPrice position;
     res_exitPrice := tr_exitPrice trade;
     res_pnl := Some (tr_pnl trade);
     res_pnlPercent := Some (tr_pnlPercent trade);
     res_holdingPeriod :=
       Some (inject_Z (date - pos_entryTime position) / msPerHour);
     res_outcome := classify (Fin (tr_pnl trade)) |}.

(** Whether the exit loop closes the position: its market is in the frame
    and [shouldExit || market.resolved]. *)
Definition exits (snapshots : list MarketSnapshot) (now : Z)
    (entry : string * Position) : bool :=
  match findMarket snapshots (fst entry) with
  | None => false
  | Some market =>
      shouldExitPosition (snd entry) (m_price market) market now
      || m_resolved market
  end.

(** Body of [for (const [marketId, position] of positions)] in a frame. *)
Definition exitStep (snapshots : list MarketSnapshot) (date : Z)
    (st : Sim S) (entry : string * Position) : Sim S :=
  let (marketId, position) := entry in
  match findMarket snapshots marketId with
  | None => st
  | Some market =>
      let currentPrice := m_price market in
      let shouldExit :=
        shouldExitPosition position currentPrice market (clock date) in
      if shouldExit || m_resolved market then
        let trade := closingTrade marketId position market date in
        let result := executionResult position trade date in
        {| trades := trades st ++ [trade];
           equityCurve := equityCurve st;
           positions := Map_delete (positions st) marketId;
           equity := equity st + tr_pnl trade;
           peakEquity := peakEquity st;
           strat := onSignalExecuted strategy (strat st)
                                     (pos_signal position) result;
           notified := notified st ++ [(pos_signal position, result)] |}
      else st
  end.

(** The exit loop.  Entries deleted while the map is iterated are those
    already visited, so the loop visits the entries it started with. *)
Definition exitPositions (snapshots : list MarketSnapshot) (date : Z)
    (st : Sim S) : Sim S :=
  fold_left (exitStep snapshots date) (positions st) st.

Definition withStrat (st : Sim S) (s : S) : Sim S :=
  {| trades := trades st;
     equityCurve := equityCurve st;
     positions := positions st;
     equity := equity st;
     peakEquity := peakEquity st;
     strat := s;
     notified := notified st |}.

Definition withPositions (st : Sim S) (ps : Positions) : Sim S :=
  {| trades := trades st;
     equityCurve := equityCurve st;
     positions := ps;
     equity := equity st;
     peakEquity := peakEquity st;
     strat := strat st;
     notified := notified st |}.

(** Body of [for (const signal of signals)]. *)
Definition signalStep (snapshots : list MarketSnapshot) (date : Z)
    (st : Sim S) (signal : Signal) : Sim S :=
  if capReached config (positions st) then st
  else if Map_has (positions st) (sig_marketId signal) then st
  else
    let (isValid, s1) := validateSignal strategy (strat st) signal in
    let st := withStrat st s1 in
    if negb isValid then st
    else
      match findMarket snapshots (sig_marketId signal) with
      | None => st
      | Some market =>
          if m_resolved market then st
          else
            let (positionSize, s2) :=
              getPositionSize strategy (strat st) signal (equity st) in
            let st := withStrat st s2 in
            if belowMinimum (Fin positionSize) then st
            else
              let entryPrice :=
                applySlippage this
                  (orElse (sig_entryPrice signal) (m_price market))
                  (sig_type signal) in
              withPositions st
                (Map_set (positions st) (sig_marketId signal)
                   {| pos_side := sig_type signal;
                      pos_entryPrice := entryPrice;
                      pos_entryTime := date;
                      pos_size := positionSize;
                      pos_signal := signal |})
      end.

Definition processSignals (snapshots : list MarketSnapshot) (date : Z)
    (st : Sim S) (signals : list Signal) : Sim S :=
  fold_left (signalStep snapshots date) signals st.

(** "Update equity curve": the point pushed at the end of a frame. *)
Definition recordEquity (date : Z) (st : Sim S) : Sim S :=
  let peakEquity := Qmax (peakEquity st) (equity st) in
  let drawdown := peakEquity - equity st in
  let drawdownPercent := if Qltb 0 peakEquity then drawdown / peakEquity else 0 in
  {| trades := trades st;
     equityCurve := equityCurve st ++
       [{| ep_timestamp := date;
           ep_equity := equity st;
           ep_drawdown := drawdown;
           ep_drawdownPercent := drawdownPercent |}];
     positions := positions st;
     equity := equity st;
     peakEquity := peakEquity;
     strat := strat st;
     notified := notified st |}.

(** Body of [for (const timestamp of sortedTimestamps)]. *)
Definition frameStep (st : Sim S) (timestamp : Z) : Sim S :=
  let date := timestamp in
  let snapshots := currentSnapshots marketData timestamp in
  if (length snapshots =? 0)%nat then st
  else
    let st := exitPositions snapshots date st in
    let (signals, s) := generateSignals strategy (strat st) snapshots in
    let st := processSignals snapshots date (withStrat st s) signals in
    recordEquity date st.

(** [Array.from(marketData.values()).map(s => s[s.length - 1]).filter(Boolean)]. *)
Definition lastSnapshots : list MarketSnapshot :=
  flat_map
    (fun entry =>
       match rev (snd entry) with
       | lastSnapshot :: _ => [lastSnapshot]
       | [] => []
       end)
    marketData.

(** The trade recorded for a position still open after the last frame. *)
Definition finalTrade (marketId : string) (position : Position)
    (market : MarketSnapshot) : BacktestTrade :=
  let exitPrice := m_price market in
  let pnl := calculatePnL (pos_entryPrice position) exitPrice
                          (pos_size position) (pos_side position) in
  {| tr_marketId := marketId;
     tr_outcomeId := m_outcomeId market;
     tr_side := pos_side position;
     tr_entryTime := pos_entryTime position;
     tr_exitTime := Some (endDate config);
     tr_entryPrice := pos_entryPrice position;
     tr_exitPrice := Some exitPrice;
     tr_size := pos_size position;
     tr_pnl := pnl - fees this * pos_size position * 2;
     tr_pnlPercent :=
       mul (div (Fin pnl) (Fin (pos_size position * pos_entryPrice position)))
           (Fin 100);
     tr_fees := fees this * pos_size position * 2;
     tr_slippage := 0;
     tr_signal := pos_signal position |}.

(** Body of the loop "Close remaining positions at end". *)
Definition finalStep (st : Sim S) (entry : string * Position) : Sim S :=
  let (marketId, position) := entry in
  match findMarket lastSnapshots marketId with
  | Some market =>
      {| trades := trades st ++ [finalTrade marketId position market];
         equityCurve := equityCurve st;
         positions := positions st;
         equity := equity st;
         peakEquity := peakEquity st;
         strat := strat st;
         notified := notified st |}
  | None => st
  end.

Definition closeRemaining (st : Sim S) : Sim S :=
  fold_left finalStep (positions st) st.

Definition initialSim (s0 : S) : Sim S :=
  {| trades := [];
     equityCurve := [];
     positions := [];
     equity := initialCapital config;
     peakEquity := initialCapital config;
     strat := s0;
     notified := [] |}.

(** The state after the frames of [timestamps], in order. *)
Definition runFrames (timestamps : list Z) (st : Sim S) : Sim S :=
  fold_left frameStep timestamps st.

(** [simulate]: the source returns [trades] and [equityCurve] of this
    state. [s0] is the strategy as [run] hands it over. *)
Definition simulate (s0 : S) : Sim S :=
  closeRemaining (runFrames (sortedTimestamps marketData) (initialSim s0)).

End Simulate.

(* ================================================================== *)
(** ** The post-pass: summary, drawdown periods, metrics *)
(* ================================================================== *)

Record BacktestSummary : Type := {
  totalTrades : nat;
  winningTrades : nat;
  losingTrades : nat;
  winRate : number;
  totalPnl : number;
  totalReturn : number;
  sum_maxDrawdown : number;
  sum_sharpeRatio : number;
  sum_sortinoRatio : number;
  profitFactor : number;
  averageWin : number;
  averageLoss : number;
  largestWin : number;
  largestLoss : number;
  averageHoldingPeriod : number;
  exposure : number
}.

Record PerformanceMetrics : Type := {
  met_cagr : number;
  volatility : number;
  met_sharpeRatio : number;
  met_sortinoRatio : number;
  calmarRatio : number;
  met_maxDrawdown : number;
  maxDrawdownDuration : number;
  met_winRate : number;
  met_profitFactor : number;
  expectancy : number;
  payoffRatio : number;
  ulcerIndex : number
}.

(** [trades.filter(t => t.pnl > 0)] and [trades.filter(t => t.pnl < 0)]. *)
Definition winners (trades : list BacktestTrade) : list BacktestTrade :=
  filter (fun t => Qltb 0 (tr_pnl t)) trades.

Definition losers (trades : list BacktestTrade) : list BacktestTrade :=
  filter (fun t => Qltb (tr_pnl t) 0) trades.

(** [ts.reduce((sum, t) => sum + t.pnl, 0)]. *)
Definition sumPnl (ts : list BacktestTrade) : Q :=
  fold_left (fun sum t => sum + tr_pnl t) ts 0.

Definition grossProfit (trades : list BacktestTrade) : Q := sumPnl (winners trades).

Definition grossLoss (trades : list BacktestTrade) : Q :=
  Qabs (sumPnl (losers trades)).

(** [equityCurve.slice(1).map((e, i) => (e.equity - equityCurve[i].equity) /
    equityCurve[i].equity)]: each point against the one before it. *)
Fixpoint returnsFrom (previous : EquityPoint) (rest : list EquityPoint)
  : list number :=
  match rest with
  | [] => []
  | e :: rest' =>
      div (Fin (ep_equity e - ep_equity previous)) (Fin (ep_equity previous))
      :: returnsFrom e rest'
  end.

Definition stepReturns (equityCurve : list EquityPoint) : list number :=
  match equityCurve with
  | [] => []
  | first :: rest => returnsFrom first rest
  end.

(** The holding time of a trade in milliseconds, when it has an exit time. *)
Definition heldMs (t : BacktestTrade) : list Q :=
  match tr_exitTime t with
  | Some exitTime => [inject_Z (exitTime - tr_entryTime t)]
  | None => []
  end.

Definition holdingPeriods (trades : list BacktestTrade) : list Q :=
  map (fun ms => ms / msPerHour) (flat_map heldMs trades).

Definition Qsum (xs : list Q) : Q := fold_left Qplus xs 0.

Definition calculateExposure (trades : list BacktestTrade)
    (equityCurve : list EquityPoint) : number :=
  match equityCurve with
  | [] => Fin 0
  | first :: _ =>
      let totalDuration :=
        inject_Z (ep_timestamp (last equityCurve first) - ep_timestamp first) in
      let exposedTime := Qsum (flat_map heldMs trades) in
      if Qltb 0 totalDuration then Fin (exposedTime / totalDuration) else Fin 0
  end.

Definition msPerDay : Q := 1000 * 60 * 60 * 24.

(** Local variables of [calculateDrawdowns]; [currentDrawdown] is [Some]
    exactly while [inDrawdown] holds. *)
Record DrawdownScan : Type := {
  drawdowns : list DrawdownPeriod;
  peak : Q;
  peakDate : Z;
  currentDrawdown : option DrawdownPeriod
}.

(** Body of [for (const point of equityCurve)] in [calculateDrawdowns]. *)
Definition drawdownStep (st : DrawdownScan) (point : EquityPoint) : DrawdownScan :=
  if Qltb (peak st) (ep_equity point) then
    {| drawdowns :=
         match currentDrawdown st with
         | Some current =>
             drawdowns st ++
               [{| dp_startDate := dp_startDate current;
                   dp_endDate := dp_endDate current;
                   dp_maxDrawdown := dp_maxDrawdown current;
                   dp_maxDrawdownPercent := dp_maxDrawdownPercent current;
                   dp_duration := dp_duration current;
                   dp_recovered := true;
                   dp_recoveryDate := Some (ep_timestamp point) |}]
         | None => drawdowns st
         end;
       peak := ep_equity point;
       peakDate := ep_timestamp point;
       currentDrawdown := None |}
  else if Qltb 0 (ep_drawdown point) then
    {| drawdowns := drawdowns st;
       peak := peak st;
       peakDate := peakDate st;
       currentDrawdown :=
         match currentDrawdown st with
         | None =>
             Some {| dp_startDate := peakDate st;
                     dp_endDate := ep_timestamp point;
                     dp_maxDrawdown := ep_drawdown point;
                     dp_maxDrawdownPercent := ep_drawdownPercent point;
                     dp_duration := 0;
                     dp_recovered := false;
                     dp_recoveryDate := None |}
         | Some current =>
             let deeper := Qltb (dp_maxDrawdown current) (ep_drawdown point) in
             Some {| dp_startDate := dp_startDate current;
                     dp_endDate := ep_timestamp point;
                     dp_maxDrawdown :=
                       if deeper then ep_drawdown point
                       else dp_maxDrawdown current;
                     dp_maxDrawdownPercent :=
                       if deeper then ep_drawdownPercent point
                       else dp_maxDrawdownPercent current;
                     dp_duration :=
                       inject_Z (ep_timestamp point - dp_startDate current)
                       / msPerDay;
                     dp_recovered := dp_recovered current;
                     dp_recoveryDate := dp_recoveryDate current |}
         end |}
  else st.

(** The state before the first point: [equityCurve[0]?.equity || 0] and
    [equityCurve[0]?.timestamp] (an absent date is never read). *)
Definition drawdownInit (equityCurve : list EquityPoint) : DrawdownScan :=
  {| drawdowns := [];
     peak := orElse (option_map ep_equity (hd_error equityCurve)) 0;
     peakDate := match equityCurve with p :: _ => ep_timestamp p | [] => 0%Z end;
     currentDrawdown := None |}.

(** After the loop, a period still open is pushed as it stands. *)
Definition drawdownFinish (st : DrawdownScan) : list DrawdownPeriod :=
  match currentDrawdown st with
  | Some current => drawdowns st ++ [current]
  | None => drawdowns st
  end.

Definition calculateDrawdowns (equityCurve : list EquityPoint)
  : list DrawdownPeriod :=
  drawdownFinish (fold_left drawdownStep equityCurve (drawdownInit equityCurve)).

(** Loop state of [getMaxDrawdownDuration]: [maxDuration], [peak], [peakDate]. *)
Definition durationStep (st : Q * Q * Z) (point : EquityPoint) : Q * Q * Z :=
  let '(maxDuration, peak, peakDate) := st in
  if Qltb peak (ep_equity point) then
    let duration := inject_Z (ep_timestamp point - peakDate) / msPerDay in
    (Qmax maxDuration duration, ep_equity point, ep_timestamp point)
  else st.

Definition getMaxDrawdownDuration (equityCurve : list EquityPoint) : Q :=
  let init := drawdownInit equityCurve in
  fst (fst (fold_left durationStep equityCurve (0, peak init, peakDate init))).

Definition msPerYear : Q := 1000 * 60 * 60 * 24 * 365.

Section Metrics.
Context `{MathEnv}.

Definition calculateSummary (trades : list BacktestTrade)
    (equityCurve : list EquityPoint) (config : BacktestConfig)
  : BacktestSummary :=
  let winningTrades := winners trades in
  let losingTrades := losers trades in
  let totalPnl := sumPnl trades in
  let grossProfit := grossProfit trades in
  let grossLoss := grossLoss trades in
  let returns := stepReturns equityCurve in
  let holdingPeriods := holdingPeriods trades in
  let dd := maxDrawdown (map ep_equity equityCurve) in
  {| totalTrades := length trades;
     winningTrades := length winningTrades;
     losingTrades := length losingTrades;
     winRate :=
       if (0 <? length trades)%nat
       then Fin (len winningTrades / len trades) else Fin 0;
     totalPnl := Fin totalPnl;
     totalReturn :=
       if Qltb 0 (initialCapital config)
       then Fin (totalPnl / initialCapital config) else Fin 0;
     sum_maxDrawdown := Fin (dd_percent dd);
     sum_sharpeRatio := sharpeRatio returns (Fin 0);
     sum_sortinoRatio := sortinoRatio returns (Fin 0);
     profitFactor :=
       if Qltb 0 grossLoss then Fin (grossProfit / grossLoss) else PosInf;
     averageWin :=
       if (0 <? length winningTrades)%nat
       then Fin (grossProfit / len winningTrades) else Fin 0;
     averageLoss :=
       if (0 <? length losingTrades)%nat
       then Fin (grossLoss / len losingTrades) else Fin 0;
     largestWin :=
       if (0 <? length winningTrades)%nat
       then maxOf (map (fun t => Fin (tr_pnl t)) winningTrades) else Fin 0;
     largestLoss :=
       if (0 <? length losingTrades)%nat
       then maxOf (map (fun t => Fin (Qabs (tr_pnl t))) losingTrades)
       else Fin 0;
     averageHoldingPeriod :=
       if (0 <? length holdingPeriods)%nat
       then Fin (Qsum holdingPeriods / len holdingPeriods) else Fin 0;
     exposure := calculateExposure trades equityCurve |}.

Definition calculateMetrics (trades : list BacktestTrade)
    (equityCurve : list EquityPoint) (config : BacktestConfig)
  : PerformanceMetrics :=
  let returns := stepReturns equityCurve in
  let startEquity := initialCapital config in
  let endEquity :=
    orElse (option_map ep_equity (hd_error (rev equityCurve))) startEquity in
  let years := inject_Z (endDate config - startDate config) / msPerYear in
  let dd := maxDrawdown (map ep_equity equityCurve) in
  let winningTrades := winners trades in
  let losingTrades := losers trades in
  let grossProfit := grossProfit trades in
  let grossLoss := grossLoss trades in
  let avgWin :=
    if (0 <? length winningTrades)%nat
    then grossProfit / len winningTrades else 0 in
  let avgLoss :=
    if (0 <? length losingTrades)%nat
    then grossLoss / len losingTrades else 1 in
  let winRate :=
    if (0 <? length trades)%nat
    then len winningTrades / len trades else 0 in
  let expectancy := winRate * avgWin - (1 - winRate) * avgLoss in
  let avgReturn :=
    if (0 <? length returns)%nat
    then div (sum returns) (Fin (len returns)) else Fin 0 in
  let squaredDiffs := map (fun r => square (sub r avgReturn)) returns in
  let variance :=
    if (0 <? length squaredDiffs)%nat
    then div (sum squaredDiffs) (Fin (len squaredDiffs)) else Fin 0 in
  let volatility := mul (sqrt variance) (sqrt (Fin 252)) in
  let squaredDrawdowns :=
    map (fun e => square (Fin (ep_drawdownPercent e * 100))) equityCurve in
  let ulcerIndex :=
    sqrt (div (sum squaredDrawdowns) (Fin (len squaredDrawdowns))) in
  {| met_cagr := cagr startEquity endEquity years;
     volatility := volatility;
     met_sharpeRatio := sharpeRatio returns (Fin 0);
     met_sortinoRatio := sortinoRatio returns (Fin 0);
     calmarRatio :=
       if Qltb 0 (dd_percent dd)
       then div (cagr startEquity endEquity years) (Fin (dd_percent dd))
       else Fin 0;
     met_maxDrawdown := Fin (dd_percent dd);
     maxDrawdownDuration := Fin (getMaxDrawdownDuration equityCurve);
     met_winRate := Fin winRate;
     met_profitFactor :=
       if Qltb 0 grossLoss then Fin (grossProfit / grossLoss) else PosInf;
     expectancy := Fin expectancy;
     payoffRatio := if Qltb 0 avgLoss then Fin (avgWin / avgLoss) else Fin 0;
     ulcerIndex := ulcerIndex |}.

End Metrics.

(* ================================================================== *)
(** ** A concrete [Math] for running examples *)
(* ================================================================== *)

(** Square roots rounded down to six decimals.  Powers are exact where the
    exponent is an integer and the base finite, and [x ** 0] is 1; every
    other power is answered [NaN].  The examples below do not raise anything
    to a power. *)
Definition sample_sqrt (q : Q) : Q :=
  Z.sqrt (Qnum q * Zpos (Qden q) * 10 ^ 12) # (Qden q * 10 ^ 6).

Definition sample_pow (x y : number) : number :=
  match x, y with
  | Fin b, Fin e =>
      let n := (Qnum e / Zpos (Qden e))%Z in
      if Qeq_bool b 1 then Fin 1
      else if negb (Qeq_bool e (inject_Z n)) then NaN
      else if Qeq_bool b 0 && (n <? 0)%Z then PosInf
      else Fin (Qpower b n)
  | _, Fin e => if Qeq_bool e 0 then Fin 1 else NaN
  | _, _ => NaN
  end.

Definition sampleMath : MathEnv :=
  {| Math_sqrt := sample_sqrt; Math_pow := sample_pow |}.

(* ================================================================== *)
(** ** Example inputs *)
(* ================================================================== *)

(** A strategy for the examples: it replays a script (the signals to emit,
    frame after frame), accepts every signal and sizes each at [size]. *)
Definition scripted (size : Q) : IStrategy (list (list Signal)) :=
  {| generateSignals := fun script _ =>
       match script with
       | [] => ([], [])
       | signals :: rest => (signals, rest)
       end;
     validateSignal := fun script _ => (true, script);
     getPositionSize := fun script _ _ => (size, script);
     onSignalExecuted := fun script _ _ => script |}.

Definition signalFor (marketId : string) (side : SignalType)
    (entryPrice stopLoss takeProfit : option Q) : Signal :=
  {| sig_id := ("sig-" ++ marketId)%string;
     sig_marketId := marketId;
     sig_type := side;
     sig_entryPrice := entryPrice;
     sig_stopLoss := stopLoss;
     sig_takeProfit := takeProfit;
     sig_expiresAt := None |}.

Definition snapshotAt (marketId : string) (timestamp : Z) (price : Q)
    (resolved : bool) : MarketSnapshot :=
  {| m_id := marketId;
     m_price := price;
     m_outcomeId := "yes"%string;
     m_resolved := resolved;
     m_timestamp := timestamp |}.

Definition emptySim {S : Type} (capital : Q) (s : S) : Sim S :=
  {| trades := [];
     equityCurve := [];
     positions := [];
     equity := capital;
     peakEquity := capital;
     strat := s;
     notified := [] |}.

(** The fee rule: both legs of the round trip are charged on the size. *)
Definition feesCharged (this : BacktestEngine) (t : BacktestTrade) : Prop :=
  tr_fees t == 2 * fees this * tr_size t.

(* ================================================================== *)
(** ** Vocabulary of the statements *)
(* ================================================================== *)

(** The pnl that lines 153 to 170 give the trade closing a position of
    [size], for a size that need not be a finite number. *)
Definition pnlAtSize (this : BacktestEngine) (side : SignalType)
    (entryPrice exitPrice : Q) (size : number) : number :=
  let priceDiff := if isBuy side then exitPrice - entryPrice
                   else entryPrice - exitPrice in
  sub (mul (Fin priceDiff) size) (mul (mul (Fin (fees this)) size) (Fin 2)).

(** The returns below the risk-free threshold, in the specification's words:
    [below] holds, in order, each return of [returns] that is strictly below
    [riskFreeRate], and no other. *)
Inductive belowThreshold (riskFreeRate : number)
  : list number -> list number -> Prop :=
| below_none : belowThreshold riskFreeRate [] []
| below_take r returns below :
    ltb r riskFreeRate = true ->
    belowThreshold riskFreeRate returns below ->
    belowThreshold riskFreeRate (r :: returns) (r :: below)
| below_skip r returns below :
    ltb r riskFreeRate = false ->
    belowThreshold riskFreeRate returns below ->
    belowThreshold riskFreeRate (r :: returns) below.

(** The downside deviation of the specification: the root of the mean
    squared distance to the threshold, over the returns [below]. *)
Definition downsideDeviation `{MathEnv} (below : list number)
    (riskFreeRate : number) : number :=
  sqrt (div (sum (map (fun r => square (sub r riskFreeRate)) below))
            (Fin (len below))).

(** What a notification says about the trade it reports. *)
Definition reports (t : BacktestTrade) (n : Signal * SignalResult) : Prop :=
  fst n = tr_signal t
  /\ res_executed (snd n) = true
  /\ res_pnl (snd n) = Some (tr_pnl t)
  /\ res_outcome (snd n) = classify (Fin (tr_pnl t)).

(** The exit conditions, as the specification names them. *)
Definition stopLossBreached (position : Position) (price : Q) : Prop :=
  exists level,
    sig_stopLoss (pos_signal position) = Some level
    /\ ~ level == 0
    /\ (pos_side position = buy /\ price <= level
        \/ pos_side position = sell /\ level <= price).

Definition takeProfitReached (position : Position) (price : Q) : Prop :=
  exists level,
    sig_takeProfit (pos_signal position) = Some level
    /\ ~ level == 0
    /\ (pos_side position = buy /\ level <= price
        \/ pos_side position = sell /\ price <= level).

(** The signal's expiration time lies before [time]. *)
Definition expiredAt (position : Position) (time : Z) : Prop :=
  exists expiresAt,
    sig_expiresAt (pos_signal position) = Some expiresAt /\ (expiresAt < time)%Z.

(** The exit condition with the expiration judged at [time]. *)
Definition exitCondition (position : Position) (market : MarketSnapshot)
    (time : Z) : Prop :=
  stopLossBreached position (m_price market)
  \/ takeProfitReached position (m_price market)
  \/ expiredAt position time
  \/ m_resolved market = true.

(** No market id holds two entries of the map. *)
Definition onePerMarket (positions : Positions) : Prop :=
  NoDup (map fst positions).

(** The market ids the exit loop closes among the entries [l]. *)
Definition closedKeys (snapshots : list MarketSnapshot) (now : Z)
    (l : Positions) : list string :=
  map fst (filter (exits snapshots now) l).

(** Scenario A: capital 10000, one market quoted 0.40 and then 0.60, one buy
    signal of size 100 with its target at 0.60. *)
Definition scenarioA_config : BacktestConfig :=
  {| startDate := 0; endDate := 3000; initialCapital := 10000;
     maxConcurrentPositions := None |}.

Definition scenarioA_data : MarketData :=
  [("m"%string, [snapshotAt "m" 1000 0.40 false; snapshotAt "m" 2000 0.60 false])].

Definition scenarioA_script : list (list Signal) :=
  [[signalFor "m" buy None None (Some 0.60)]].

Definition scenarioA (this : BacktestEngine) : Sim (list (list Signal)) :=
  simulate (scripted 100) this scenarioA_config scenarioA_data (fun t => t)
           scenarioA_script.

(** A run that ends with a position still open: the market is quoted 0.40
    and then 0.50, and the buy signal of the first frame has no target. *)
Definition openEnded_data : MarketData :=
  [("m"%string, [snapshotAt "m" 1000 0.40 false; snapshotAt "m" 2000 0.50 false])].

Definition openEnded_script : list (list Signal) :=
  [[signalFor "m" buy None None None]].

(** The trades the closing loop may add for the positions [open]. *)
Definition forcedFrom (this : BacktestEngine) (config : BacktestConfig)
    (open : Positions) (t : BacktestTrade) : Prop :=
  exists marketId position market,
    In (marketId, position) open
    /\ t = finalTrade this config marketId position market.

(** The two bounds on the open positions: at most the cap of the run, at
    most one per market. *)
Definition withinLimits (config : BacktestConfig) (positions : Positions) : Prop :=
  (length positions <= positionCap config)%nat /\ onePerMarket positions.

(** The strategy lets [signal] through in state [s] at equity [capital]:
    it validates it and sizes it at [size], not below 1. *)
Definition accepts {S : Type} (strategy : IStrategy S) (s : S) (signal : Signal)
    (capital size : Q) : Prop :=
  exists s1 s2,
    validateSignal strategy s signal = (true, s1)
    /\ getPositionSize strategy s1 signal capital = (size, s2)
    /\ 1 <= size.

(** A configuration whose cap is set to 0. *)
Definition zeroCap_config : BacktestConfig :=
  {| startDate := 0; endDate := 3000; initialCapital := 10000;
     maxConcurrentPositions := Some 0 |}.

(** A configuration whose cap is 1.5, and a frame with two markets and a
    buy signal for each. *)
Definition fractionalCap_config : BacktestConfig :=
  {| startDate := 0; endDate := 3000; initialCapital := 10000;
     maxConcurrentPositions := Some 1.5 |}.

Definition twoMarkets_data : MarketData :=
  [("m"%string, [snapshotAt "m" 1000 0.40 false]);
   ("n"%string, [snapshotAt "n" 1000 0.30 false])].

Definition twoMarkets_script : list (list Signal) :=
  [[signalFor "m" buy None None None; signalFor "n" buy None None None]].

(** The running peak: the largest of the initial capital and the equity
    values seen so far. *)
Definition runningPeak (capital : Q) (equities : list Q) : Q :=
  fold_left Qmax equities capital.

(** The drawdown fields of point [p], which follows the points [before]. *)
Definition drawdownFieldsOf (capital : Q) (before : list EquityPoint)
    (p : EquityPoint) : Prop :=
  let peak := runningPeak capital (map ep_equity (before ++ [p])) in
  ep_drawdown p == Qmax 0 (peak - ep_equity p)
  /\ ep_drawdownPercent p == (if Qltb 0 peak then ep_drawdown p / peak else 0).

(** Market [entry] has a snapshot taken at [timestamp]. *)
Definition observedAt (marketData : MarketData) (timestamp : Z) : Prop :=
  exists entry snapshot,
    In entry marketData /\ In snapshot (snd entry)
    /\ m_timestamp snapshot = timestamp.

(** The frame of [timestamp] has at least one market. *)
Definition frameAvailable (marketData : MarketData) (timestamp : Z) : bool :=
  negb (length (currentSnapshots marketData timestamp) =? 0)%nat.

(** The state of the peak and of the curve, as a frame leaves it. *)
Definition curveInvariant {S : Type} (config : BacktestConfig) (st : Sim S)
  : Prop :=
  peakEquity st
  = runningPeak (initialCapital config) (map ep_equity (equityCurve st))
  /\ forall before p after,
       equityCurve st = before ++ p :: after ->
       drawdownFieldsOf (initialCapital config) before p.

(** [period] is a drawdown period starting at [start] and made of [points]:
    it ends at one of them, and its depth is the largest drawdown among
    them, with the percentage of a point of that depth. *)
Definition covers (start : Z) (points : list EquityPoint)
    (period : DrawdownPeriod) : Prop :=
  dp_startDate period = start
  /\ (exists p, In p points /\ dp_endDate period = ep_timestamp p)
  /\ (forall p, In p points -> ep_drawdown p <= dp_maxDrawdown period)
  /\ (exists p, In p points
                /\ dp_maxDrawdown period = ep_drawdown p
                /\ dp_maxDrawdownPercent period = ep_drawdownPercent p).

(** [period], closed as recovered at time [t]. *)
Definition recoveredAt (period : DrawdownPeriod) (t : Z) : DrawdownPeriod :=
  {| dp_startDate := dp_startDate period;
     dp_endDate := dp_endDate period;
     dp_maxDrawdown := dp_maxDrawdown period;
     dp_maxDrawdownPercent := dp_maxDrawdownPercent period;
     dp_duration := dp_duration period;
     dp_recovered := true;
     dp_recoveryDate := Some t |}.

(** The drawdown periods in the specification's words.  [deepest first
    more] is the point of the largest drawdown among [first :: more], the
    earliest one when several points share it. *)
Fixpoint deepest (first : EquityPoint) (more : list EquityPoint) : EquityPoint :=
  match more with
  | [] => first
  | next :: rest =>
      let later := deepest next rest in
      if Qltb (ep_drawdown first) (ep_drawdown later) then later else first
  end.

(** The period of the points [first :: more], the points of positive
    drawdown met after the peak dated [start]: it starts at the peak's date,
    ends at the last of them, carries the drawdown and the percentage of the
    deepest of them, and is not recovered.  Its duration is counted from the
    second point on. *)
Definition periodOf (start : Z) (first : EquityPoint) (more : list EquityPoint)
  : DrawdownPeriod :=
  let final := last more first in
  let worst := deepest first more in
  {| dp_startDate := start;
     dp_endDate := ep_timestamp final;
     dp_maxDrawdown := ep_drawdown worst;
     dp_maxDrawdownPercent := ep_drawdownPercent worst;
     dp_duration :=
       match more with
       | [] => 0
       | _ :: _ => inject_Z (ep_timestamp final - start) / msPerDay
       end;
     dp_recovered := false;
     dp_recoveryDate := None |}.

(** The period that the points [inside] make up, when there is one. *)
Definition openPeriod (start : Z) (inside : list EquityPoint)
  : option DrawdownPeriod :=
  match inside with
  | [] => None
  | first :: more => Some (periodOf start first more)
  end.

(** The periods of [curve], read after a peak [peak] dated [start], with
    [inside] the points of positive drawdown met since that peak.  A point
    above the peak is the new peak and closes the period of the points met,
    as recovered on its date; a point at or below the peak with a positive
    drawdown joins the period; any other point is passed over; at the end
    of the curve the points met make up a period that is not recovered. *)
Fixpoint periodsAfter (peak : Q) (start : Z) (inside : list EquityPoint)
    (curve : list EquityPoint) : list DrawdownPeriod :=
  match curve with
  | [] =>
      match openPeriod start inside with
      | Some period => [period]
      | None => []
      end
  | point :: rest =>
      if Qltb peak (ep_equity point) then
        match openPeriod start inside with
        | Some period => [recoveredAt period (ep_timestamp point)]
        | None => []
        end ++ periodsAfter (ep_equity point) (ep_timestamp point) [] rest
      else if Qltb 0 (ep_drawdown point) then
        periodsAfter peak start (inside ++ [point]) rest
      else periodsAfter peak start inside rest
  end.

(** The first point of the curve is the first peak. *)
Definition drawdownPeriods (curve : list EquityPoint) : list DrawdownPeriod :=
  match curve with
  | [] => []
  | first :: _ => periodsAfter (ep_equity first) (ep_timestamp first) [] curve
  end.

(** The new highs of [curve] after a peak [peak]: the points whose equity is
    strictly above the peak and above every point before them. *)
Fixpoint newHighs (peak : Q) (curve : list EquityPoint) : list EquityPoint :=
  match curve with
  | [] => []
  | point :: rest =>
      if Qltb peak (ep_equity point)
      then point :: newHighs (ep_equity point) rest
      else newHighs peak rest
  end.

(** The days from the date [from] to the first of [highs], and from each
    high to the next. *)
Fixpoint daysBetween (from : Z) (highs : list EquityPoint) : list Q :=
  match highs with
  | [] => []
  | high :: rest =>
      inject_Z (ep_timestamp high - from) / msPerDay
      :: daysBetween (ep_timestamp high) rest
  end.

(** A curve that stays at [capital], as a run without a trade leaves it:
    every point has that equity and no drawdown. *)
Definition flatAt (capital : Q) (curve : list EquityPoint) : Prop :=
  Forall (fun p => ep_equity p = capital
                   /\ ep_drawdown p == 0 /\ ep_drawdownPercent p == 0) curve.

(** Scenario C: the equity sequence 100, 90, 80, 95, 110 at times 1 to 5,
    with the drawdown fields the engine gives it from a capital of 100. *)
Definition scenarioC_curve : list EquityPoint :=
  [ {| ep_timestamp := 1; ep_equity := 100; ep_drawdown := 0;
       ep_drawdownPercent := 0 |};
    {| ep_timestamp := 2; ep_equity := 90; ep_drawdown := 10;
       ep_drawdownPercent := 0.1 |};
    {| ep_timestamp := 3; ep_equity := 80; ep_drawdown := 20;
       ep_drawdownPercent := 0.2 |};
    {| ep_timestamp := 4; ep_equity := 95; ep_drawdown := 5;
       ep_drawdownPercent := 0.05 |};
    {| ep_timestamp := 5; ep_equity := 110; ep_drawdown := 0;
       ep_drawdownPercent := 0 |} ].

(* ================================================================== *)
(** ** Vocabulary of the further properties *)
(* ================================================================== *)

(** The books of a trade: it has an exit, and its pnl is the price
    difference on its size, less its fees. *)
Definition tradeAccounts (t : BacktestTrade) : Prop :=
  exists exitPrice exitTime,
    tr_exitPrice t = Some exitPrice
    /\ tr_exitTime t = Some exitTime
    /\ tr_pnl t + tr_fees t
       == calculatePnL (tr_entryPrice t) exitPrice (tr_size t) (tr_side t).

(** The trades the exit loop records for the entry [entry]. *)
Definition closedTrade (this : BacktestEngine)
    (snapshots : list MarketSnapshot) (now date : Z)
    (entry : string * Position) : list BacktestTrade :=
  match findMarket snapshots (fst entry) with
  | Some market =>
      if exits snapshots now entry
      then [closingTrade this (fst entry) (snd entry) market date]
      else []
  | None => []
  end.

(** The trades the closing loop records for the entry [entry]. *)
Definition forcedTrade (this : BacktestEngine) (config : BacktestConfig)
    (marketData : MarketData) (entry : string * Position) : list BacktestTrade :=
  match findMarket (lastSnapshots marketData) (fst entry) with
  | Some market => [finalTrade this config (fst entry) (snd entry) market]
  | None => []
  end.

(** A trade that ends after it began. *)
Definition exitsAfterEntry (t : BacktestTrade) : Prop :=
  exists exitTime, tr_exitTime t = Some exitTime /\ (tr_entryTime t < exitTime)%Z.

(** What the loop of [maxDrawdown] knows after the values [done], started at
    [e0]: the running peak, and the deepest drawdown so far with the ratio
    it had where it was reached. *)
Definition drawdownSoFar (e0 : Q) (done : list Q) (st : Q * Q * Q) : Prop :=
  let '(pk, md, pct) := st in
  pk = runningPeak e0 done
  /\ 0 <= md /\ 0 <= pct
  /\ (forall pre e post,
        done = pre ++ e :: post -> runningPeak e0 (pre ++ [e]) - e <= md)
  /\ (md == 0 /\ pct == 0
      \/ exists pre e post,
           done = pre ++ e :: post
           /\ md == runningPeak e0 (pre ++ [e]) - e
           /\ pct == (if Qltb 0 (runningPeak e0 (pre ++ [e]))
                      then (runningPeak e0 (pre ++ [e]) - e)
                           / runningPeak e0 (pre ++ [e])
                      else 0))
  /\ (Forall (fun e => 0 <= e) done -> pct <= 1).

(** A closed trade of size 100 with the given pnl, for the examples. *)
Definition tradeWithPnl (pnl : Q) : BacktestTrade :=
  {| tr_marketId := "m"; tr_outcomeId := "yes"; tr_side := buy;
     tr_entryTime := 1000; tr_exitTime := Some 2000%Z; tr_entryPrice := 0.5;
     tr_exitPrice := Some 0.6; tr_size := 100; tr_pnl := pnl;
     tr_pnlPercent := Fin 0; tr_fees := 0; tr_slippage := 0;
     tr_signal := signalFor "m" buy None None None |}.

(* ================================================================== *)
(** ** [calculateMonthlyReturns] *)
(* ================================================================== *)

(** [year] and [month] are what [parseInt] reads back from the text of a
    key: a whole number, or [NaN] for a text that starts with no digit. *)
Record MonthlyReturn : Type := {
  mr_year : number;
  mr_month : number;
  mr_return : Q;
  mr_trades : nat
}.

(** An integer inside a template literal. *)
Definition showInt (z : Z) : string := NilZero.string_of_int (Z.to_int z).

(** [(getFullYear(), getMonth())] of a date. *)
Definition MonthKey : Type := (Z * Z)%type.

Definition monthKey_eqb (a b : MonthKey) : bool :=
  (fst a =? fst b)%Z && (snd a =? snd b)%Z.

(** The key of the [byMonth] map, [`${getFullYear()}-${getMonth()}`]. *)
Definition monthKeyText (month : MonthKey) : string :=
  (showInt (fst month) ++ "-" ++ showInt (snd month))%string.

(** [key.split('-')]: the pieces between the dashes, at least one. *)
Fixpoint split_dash (key : string) : list string :=
  match key with
  | EmptyString => [EmptyString]
  | String c rest =>
      if Ascii.eqb c "-" then EmptyString :: split_dash rest
      else match split_dash rest with
           | piece :: pieces => String c piece :: pieces
           | [] => [String c EmptyString]
           end
  end.

Definition isDigit (c : ascii) : bool :=
  (48 <=? nat_of_ascii c)%nat && (nat_of_ascii c <=? 57)%nat.

(** The text is made of decimal digits. *)
Fixpoint digitsOnly (text : string) : bool :=
  match text with
  | EmptyString => true
  | String c rest => isDigit c && digitsOnly rest
  end.

(** The decimal digits a text starts with. *)
Fixpoint digitsOf (text : string) : string :=
  match text with
  | EmptyString => EmptyString
  | String c rest => if isDigit c then String c (digitsOf rest) else EmptyString
  end.

(** [parseInt(text)] without a radix: an optional sign, then the digits the
    text starts with, and [NaN] when there is none.  (Leading white space
    and a ["0x"] prefix are not read; no piece of a month key has them.) *)
Definition parseInt (text : string) : number :=
  let (negative, body) :=
    match text with
    | String c rest =>
        if Ascii.eqb c "-" then (true, rest)
        else if Ascii.eqb c "+" then (false, rest)
        else (false, text)
    | EmptyString => (false, text)
    end in
  match NilZero.uint_of_string (digitsOf body) with
  | Some digits =>
      Fin (inject_Z (if negative then - Z.of_uint digits else Z.of_uint digits))
  | None => NaN
  end.

(** [parseInt] of an element of a destructured array; a missing element is
    [undefined], which reads as [NaN]. *)
Definition parseIntOf (text : option string) : number :=
  match text with
  | Some text => parseInt text
  | None => NaN
  end.

(** [Map<string, EquityPoint[]>], in insertion order. *)
Definition MonthGroups : Type := list (string * list EquityPoint).

(** [if (!byMonth.has(key)) byMonth.set(key, []); byMonth.get(key)!.push(point)]. *)
Fixpoint Map_push (groups : MonthGroups) (key : string) (point : EquityPoint)
  : MonthGroups :=
  match groups with
  | [] => [(key, [point])]
  | g :: rest =>
      if String.eqb (fst g) key then (fst g, snd g ++ [point]) :: rest
      else g :: Map_push rest key point
  end.

(** Body of [for (const [key, points] of byMonth)]; a group is created with
    its first point, so [points[0]] is always there. *)
Definition monthRow (entry : string * list EquityPoint) : MonthlyReturn :=
  let (key, points) := entry in
  let pieces := split_dash key in
  let year := parseIntOf (nth_error pieces 0) in
  let month := parseIntOf (nth_error pieces 1) in
  let startEquity := match points with p :: _ => ep_equity p | [] => 0 end in
  let endEquity := match rev points with p :: _ => ep_equity p | [] => 0 end in
  let returnPct :=
    if Qltb 0 startEquity then (endEquity - startEquity) / startEquity else 0 in
  {| mr_year := year;
     mr_month := month;
     mr_return := returnPct;
     mr_trades := 0 |}.

(** Truthiness of a number: [0] and [NaN] are falsy. *)
Definition truthyNumber (x : number) : bool :=
  match x with
  | Fin q => negb (Qeq_bool q 0)
  | NaN => false
  | PosInf | NegInf => true
  end.

(** The comparator [(a.year - b.year) || (a.month - b.month)]. *)
Definition compareMonths (a b : MonthlyReturn) : number :=
  let byYear := sub (mr_year a) (mr_year b) in
  if truthyNumber byYear then byYear else sub (mr_month a) (mr_month b).

(** [Array.prototype.sort] with a comparator.  The sort is stable: an
    element goes in front of the first one that the comparator puts after
    it, so elements that compare as equal (or as [NaN]) keep their order.
    Where the comparator is a total preorder on the elements this is the
    result of every stable sort; with an inconsistent comparator the
    language leaves the order to the implementation. *)
Fixpoint insertSorted {A : Type} (compare : A -> A -> number) (x : A)
    (sorted : list A) : list A :=
  match sorted with
  | [] => [x]
  | y :: rest =>
      if gtb (compare y x) (Fin 0) then x :: sorted
      else y :: insertSorted compare x rest
  end.

Definition Array_sort {A : Type} (compare : A -> A -> number) (xs : list A)
  : list A :=
  fold_left (fun sorted x => insertSorted compare x sorted) xs [].

Section MonthlyReturns.
(** [calendar t] is [(getFullYear(), getMonth())] of the date [t], in the
    time zone of the machine. *)
Variable calendar : Z -> MonthKey.

Definition keyOf (point : EquityPoint) : string :=
  monthKeyText (calendar (ep_timestamp point)).

Definition byMonth (equityCurve : list EquityPoint) : MonthGroups :=
  fold_left (fun groups point => Map_push groups (keyOf point) point)
            equityCurve [].

Definition calculateMonthlyReturns (equityCurve : list EquityPoint)
  : list MonthlyReturn :=
  Array_sort compareMonths (map monthRow (byMonth equityCurve)).

(** The points of the curve filed under the text [key], in curve order. *)
Definition pointsUnder (key : string) (equityCurve : list EquityPoint)
  : list EquityPoint :=
  filter (fun p => String.eqb (keyOf p) key) equityCurve.

(** The points of the curve that fall in the month [month], in curve
    order. *)
Definition pointsOf (month : MonthKey) (equityCurve : list EquityPoint)
  : list EquityPoint :=
  filter (fun p => monthKey_eqb (calendar (ep_timestamp p)) month) equityCurve.

(** Every point of the curve has a date from the year 0 on (and a month
    counted from 0, as [getMonth] does). *)
Definition fromYearZero (equityCurve : list EquityPoint) : Prop :=
  Forall (fun p => (0 <= fst (calendar (ep_timestamp p)))%Z
                   /\ (0 <= snd (calendar (ep_timestamp p)))%Z)
         equityCurve.

End MonthlyReturns.

(** Row [a] is of an earlier month than row [b]. *)
Definition monthBefore (a b : MonthlyReturn) : Prop :=
  ltb (mr_year a) (mr_year b) = true
  \/ (strictEq (mr_year a) (mr_year b) = true
      /\ ltb (mr_month a) (mr_month b) = true).

(** The groups after the points [done]: one per key met so far, holding
    the points filed under that key in curve order. *)
Definition groupsOf (calendar : Z -> MonthKey) (done : list EquityPoint)
    (groups : MonthGroups) : Prop :=
  NoDup (map fst groups)
  /\ forall key ps,
       In (key, ps) groups <-> ps <> [] /\ ps = pointsUnder calendar key done.

(** The whole number of a finite number. *)
Definition whole (x : number) : Z :=
  match x with
  | Fin q => Qfloor q
  | _ => 0%Z
  end.

(** The month of a row whose year and month are whole numbers. *)
Definition rowMonth (row : MonthlyReturn) : MonthKey :=
  (whole (mr_year row), whole (mr_month row)).

Definition wholeKeyed (row : MonthlyReturn) : Prop :=
  mr_year row = Fin (inject_Z (fst (rowMonth row)))
  /\ mr_month row = Fin (inject_Z (snd (rowMonth row))).

Definition lexLt (a b : MonthKey) : Prop :=
  (fst a < fst b \/ (fst a = fst b /\ snd a < snd b))%Z.

(* ================================================================== *)
(** ** utils/helpers.ts: the remaining numeric helpers *)
(* ================================================================== *)

(** [Math.round]: the nearest integer, a tie going up. *)
Definition Math_round (x : Q) : Z := Qfloor (x + (1 # 2)).

Definition clamp (value min max : Q) : Q := Qmin (Qmax value min) max.

(** [Math.pow(10, decimals)] for a count of decimal places. *)
Definition pow10 (decimals : nat) : Q := inject_Z (10 ^ Z.of_nat decimals).

Definition round (value : Q) (decimals : nat) : Q :=
  let factor := pow10 decimals in
  inject_Z (Math_round (value * factor)) / factor.

(** [round] with the product [value * factor] left to [product].
    [Math.round] jumps at the halves, so the rounding error of the
    floating-point product decides where a value near the middle between two
    neighbours goes; [round] above is the instance of the exact product. *)
Definition roundWith (product : Q -> Q -> Q) (value : Q) (decimals : nat) : Q :=
  let factor := pow10 decimals in
  inject_Z (Math_round (product value factor)) / factor.

(** The unit roundoff of a binary64 number, 2^-53. *)
Definition unitRoundoff : Q := 1 # 9007199254740992.

(** What is used of the floating-point product (overflow aside): it keeps
    the order of its first factor when the second is not negative, and it
    is off the exact product by at most the unit roundoff of its size, or of
    1 for the numbers too small to be normal. *)
Definition floatProduct (product : Q -> Q -> Q) : Prop :=
  (forall x y f, 0 <= f -> x <= y -> product x f <= product y f)
  /\ (forall x f,
        Qabs (product x f - x * f) <= unitRoundoff * (Qabs (x * f) + 1)).

(** [timeDiff]; [now] is the reading of [new Date()], both dates in
    milliseconds. *)
Definition timeDiff (now date : Z) : string :=
  let diffMs := (now - date)%Z in
  let diffSecs := (diffMs / 1000)%Z in
  let diffMins := (diffSecs / 60)%Z in
  let diffHours := (diffMins / 60)%Z in
  let diffDays := (diffHours / 24)%Z in
  if (0 <? diffDays)%Z then (showInt diffDays ++ "d ago")%string
  else if (0 <? diffHours)%Z then (showInt diffHours ++ "h ago")%string
  else if (0 <? diffMins)%Z then (showInt diffMins ++ "m ago")%string
  else "just now"%string.

Lemma Qle_bool_total : forall a1 a2, Qle_bool a1 a2 = true \/ Qle_bool a2 a1 = true.
Proof.
  intros a b. destruct (Qlt_le_dec a b) as [L | L].
  - left. apply Qle_bool_iff, Qlt_le_weak, L.
  - right. apply Qle_bool_iff, L.
Qed.

(** The comparator [(a, b) => a - b]. *)
Module QOrder <: TotalLeBool.
Definition t := Q.
Definition leb : t -> t -> bool := Qle_bool.
Definition leb_total : forall a1 a2, leb a1 a2 = true \/ leb a2 a1 = true :=
  Qle_bool_total.
End QOrder.

Module QSort := Sort QOrder.

(** [[...values].sort((a, b) => a - b)]. *)
Definition sortAscending (values : list Q) : list Q := QSort.sort values.

Definition median (values : list Q) : Q :=
  if (length values =? 0)%nat then 0
  else
    let sorted := sortAscending values in
    let mid := (length sorted / 2)%nat in
    if negb (length sorted mod 2 =? 0)%nat then nth mid sorted 0
    else (nth (mid - 1) sorted 0 + nth mid sorted 0) / 2.

(** What [percentile] returns: a number, [undefined] for an index outside
    the array, or [NaN] from arithmetic on [undefined]. *)
Inductive Percentile : Type :=
| Value (q : Q)
| Undefined
| NotANumber.

(** [sorted[i]] for an integer [i]. *)
Definition elementAt (sorted : list Q) (i : Z) : option Q :=
  if (i <? 0)%Z then None else nth_error sorted (Z.to_nat i).

Definition percentile (values : list Q) (p : Q) : Percentile :=
  if (length values =? 0)%nat then Value 0
  else
    let sorted := sortAscending values in
    let index := (p / 100) * (len sorted - 1) in
    let lower := Qfloor index in
    let upper := Qceiling index in
    if (lower =? upper)%Z then
      match elementAt sorted lower with
      | Some v => Value v
      | None => Undefined
      end
    else
      match elementAt sorted lower, elementAt sorted upper with
      | Some lo, Some hi => Value (lo + (hi - lo) * (index - inject_Z lower))
      | _, _ => NotANumber
      end.

(** The number of [values] that [keep] accepts. *)
Definition countIf (keep : Q -> bool) (values : list Q) : nat :=
  length (filter keep values).


(* ================================================================== *)
(** ** strategies/base.ts *)
(* ================================================================== *)

(** [Math.min(x, y)]. *)
Definition Math_min (x y : number) : number :=
  match x, y with
  | NaN, _ | _, NaN => NaN
  | _, _ => if ltb y x then y else x
  end.

(** The fields of a [Signal] that position sizing reads besides those the
    engine reads. *)
Record SignalScores : Type := {
  sig_strength : Q;
  sig_confidence : Q;
  sig_targetPrice : option Q
}.

(** What [getStatus] reports of the counters. *)
Record StrategyStatus : Type := {
  status_activePositions : Z;
  status_successRate : Q
}.

Definition isWin (o : Outcome) : bool :=
  match o with win => true | _ => false end.

Definition isPending (o : Outcome) : bool :=
  match o with pending => true | _ => false end.

Module BaseStrategy.

(** The fields of [BaseStrategy] that only the base class writes, and
    [derived]: the fields of the strategy class together with [signals],
    which the class fills through [createSignal]. *)
Record t (D : Type) : Type := {
  results : list SignalResult;
  activePositions : Z;
  derived : D
}.
Arguments results {D} _.
Arguments activePositions {D} _.
Arguments derived {D} _.

(** The field initialisers, which [reset] restores. *)
Definition fresh {D : Type} (d : D) : t D :=
  {| results := []; activePositions := 0; derived := d |}.

Definition calculateKellyFraction (signal : Signal) (scores : SignalScores)
  : number :=
  let winProb := sig_confidence scores in
  let lossProb := 1 - winProb in
  let entryPrice := orElse (sig_entryPrice signal) 0.5 in
  let targetPrice := orElse (sig_targetPrice scores) (entryPrice + 0.1) in
  let stopLoss := orElse (sig_stopLoss signal) (entryPrice - 0.1) in
  let potentialWin := Qabs (targetPrice - entryPrice) in
  let potentialLoss := Qabs (entryPrice - stopLoss) in
  if Qeq_bool potentialLoss 0 then Fin 0
  else
    let winLossRatio := potentialWin / potentialLoss in
    let kelly :=
      div (Fin (winLossRatio * winProb - lossProb)) (Fin winLossRatio) in
    max (Fin 0) kelly.

(** [maxPositionSize] is [this.parameters.maxPositionSize] and [minCapital]
    is [this.config.minCapital]. *)
Definition getPositionSize (maxPositionSize : option Q) (minCapital : Q)
    (signal : Signal) (scores : SignalScores) (capital : Q) : number :=
  let kellyFraction := calculateKellyFraction signal scores in
  let adjustedKelly := mul kellyFraction (Fin 0.25) in
  let confidenceMultiplier := sig_confidence scores in
  let strengthMultiplier := sig_strength scores / 5 in
  let size :=
    mul (mul (mul (Fin capital) adjustedKelly) (Fin confidenceMultiplier))
        (Fin strengthMultiplier) in
  let maxSize := capital * orElse maxPositionSize 0.1 in
  let minSize := minCapital * 0.01 in
  let size := Math_min size (Fin maxSize) in
  let size := max size (Fin minSize) in
  match size with
  | Fin q => Fin (inject_Z (Math_round (q * 100)) / 100)
  | other => other
  end.

(** The methods a strategy class supplies.  [validate] is [validateSignal]
    with the class's [onValidateSignal], and [positionSize] is
    [getPositionSize] at the signal's scores; both read signal fields that
    the engine's record leaves out.  None of the four writes [results] or
    [activePositions]: each returns the class's own fields only. *)
Record Class (D : Type) : Type := {
  generate : t D -> list MarketSnapshot -> list Signal * D;
  validate : t D -> Signal -> bool * D;
  positionSize : t D -> Signal -> Q -> Q;
  onSignalResult : t D -> Signal -> SignalResult -> D
}.
Arguments generate {D} _ _ _.
Arguments validate {D} _ _ _.
Arguments positionSize {D} _ _ _ _.
Arguments onSignalResult {D} _ _ _ _.

Definition withDerived {D : Type} (this : t D) (d : D) : t D :=
  {| results := results this;
     activePositions := activePositions this;
     derived := d |}.

Definition onSignalExecuted {D : Type} (class : Class D) (this : t D)
    (signal : Signal) (result : SignalResult) : t D :=
  let this :=
    {| results := results this ++ [result];
       activePositions :=
         if res_executed result then
           if isPending (res_outcome result) then (activePositions this + 1)%Z
           else Z.max 0 (activePositions this - 1)
         else activePositions this;
       derived := derived this |} in
  withDerived this (onSignalResult class this signal result).

Definition getStatus {D : Type} (this : t D) : StrategyStatus :=
  let winningResults :=
    filter (fun r => isWin (res_outcome r)) (results this) in
  let completedResults :=
    filter (fun r => negb (isPending (res_outcome r))) (results this) in
  {| status_activePositions := activePositions this;
     status_successRate :=
       if (0 <? length completedResults)%nat
       then len winningResults / len completedResults
       else 0 |}.

(** A strategy of the class, as the engine sees it. *)
Definition asStrategy {D : Type} (class : Class D) : IStrategy (t D) :=
  @Build_IStrategy (t D)
    (fun this markets =>
       let (signals, d) := generate class this markets in
       (signals, withDerived this d))
    (fun this signal =>
       let (isValid, d) := validate class this signal in
       (isValid, withDerived this d))
    (fun this signal capital =>
       (positionSize class this signal capital, this))
    (onSignalExecuted class).

End BaseStrategy.

(** The win rate of [trades], as [calculateSummary] computes it. *)
Definition winRateOf (trades : list BacktestTrade) : Q :=
  if (0 <? length trades)%nat then len (winners trades) / len trades else 0.


(** The results are the notifications received, and no position counts as
    active. *)
Definition countersInv {D : Type} (st : Sim (BaseStrategy.t D)) : Prop :=
  BaseStrategy.results (strat st) = map snd (notified st)
  /\ BaseStrategy.activePositions (strat st) = 0%Z.

(* ================================================================== *)
(** * Properties *)
(* ================================================================== *)

(** ** Comparisons *)

Lemma Qltb_lt (a b : Q) : Qltb a b = true <-> a < b.
Proof.
  unfold Qltb. rewrite negb_true_iff.
  destruct (Qle_bool b a) eqn:E.
  - apply Qle_bool_iff in E. split; [discriminate | intro; lra].
  - split; [intros _ | reflexivity].
    destruct (Qlt_le_dec a b) as [L | L]; [exact L |].
    apply Qle_bool_iff in L. congruence.
Qed.

Lemma Qltb_ge (a b : Q) : Qltb a b = false <-> b <= a.
Proof.
  unfold Qltb. rewrite negb_false_iff. apply Qle_bool_iff.
Qed.

(** The cap test of the signal loop, on whole numbers. *)
Lemma capReached_cap (config : BacktestConfig) (positions : Positions) :
  capReached config positions = (positionCap config <=? length positions)%nat.
Proof.
  unfold capReached, positionCap, len.
  set (c := positionLimit config). set (n := length positions).
  destruct (Nat.leb_spec (Z.to_nat (Qceiling c)) n) as [L | L].
  - apply Qle_bool_iff.
    apply Qle_trans with (inject_Z (Qceiling c)); [apply Qle_ceiling |].
    rewrite <- Zle_Qle. lia.
  - destruct (Qle_bool c (inject_Z (Z.of_nat n))) eqn:E; [| reflexivity].
    apply Qle_bool_iff in E. apply Qceiling_resp_le in E.
    rewrite Qceiling_Z in E. lia.
Qed.

Lemma Qmax_cases (x y : Q) : Qmax x y = x \/ Qmax x y = y.
Proof.
  unfold Qmax, GenericMinMax.gmax. destruct (x ?= y); auto.
Qed.

Lemma belowMinimum_Fin (q : Q) : belowMinimum (Fin q) = Qltb q 1.
Proof. reflexivity. Qed.

Lemma same_refl (x : number) : same x x.
Proof. destruct x; simpl; auto; reflexivity. Qed.

(** ** Loops *)

Lemma fold_left_inv {A B : Type} (f : A -> B -> A) (P : A -> Prop) (l : list B) :
  (forall s x, In x l -> P s -> P (f s x)) ->
  forall s, P s -> P (fold_left f l s).
Proof.
  induction l as [| x l IH]; intros Hf s Hs; simpl; [exact Hs |].
  apply IH.
  - intros s' y Hy. apply Hf. right; exact Hy.
  - apply Hf; [left; reflexivity | exact Hs].
Qed.

Section SimulateInvariants.
Context {S : Type}.
Variable strategy : IStrategy S.
Variable this : BacktestEngine.
Variable config : BacktestConfig.
Variable marketData : MarketData.
Variable clock : Z -> Z.

(** A property of the simulation state that every loop body and every
    strategy call keeps is kept by a whole frame, and by a run of frames. *)
Section FrameInvariant.
Variable Inv : Sim S -> Prop.
Hypothesis Inv_exit :
  forall snapshots date st entry,
  Inv st -> Inv (exitStep strategy this clock snapshots date st entry).
Hypothesis Inv_strat : forall st s, Inv st -> Inv (withStrat st s).
Hypothesis Inv_signal :
  forall snapshots date st signal,
    Inv st -> Inv (signalStep strategy this config snapshots date st signal).
Hypothesis Inv_record : forall date st, Inv st -> Inv (recordEquity date st).

Lemma frameStep_inv (st : Sim S) (timestamp : Z) :
  Inv st -> Inv (frameStep strategy this config marketData clock st timestamp).
Proof.
  intro Hst. unfold frameStep.
  destruct (length _ =? 0)%nat; [exact Hst |].
  destruct (generateSignals _ _ _) as [signals s] eqn:G.
  apply Inv_record. unfold processSignals.
  apply fold_left_inv; [intros; apply Inv_signal; assumption |].
  apply Inv_strat. unfold exitPositions.
  apply fold_left_inv; [intros; apply Inv_exit; assumption | exact Hst].
Qed.

Lemma runFrames_inv (timestamps : list Z) (st : Sim S) :
  Inv st -> Inv (runFrames strategy this config marketData clock timestamps st).
Proof.
  unfold runFrames. apply fold_left_inv.
  intros; apply frameStep_inv; assumption.
Qed.

Hypothesis Inv_final :
  forall st entry, Inv st -> Inv (finalStep this config marketData st entry).

Lemma simulate_inv (s0 : S) :
  Inv (initialSim config s0) ->
  Inv (simulate strategy this config marketData clock s0).
Proof.
  intro H0. unfold simulate, closeRemaining.
  apply fold_left_inv; [intros; apply Inv_final; assumption |].
  apply runFrames_inv; exact H0.
Qed.
End FrameInvariant.

End SimulateInvariants.

(* ================================================================== *)
(** ** Costs: fees and slippage *)
(* ================================================================== *)

Lemma applySlippage_buy (this : BacktestEngine) (price : Q) :
  0 < slippage this -> 0 < price -> price < applySlippage this price buy.
Proof. unfold applySlippage; simpl; intros; nra. Qed.

Lemma applySlippage_not_buy (this : BacktestEngine) (price : Q) (side : SignalType) :
  isBuy side = false ->
  0 < slippage this -> 0 < price -> applySlippage this price side < price.
Proof. unfold applySlippage; intros ->; intros; nra. Qed.

Lemma applySlippage_zero (this : BacktestEngine) (side : SignalType) :
  applySlippage this 0 side == 0.
Proof. unfold applySlippage; destruct (isBuy side); ring. Qed.

Section Costs.
Context {S : Type}.
Variable strategy : IStrategy S.
Variable this : BacktestEngine.
Variable config : BacktestConfig.
Variable marketData : MarketData.
Variable clock : Z -> Z.

Lemma closingTrade_fees marketId position market date :
  feesCharged this (closingTrade this marketId position market date).
Proof. unfold feesCharged; simpl; ring. Qed.

Lemma finalTrade_fees marketId position market :
  feesCharged this (finalTrade this config marketId position market).
Proof. unfold feesCharged; simpl; ring. Qed.

Lemma exitStep_trades snapshots date (st : Sim S) entry :
  trades (exitStep strategy this clock snapshots date st entry) = trades st
  \/ exists market,
       findMarket snapshots (fst entry) = Some market
       /\ exits snapshots (clock date) entry = true
       /\ trades (exitStep strategy this clock snapshots date st entry)
          = trades st ++ [closingTrade this (fst entry) (snd entry) market date].
Proof.
  destruct entry as [marketId position]. unfold exitStep, exits. simpl.
  destruct (findMarket snapshots marketId) as [market |]; [| left; reflexivity].
  destruct (shouldExitPosition _ _ _ _ || m_resolved market) eqn:E;
    [| left; reflexivity].
  right. exists market. simpl. tauto.
Qed.

Lemma signalStep_trades snapshots date (st : Sim S) signal :
  trades (signalStep strategy this config snapshots date st signal) = trades st.
Proof.
  unfold signalStep. rewrite capReached_cap.
  destruct (_ <=? _)%nat; [reflexivity |].
  destruct (Map_has _ _); [reflexivity |].
  destruct (validateSignal _ _ _) as [isValid s1].
  destruct isValid; simpl; [| reflexivity].
  destruct (findMarket _ _) as [market |]; [| reflexivity].
  destruct (m_resolved market); [reflexivity |].
  destruct (getPositionSize _ _ _ _) as [positionSize s2].
  destruct (Qltb positionSize 1); reflexivity.
Qed.

Lemma finalStep_trades (st : Sim S) entry :
  trades (finalStep this config marketData st entry) = trades st
  \/ exists market,
       trades (finalStep this config marketData st entry)
       = trades st ++ [finalTrade this config (fst entry) (snd entry) market].
Proof.
  destruct entry as [marketId position]. unfold finalStep.
  destruct (findMarket _ _) as [market |]; [right; exists market |];
    simpl; auto.
Qed.

(** A property shared by every trade the two closing paths build holds of
    every recorded trade. *)
Lemma simulate_trades_Forall (P : BacktestTrade -> Prop) (s0 : S) :
  (forall marketId position market date,
      P (closingTrade this marketId position market date)) ->
  (forall marketId position market,
      P (finalTrade this config marketId position market)) ->
  Forall P (trades (simulate strategy this config marketData clock s0)).
Proof.
  intros Hclose Hfinal.
  apply simulate_inv with (Inv := fun st => Forall P (trades st)).
  - intros snapshots date st entry Hst.
    destruct (exitStep_trades snapshots date st entry) as [-> | (m & _ & _ & ->)];
      [exact Hst |].
    apply Forall_app; split; [exact Hst | constructor; [apply Hclose | constructor]].
  - intros st s Hst; exact Hst.
  - intros snapshots date st signal Hst. rewrite signalStep_trades; exact Hst.
  - intros date st Hst; exact Hst.
  - intros st entry Hst.
    destruct (finalStep_trades st entry) as [-> | (m & ->)]; [exact Hst |].
    apply Forall_app; split; [exact Hst | constructor; [apply Hfinal | constructor]].
  - constructor.
Qed.

(** The position a signal opens, when [signalStep] lets it through. *)
Lemma signalStep_positions snapshots date (st : Sim S) signal :
  let st' := signalStep strategy this config snapshots date st signal in
  positions st' = positions st
  \/ exists market size,
       findMarket snapshots (sig_marketId signal) = Some market
       /\ (length (positions st) < positionCap config)%nat
       /\ Map_has (positions st) (sig_marketId signal) = false
       /\ positions st'
          = Map_set (positions st) (sig_marketId signal)
              {| pos_side := sig_type signal;
                 pos_entryPrice :=
                   applySlippage this
                     (orElse (sig_entryPrice signal) (m_price market))
                     (sig_type signal);
                 pos_entryTime := date;
                 pos_size := size;
                 pos_signal := signal |}.
Proof.
  unfold signalStep. rewrite capReached_cap.
  destruct (_ <=? _)%nat eqn:Cap; [left; reflexivity |].
  destruct (Map_has _ _) eqn:Has; [left; reflexivity |].
  destruct (validateSignal _ _ _) as [isValid s1].
  destruct isValid; simpl; [| left; reflexivity].
  destruct (findMarket _ _) as [market |]; [| left; reflexivity].
  destruct (m_resolved market); [left; reflexivity |].
  destruct (getPositionSize _ _ _ _) as [positionSize s2].
  destruct (Qltb positionSize 1); [left; reflexivity |].
  right. exists market, positionSize. simpl.
  apply Nat.leb_gt in Cap. auto.
Qed.

End Costs.

Lemma Map_set_In (positions : Positions) key value k p :
  In (k, p) (Map_set positions key value) ->
  (k, p) = (key, value) \/ In (k, p) positions.
Proof.
  induction positions as [| e rest IH]; simpl.
  - intros [E | []]; left; symmetry; exact E.
  - destruct (String.eqb (fst e) key).
    + intros [E | Hin]; [left; symmetry; exact E | right; right; exact Hin].
    + intros [E | Hin]; [right; left; exact E |].
      destruct (IH Hin) as [E | Hin']; [left; exact E | right; right; exact Hin'].
Qed.

(** C4, as amended.  Every recorded trade carries fees of twice the fee rate
    times its size.  With a positive slippage fraction, slippage strictly
    worsens the realised price wherever it is applied and the price it is
    applied to is positive: a position opened by a buy signal enters above
    its reference price (the signal's own entry price when it has a non-zero
    one, the observed market price otherwise) and any other position enters
    below it; a long position closed in a frame exits below the observed
    price and any other above it.  A position closed after the last frame
    exits at the observed price, with no slippage. *)
Theorem fees_and_slippage {S : Type} (strategy : IStrategy S)
    (this : BacktestEngine) (config : BacktestConfig) (marketData : MarketData)
    (clock : Z -> Z) (s0 : S) :
  0 < slippage this ->
  Forall (feesCharged this)
         (trades (simulate strategy this config marketData clock s0))
  /\ (forall snapshots date (st : Sim S) signal marketId position,
         In (marketId, position)
            (positions (signalStep strategy this config snapshots date st signal)) ->
         ~ In (marketId, position) (positions st) ->
         exists market,
           findMarket snapshots (sig_marketId signal) = Some market
           /\ pos_side position = sig_type signal
           /\ let reference := orElse (sig_entryPrice signal) (m_price market) in
              0 < reference ->
              if isBuy (pos_side position)
              then reference < pos_entryPrice position
              else pos_entryPrice position < reference)
  /\ (forall marketId position market date,
         0 < m_price market ->
         exists exitPrice,
           tr_exitPrice (closingTrade this marketId position market date)
           = Some exitPrice
           /\ if isBuy (pos_side position)
              then exitPrice < m_price market
              else m_price market < exitPrice)
  /\ (forall marketId position market,
         tr_exitPrice (finalTrade this config marketId position market)
         = Some (m_price market)
         /\ tr_slippage (finalTrade this config marketId position market) = 0).
Proof.
  intro Hslip. repeat split.
  - apply simulate_trades_Forall;
      [apply closingTrade_fees | apply finalTrade_fees].
  - intros snapshots date st signal marketId position Hin Hnew.
    destruct (signalStep_positions strategy this config snapshots date st signal)
      as [E | (market & size & Hfind & _ & _ & E)].
    + rewrite E in Hin. contradiction.
    + rewrite E in Hin. apply Map_set_In in Hin.
      destruct Hin as [E' | Hin]; [| contradiction].
      injection E' as _ ->. exists market. split; [exact Hfind |].
      split; [reflexivity |]. simpl. intro Href.
      destruct (isBuy (sig_type signal)) eqn:B.
      * destruct (sig_type signal); try discriminate.
        apply applySlippage_buy; assumption.
      * apply applySlippage_not_buy; assumption.
  - intros marketId position market date Hprice.
    eexists; split; [reflexivity |].
    destruct (isBuy (pos_side position)).
    + apply applySlippage_not_buy; [reflexivity | assumption | assumption].
    + apply applySlippage_buy; assumption.
Qed.

(** The theorem at scenario A with the default costs: the recorded trade
    carries the fees of the rule, and the long position, closed while the
    market is quoted 0.60, exits below that price. *)
Lemma fees_and_slippage_witness :
  let this := constructor {| opt_slippage := None; opt_fees := None |} in
  let position := {| pos_side := buy; pos_entryPrice := 0.402;
                     pos_entryTime := 1000; pos_size := 100;
                     pos_signal := signalFor "m" buy None None (Some 0.60) |} in
  let market := snapshotAt "m" 2000 0.60 false in
  0 < slippage this
  /\ 0 < m_price market
  /\ Forall (feesCharged this) (trades (scenarioA this))
  /\ exists exitPrice,
       tr_exitPrice (closingTrade this "m" position market 2000) = Some exitPrice
       /\ exitPrice < m_price market.
Proof.
  intros this position market.
  assert (Hs : 0 < slippage this) by reflexivity.
  assert (Hp : 0 < m_price market) by reflexivity.
  destruct (fees_and_slippage (scripted 100) this scenarioA_config scenarioA_data
                              (fun t => t) scenarioA_script Hs)
    as (Hfees & _ & Hexit & _).
  split; [exact Hs |]. split; [exact Hp |]. split; [exact Hfees |].
  exact (Hexit "m"%string position market 2000%Z Hp).
Defined.

(** C4 as stated fails in three places.  A long position leaving a market
    that settled at price 0 exits at exactly the observed price; a buy signal
    that names its own entry price enters below the observed market price;
    and a position closed after the last frame exits at the observed price. *)
Lemma slippage_not_always_worse :
  let this := constructor {| opt_slippage := None; opt_fees := None |} in
  let config := {| startDate := 0; endDate := 3000; initialCapital := 10000;
                   maxConcurrentPositions := None |} in
  let long := {| pos_side := buy; pos_entryPrice := 0.402; pos_entryTime := 1000;
                 pos_size := 100;
                 pos_signal := signalFor "m" buy None None None |} in
  let settled := snapshotAt "m" 2000 0 true in
  let quoted := snapshotAt "m" 1000 0.50 false in
  let named := signalFor "m" buy (Some 0.30) None None in
  0 < slippage this
  /\ (exists exitPrice,
        tr_exitPrice (closingTrade this "m" long settled 2000) = Some exitPrice
        /\ ~ exitPrice < m_price settled)
  /\ (exists position,
        positions (signalStep (scripted 100) this config [quoted] 1000
                              (emptySim 10000 []) named)
        = [("m"%string, position)]
        /\ ~ m_price quoted < pos_entryPrice position)
  /\ (exists exitPrice,
        tr_exitPrice (finalTrade this config "m" long quoted) = Some exitPrice
        /\ ~ exitPrice < m_price quoted).
Proof.
  cbv zeta. split; [reflexivity |]. repeat split.
  - eexists; split; [reflexivity |]. vm_compute. discriminate.
  - eexists; split; [reflexivity |]. vm_compute. discriminate.
  - eexists; split; [reflexivity |]. vm_compute. discriminate.
Qed.

(* ================================================================== *)
(** ** Notification of the strategy *)
(* ================================================================== *)

Lemma classify_win (pnl : Q) : classify (Fin pnl) = win <-> 0 < pnl.
Proof.
  unfold classify, gtb, ltb. destruct (Qltb 0 pnl) eqn:W.
  - apply Qltb_lt in W. tauto.
  - apply Qltb_ge in W. destruct (Qltb pnl 0); split; (discriminate || lra).
Qed.

Lemma classify_loss (pnl : Q) : classify (Fin pnl) = loss <-> pnl < 0.
Proof.
  unfold classify, gtb, ltb. destruct (Qltb 0 pnl) eqn:W.
  - apply Qltb_lt in W. split; [discriminate | lra].
  - destruct (Qltb pnl 0) eqn:L.
    + apply Qltb_lt in L. tauto.
    + apply Qltb_ge in L. split; [discriminate | lra].
Qed.

Lemma classify_breakeven (pnl : Q) : classify (Fin pnl) = breakeven <-> pnl == 0.
Proof.
  unfold classify, gtb, ltb. destruct (Qltb 0 pnl) eqn:W.
  - apply Qltb_lt in W. split; [discriminate | lra].
  - apply Qltb_ge in W. destruct (Qltb pnl 0) eqn:L.
    + apply Qltb_lt in L. split; [discriminate | lra].
    + apply Qltb_ge in L. split; [lra | reflexivity].
Qed.

Lemma Forall2_snoc {A B : Type} (R : A -> B -> Prop) l l' x y :
  Forall2 R l l' -> R x y -> Forall2 R (l ++ [x]) (l' ++ [y]).
Proof. intros H Hxy. apply Forall2_app; [exact H | constructor; [exact Hxy | constructor]]. Qed.

Section Notification.
Context {S : Type}.
Variable strategy : IStrategy S.
Variable this : BacktestEngine.
Variable config : BacktestConfig.
Variable marketData : MarketData.
Variable clock : Z -> Z.

(** The exit loop's body on a position that closes, and on one that stays. *)
Lemma exitStep_closes snapshots date (st : Sim S) marketId position market :
  findMarket snapshots marketId = Some market ->
  exits snapshots (clock date) (marketId, position) = true ->
  let trade := closingTrade this marketId position market date in
  let result := executionResult position trade date in
  exitStep strategy this clock snapshots date st (marketId, position)
  = {| trades := trades st ++ [trade];
       equityCurve := equityCurve st;
       positions := Map_delete (positions st) marketId;
       equity := equity st + tr_pnl trade;
       peakEquity := peakEquity st;
       strat := onSignalExecuted strategy (strat st) (pos_signal position) result;
       notified := notified st ++ [(pos_signal position, result)] |}.
Proof.
  unfold exits, exitStep. simpl. intros -> ->. reflexivity.
Qed.

Lemma exitStep_stays snapshots date (st : Sim S) entry :
  exits snapshots (clock date) entry = false ->
  exitStep strategy this clock snapshots date st entry = st.
Proof.
  destruct entry as [marketId position]. unfold exits, exitStep. simpl.
  destruct (findMarket snapshots marketId); [intros -> |]; reflexivity.
Qed.

Lemma signalStep_notified snapshots date (st : Sim S) signal :
  notified (signalStep strategy this config snapshots date st signal) = notified st.
Proof.
  unfold signalStep. rewrite capReached_cap.
  destruct (_ <=? _)%nat; [reflexivity |].
  destruct (Map_has _ _); [reflexivity |].
  destruct (validateSignal _ _ _) as [isValid s1].
  destruct isValid; simpl; [| reflexivity].
  destruct (findMarket _ _) as [market |]; [| reflexivity].
  destruct (m_resolved market); [reflexivity |].
  destruct (getPositionSize _ _ _ _) as [positionSize s2].
  destruct (Qltb positionSize 1); reflexivity.
Qed.

(** Through the frames, trades and notifications grow together. *)
Lemma runFrames_notified timestamps (s0 : S) :
  let st := runFrames strategy this config marketData clock timestamps
                      (initialSim config s0) in
  Forall2 reports (trades st) (notified st).
Proof.
  apply runFrames_inv with (Inv := fun st => Forall2 reports (trades st) (notified st)).
  - intros snapshots date st [marketId position] Hst.
    destruct (exits snapshots (clock date) (marketId, position)) eqn:E.
    + pose proof E as E'. unfold exits in E'. simpl in E'.
      destruct (findMarket snapshots marketId) as [market |] eqn:F; [| discriminate].
      erewrite exitStep_closes; [| exact F | exact E]. simpl.
      apply Forall2_snoc; [exact Hst |]. repeat split.
    + rewrite exitStep_stays; assumption.
  - intros st s Hst; exact Hst.
  - intros snapshots date st signal Hst.
    rewrite signalStep_trades, signalStep_notified. exact Hst.
  - intros date st Hst; exact Hst.
  - constructor.
Qed.

End Notification.

Lemma classify_spec (pnl : number) :
  (classify pnl = win <-> gtb pnl (Fin 0) = true)
  /\ (classify pnl = loss <-> ltb pnl (Fin 0) = true)
  /\ (classify pnl = breakeven
      <-> gtb pnl (Fin 0) = false /\ ltb pnl (Fin 0) = false).
Proof.
  unfold classify.
  destruct pnl as [q | | |]; cbn [gtb ltb].
  - destruct (Qltb 0 q) eqn:W; destruct (Qltb q 0) eqn:L;
      try (apply Qltb_lt in W; apply Qltb_lt in L; lra);
      repeat split; intros; try discriminate; try reflexivity;
      try tauto; destruct H; discriminate.
  - repeat split; intros; try discriminate; try reflexivity; destruct H; discriminate.
  - repeat split; intros; try discriminate; try reflexivity; destruct H; discriminate.
  - repeat split; intros; try discriminate; try reflexivity; destruct H; discriminate.
Qed.

(** C10, as amended.  A position closed by a frame's exit evaluation is
    reported to the strategy in the same loop iteration: [onSignalExecuted]
    receives the position's signal and a result carrying the trade's pnl.
    The outcome is win exactly when pnl > 0, loss exactly when pnl < 0, and
    breakeven in every other case; no equality is tested.  For a pnl that is
    a finite number the other case is pnl = 0; a pnl that is [NaN] is
    reported breakeven as well.  Over a run of frames there is one such
    report per recorded trade, in the same order. *)
Theorem closed_position_notifies {S : Type} (strategy : IStrategy S)
    (this : BacktestEngine) (config : BacktestConfig) (marketData : MarketData)
    (clock : Z -> Z) snapshots date (st : Sim S) marketId position market :
  findMarket snapshots marketId = Some market ->
  exits snapshots (clock date) (marketId, position) = true ->
  let trade := closingTrade this marketId position market date in
  let result := executionResult position trade date in
  let st' := exitStep strategy this clock snapshots date st (marketId, position) in
  trades st' = trades st ++ [trade]
  /\ strat st' = onSignalExecuted strategy (strat st) (pos_signal position) result
  /\ notified st' = notified st ++ [(pos_signal position, result)]
  /\ res_pnl result = Some (tr_pnl trade)
  /\ res_outcome result = classify (Fin (tr_pnl trade))
  /\ (res_outcome result = win <-> 0 < tr_pnl trade)
  /\ (res_outcome result = loss <-> tr_pnl trade < 0)
  /\ (res_outcome result = breakeven
      <-> ~ 0 < tr_pnl trade /\ ~ tr_pnl trade < 0)
  /\ (forall pnl : number,
        (classify pnl = win <-> gtb pnl (Fin 0) = true)
        /\ (classify pnl = loss <-> ltb pnl (Fin 0) = true)
        /\ (classify pnl = breakeven
            <-> gtb pnl (Fin 0) = false /\ ltb pnl (Fin 0) = false))
  /\ (forall pnl : Q, classify (Fin pnl) = breakeven <-> pnl == 0)
  /\ classify NaN = breakeven
  /\ forall timestamps s0,
       let final := runFrames strategy this config marketData clock timestamps
                              (initialSim config s0) in
       Forall2 reports (trades final) (notified final).
Proof.
  intros Hfind Hexit trade result st'.
  unfold st'. erewrite exitStep_closes; [| exact Hfind | exact Hexit].
  cbn [trades strat notified]. fold trade. fold result.
  split; [reflexivity |]. split; [reflexivity |]. split; [reflexivity |].
  split; [reflexivity |]. split; [reflexivity |].
  change (res_outcome result) with (classify (Fin (tr_pnl trade))).
  split; [apply classify_win |]. split; [apply classify_loss |].
  split.
  { rewrite classify_breakeven. split; [intro E; split; lra |].
    intros [A B]. lra. }
  split; [apply classify_spec |].
  split; [apply classify_breakeven |].
  split; [reflexivity |].
  intros timestamps s0. apply runFrames_notified.
Qed.

(** The theorem at a long position whose take-profit level is reached. *)
Lemma closed_position_notifies_witness :
  let this := constructor {| opt_slippage := None; opt_fees := None |} in
  let config := {| startDate := 0; endDate := 3000; initialCapital := 10000;
                   maxConcurrentPositions := None |} in
  let signal := signalFor "m" buy None None (Some 0.60) in
  let position := {| pos_side := buy; pos_entryPrice := 0.402;
                     pos_entryTime := 1000; pos_size := 100;
                     pos_signal := signal |} in
  let market := snapshotAt "m" 2000 0.60 false in
  let st := withPositions (emptySim 10000 []) [("m"%string, position)] in
  let st' := exitStep (scripted 100) this (fun t => t) [market] 2000 st
                      ("m"%string, position) in
  exists result,
    notified st' = [(signal, result)] /\ res_outcome result = win.
Proof.
  intros this config signal position market st st'.
  destruct (closed_position_notifies (scripted 100) this config [] (fun t => t)
              [market] 2000 st "m" position eq_refl eq_refl)
    as (_ & _ & Hn & _ & _ & Hwin & _).
  eexists. split; [exact Hn |]. apply Hwin. reflexivity.
Defined.

(** C10 as stated fails for a pnl that is no number.  The position size of
    [BaseStrategy] for a signal of confidence 1 whose target is its entry
    price is [NaN]; the test [positionSize < 1] does not reject it; the trade
    that closes a position of that size has pnl [NaN]; that pnl is reported
    as breakeven, and it does not equal 0. *)
Lemma nan_pnl_is_breakeven :
  let this := constructor {| opt_slippage := None; opt_fees := None |} in
  let signal := signalFor "m" buy (Some 0.40) (Some 0.30) None in
  let scores :=
    {| sig_strength := 5; sig_confidence := 1; sig_targetPrice := Some 0.40 |} in
  let size := BaseStrategy.getPositionSize None 100 signal scores 10000 in
  let pnl := pnlAtSize this buy 0.402 0.597 size in
  size = NaN
  /\ belowMinimum size = false
  /\ pnl = NaN
  /\ classify pnl = breakeven
  /\ strictEq pnl (Fin 0) = false
  /\ forall finite : Q,
       Fin (calculatePnL 0.402 0.597 finite buy - fees this * finite * 2)
       = pnlAtSize this buy 0.402 0.597 (Fin finite).
Proof.
  cbv zeta. split; [reflexivity |]. split; [reflexivity |].
  split; [reflexivity |]. split; [reflexivity |]. split; [reflexivity |].
  intro finite. reflexivity.
Qed.

(* ================================================================== *)
(** ** Exit evaluation *)
(* ================================================================== *)

Lemma whenSet_Some (x : option Q) (level : Q) :
  whenSet x = Some level <-> x = Some level /\ ~ level == 0.
Proof.
  unfold whenSet. destruct x as [q |].
  - destruct (Qeq_bool q 0) eqn:E.
    + apply Qeq_bool_iff in E. split; [discriminate |].
      intros [[= ->] Hne]. contradiction.
    + split.
      * intros [= ->]. split; [reflexivity |].
        intro Hz. apply Qeq_bool_iff in Hz. congruence.
      * intros [[= ->] _]. reflexivity.
  - split; [discriminate | intros [[=] _]].
Qed.

Lemma isBuy_true (side : SignalType) : isBuy side = true <-> side = buy.
Proof. destruct side; simpl; split; congruence. Qed.

Lemma isSell_true (side : SignalType) : isSell side = true <-> side = sell.
Proof. destruct side; simpl; split; congruence. Qed.

Lemma stopHit_iff (position : Position) (price : Q) :
  match whenSet (sig_stopLoss (pos_signal position)) with
  | Some stopLoss =>
      isBuy (pos_side position) && Qle_bool price stopLoss
      || isSell (pos_side position) && Qle_bool stopLoss price
  | None => false
  end = true <-> stopLossBreached position price.
Proof.
  unfold stopLossBreached.
  destruct (whenSet _) as [level |] eqn:W.
  - apply whenSet_Some in W. destruct W as [W Hne].
    rewrite orb_true_iff, !andb_true_iff, isBuy_true, isSell_true, !Qle_bool_iff.
    split.
    + intro Hside. exists level. auto.
    + intros (level' & W' & _ & Hside). rewrite W in W'. injection W' as <-.
      exact Hside.
  - split; [discriminate |].
    intros (level & W' & Hne & _).
    assert (whenSet (sig_stopLoss (pos_signal position)) = Some level)
      by (apply whenSet_Some; auto).
    congruence.
Qed.

Lemma targetHit_iff (position : Position) (price : Q) :
  match whenSet (sig_takeProfit (pos_signal position)) with
  | Some takeProfit =>
      isBuy (pos_side position) && Qle_bool takeProfit price
      || isSell (pos_side position) && Qle_bool price takeProfit
  | None => false
  end = true <-> takeProfitReached position price.
Proof.
  unfold takeProfitReached.
  destruct (whenSet _) as [level |] eqn:W.
  - apply whenSet_Some in W. destruct W as [W Hne].
    rewrite orb_true_iff, !andb_true_iff, isBuy_true, isSell_true, !Qle_bool_iff.
    split.
    + intro Hside. exists level. auto.
    + intros (level' & W' & _ & Hside). rewrite W in W'. injection W' as <-.
      exact Hside.
  - split; [discriminate |].
    intros (level & W' & Hne & _).
    assert (whenSet (sig_takeProfit (pos_signal position)) = Some level)
      by (apply whenSet_Some; auto).
    congruence.
Qed.

Lemma expired_iff (position : Position) (now : Z) :
  match sig_expiresAt (pos_signal position) with
  | Some expiresAt => (expiresAt <? now)%Z
  | None => false
  end = true <-> expiredAt position now.
Proof.
  unfold expiredAt. destruct (sig_expiresAt _) as [e |].
  - rewrite Z.ltb_lt. split.
    + intro; exists e; auto.
    + intros (e' & [= <-] & He). exact He.
  - split; [discriminate | intros (e & [=] & _)].
Qed.

(** [shouldExitPosition] tests the stop, then the target, then the
    expiration, and answers at the first that holds. *)
Lemma shouldExitPosition_iff (position : Position) (price : Q)
    (market : MarketSnapshot) (now : Z) :
  shouldExitPosition position price market now = true
  <-> stopLossBreached position price
      \/ takeProfitReached position price
      \/ expiredAt position now.
Proof.
  unfold shouldExitPosition. cbv zeta.
  rewrite <- stopHit_iff, <- targetHit_iff, <- expired_iff.
  destruct (match whenSet (sig_stopLoss _) with Some _ => _ | None => _ end);
    [tauto |].
  destruct (match whenSet (sig_takeProfit _) with Some _ => _ | None => _ end);
    [tauto |].
  split; [tauto | intros [F | [F | E]]; try discriminate; exact E].
Qed.

Lemma exits_iff (snapshots : list MarketSnapshot) (now : Z)
    (entry : string * Position) (market : MarketSnapshot) :
  findMarket snapshots (fst entry) = Some market ->
  exits snapshots now entry = true <-> exitCondition (snd entry) market now.
Proof.
  intro F. unfold exits, exitCondition. rewrite F, orb_true_iff.
  rewrite shouldExitPosition_iff. tauto.
Qed.

Lemma filter_filter {A : Type} (f g : A -> bool) (l : list A) :
  filter f (filter g l) = filter (fun x => g x && f x) l.
Proof.
  induction l as [| x l IH]; simpl; [reflexivity |].
  destruct (g x); simpl; [destruct (f x) |]; rewrite IH; reflexivity.
Qed.

Lemma onePerMarket_unique (positions : Positions) k p p' :
  onePerMarket positions -> In (k, p) positions -> In (k, p') positions -> p = p'.
Proof.
  unfold onePerMarket. induction positions as [| [k0 p0] rest IH]; simpl;
    [intros _ [] |].
  intros Hnd H1 H2. inversion Hnd as [| ? ? Hnotin Hnd']; subst.
  destruct H1 as [E1 | H1], H2 as [E2 | H2].
  - congruence.
  - exfalso. apply Hnotin. apply (in_map fst) in H2. simpl in *. congruence.
  - exfalso. apply Hnotin. apply (in_map fst) in H1. simpl in *. congruence.
  - apply IH; assumption.
Qed.

Section ExitLoop.
Context {S : Type}.
Variable strategy : IStrategy S.
Variable this : BacktestEngine.
Variable clock : Z -> Z.
Variable snapshots : list MarketSnapshot.
Variable date : Z.

Lemma exitLoop_positions (l : Positions) (st : Sim S) :
  positions (fold_left (exitStep strategy this clock snapshots date) l st)
  = filter (fun e => negb (existsb (String.eqb (fst e)) (closedKeys snapshots (clock date) l)))
           (positions st).
Proof.
  revert st. induction l as [| e l IH]; intro st; simpl.
  - unfold closedKeys. simpl. induction (positions st) as [| x ps IHps];
      simpl; congruence.
  - rewrite IH. unfold closedKeys. simpl.
    destruct (exits snapshots (clock date) e) eqn:E.
    + destruct e as [marketId position].
      pose proof E as E'. unfold exits in E'. simpl in E'.
      destruct (findMarket snapshots marketId) as [market |] eqn:F;
        [| discriminate].
      erewrite exitStep_closes; [| exact F | exact E]. simpl.
      unfold Map_delete. rewrite filter_filter. apply filter_ext.
      intros [k p]. simpl. rewrite negb_orb. reflexivity.
    + rewrite exitStep_stays by exact E. reflexivity.
Qed.

(** With one position per market, the exit loop removes exactly the
    positions for which [exits] holds. *)
Lemma exitPositions_positions (st : Sim S) :
  onePerMarket (positions st) ->
  positions (exitPositions strategy this clock snapshots date st)
  = filter (fun e => negb (exits snapshots (clock date) e)) (positions st).
Proof.
  intro Hone. unfold exitPositions. rewrite exitLoop_positions.
  apply filter_ext_in. intros [k p] Hin. f_equal.
  destruct (exits snapshots (clock date) (k, p)) eqn:E.
  - apply existsb_exists. exists k. split; [| apply String.eqb_refl].
    unfold closedKeys. apply in_map_iff. exists (k, p). split; [reflexivity |].
    apply filter_In. auto.
  - destruct (existsb _ _) eqn:X; [| reflexivity].
    apply existsb_exists in X. destruct X as (k' & Hk' & Heq).
    simpl in Heq. apply String.eqb_eq in Heq. subst k'.
    unfold closedKeys in Hk'. apply in_map_iff in Hk'.
    destruct Hk' as ([k' p'] & Hfst & Hfilter). simpl in Hfst. subst k'.
    apply filter_In in Hfilter. destruct Hfilter as [Hin' E'].
    assert (p = p') by (eapply onePerMarket_unique; eassumption).
    subst p'. congruence.
Qed.

End ExitLoop.

(** C3, as amended.  In a frame's exit evaluation, with one position per
    market, an open position whose market has a snapshot in the frame is
    closed exactly when a stop-loss breach, a take-profit breach, an elapsed
    expiration or the resolution of its market holds, where the expiration
    is judged against the wall clock at the time of the check and not
    against the frame's timestamp; a position whose market has no snapshot
    in the frame stays open. *)
Theorem exit_evaluation {S : Type} (strategy : IStrategy S)
    (this : BacktestEngine) (clock : Z -> Z)
    (snapshots : list MarketSnapshot) (date : Z) (st : Sim S)
    (marketId : string) (position : Position) :
  onePerMarket (positions st) ->
  In (marketId, position) (positions st) ->
  let st' := exitPositions strategy this clock snapshots date st in
  (forall market,
      findMarket snapshots marketId = Some market ->
      (~ In (marketId, position) (positions st')
       <-> exitCondition position market (clock date)))
  /\ (findMarket snapshots marketId = None ->
      In (marketId, position) (positions st')).
Proof.
  intros Hone Hin st'. unfold st'.
  rewrite exitPositions_positions by exact Hone. split.
  - intros market F.
    rewrite <- (exits_iff snapshots (clock date) (marketId, position) F).
    rewrite filter_In. destruct (exits _ _ _); simpl; split; intro H.
    + reflexivity.
    + intros [_ H']. discriminate.
    + exfalso. apply H. auto.
    + discriminate.
  - intro F. apply filter_In. split; [exact Hin |].
    unfold exits. simpl. rewrite F. reflexivity.
Qed.

(** The theorem at a long position whose stop is breached in the frame. *)
Lemma exit_evaluation_witness :
  let this := constructor {| opt_slippage := None; opt_fees := None |} in
  let position := {| pos_side := buy; pos_entryPrice := 0.402;
                     pos_entryTime := 1000; pos_size := 100;
                     pos_signal := signalFor "m" buy None (Some 0.30) None |} in
  let market := snapshotAt "m" 2000 0.25 false in
  let st := withPositions (emptySim 10000 []) [("m"%string, position)] in
  onePerMarket (positions st)
  /\ (~ In ("m"%string, position)
          (positions (exitPositions (scripted 100) this (fun t => t)
                                    [market] 2000 st))
      <-> exitCondition position market 2000).
Proof.
  intros this position market st.
  assert (Hone : onePerMarket (positions st))
    by (repeat constructor; simpl; tauto).
  split; [exact Hone |].
  exact (proj1 (exit_evaluation (scripted 100) this (fun t => t) [market] 2000
                                st "m" position Hone (or_introl eq_refl))
               market eq_refl).
Defined.

(** C3 as stated fails: the expiration is not judged at the frame's
    timestamp.  A position whose signal expires at time 5000 is closed in the
    frame of timestamp 2000 when the wall clock reads 9000, although no stop
    or target is set, the market is unresolved and, as of the frame's
    timestamp, the expiration has not elapsed. *)
Lemma expiration_ignores_frame_time :
  let this := constructor {| opt_slippage := None; opt_fees := None |} in
  let signal := {| sig_id := "s"; sig_marketId := "m"; sig_type := buy;
                   sig_entryPrice := None; sig_stopLoss := None;
                   sig_takeProfit := None; sig_expiresAt := Some 5000%Z |} in
  let position := {| pos_side := buy; pos_entryPrice := 0.402;
                     pos_entryTime := 1000; pos_size := 100;
                     pos_signal := signal |} in
  let market := snapshotAt "m" 2000 0.50 false in
  let st := withPositions (emptySim 10000 []) [("m"%string, position)] in
  positions (exitPositions (scripted 100) this (fun _ => 9000%Z) [market] 2000 st)
  = []
  /\ ~ exitCondition position market 2000.
Proof.
  cbv zeta. split; [reflexivity |].
  intros [(level & E & _) | [(level & E & _) | [(e & E & He) | E]]];
    simpl in *; try discriminate.
  injection E as <-. lia.
Qed.

(* ================================================================== *)
(** ** The Sortino ratio *)
(* ================================================================== *)

Lemma length_zero_nil {A : Type} (l : list A) :
  (length l =? 0)%nat = true <-> l = [].
Proof.
  destruct l; simpl; split; congruence.
Qed.

(** The code's filter selects the returns below the threshold, each of them
    and no other. *)
Lemma negativeReturns_selects (returns : list number) (riskFreeRate : number) :
  belowThreshold riskFreeRate returns (negativeReturns returns riskFreeRate).
Proof.
  unfold negativeReturns. induction returns as [| r returns IH]; simpl.
  - constructor.
  - destruct (ltb r riskFreeRate) eqn:E; constructor; assumption.
Qed.

Lemma belowThreshold_unique (riskFreeRate : number)
    (returns below below' : list number) :
  belowThreshold riskFreeRate returns below ->
  belowThreshold riskFreeRate returns below' ->
  below = below'.
Proof.
  intro H. revert below'.
  induction H as [| r returns below Hr _ IH | r returns below Hr _ IH];
    intros below' H'; inversion H'; subst; try congruence;
    try (f_equal; apply IH; assumption); apply IH; assumption.
Qed.

Lemma belowThreshold_In (riskFreeRate : number) (returns below : list number) :
  belowThreshold riskFreeRate returns below ->
  forall r, In r below <-> In r returns /\ ltb r riskFreeRate = true.
Proof.
  induction 1 as [| x returns below Hx _ IH | x returns below Hx _ IH];
    intro r; simpl.
  - tauto.
  - rewrite IH. split.
    + intros [<- | [Hin Hr]]; auto.
    + intros [[<- | Hin] Hr]; auto.
  - rewrite IH. split.
    + intros [Hin Hr]; auto.
    + intros [[<- | Hin] Hr]; [congruence | auto].
Qed.

(** C8, as amended.  Let [below] be the returns strictly below the
    threshold.  The denominator of the Sortino ratio is their root mean
    square distance to the threshold, and the numerator is the mean of all
    returns less the threshold; no other return enters the denominator, so
    two non-empty series with the same mean and the same returns below the
    threshold have the same ratio.  With a non-empty series and no return
    below the threshold the result is the number [Infinity] itself, not a
    tagged value; with an empty series it is 0.  No case raises an error. *)
Theorem sortino_downside `{MathEnv} (returns below : list number)
    (riskFreeRate : number) :
  belowThreshold riskFreeRate returns below ->
  (forall r, In r below <-> In r returns /\ ltb r riskFreeRate = true)
  /\ (returns = [] -> sortinoRatio returns riskFreeRate = Fin 0)
  /\ (returns <> [] -> below = [] ->
      sortinoRatio returns riskFreeRate = PosInf)
  /\ (below <> [] ->
      let mean := div (sum returns) (Fin (len returns)) in
      let downDev := downsideDeviation below riskFreeRate in
      sortinoRatio returns riskFreeRate
      = if strictEq downDev (Fin 0) then Fin 0
        else div (sub mean riskFreeRate) downDev)
  /\ (forall returns',
        returns <> [] -> returns' <> [] ->
        div (sum returns') (Fin (len returns'))
        = div (sum returns) (Fin (len returns)) ->
        belowThreshold riskFreeRate returns' below ->
        sortinoRatio returns' riskFreeRate = sortinoRatio returns riskFreeRate).
Proof.
  intro Hbelow.
  assert (Hne : forall l : list number, l <> [] -> (length l =? 0)%nat = false).
  { intros l Hl. destruct (length l =? 0)%nat eqn:E; [| reflexivity].
    apply length_zero_nil in E. contradiction. }
  assert (Hcode : forall l, belowThreshold riskFreeRate l below ->
                            negativeReturns l riskFreeRate = below).
  { intros l Hl.
    apply (belowThreshold_unique (negativeReturns_selects l riskFreeRate) Hl). }
  split; [apply belowThreshold_In; exact Hbelow |].
  split; [intros ->; reflexivity |].
  split; [| split].
  - intros Hr ->. unfold sortinoRatio. rewrite (Hne _ Hr), (Hcode _ Hbelow).
    reflexivity.
  - intros Hsome mean downDev.
    assert (Hr : returns <> []).
    { intros ->. inversion Hbelow. congruence. }
    unfold sortinoRatio. rewrite (Hne _ Hr), (Hcode _ Hbelow), (Hne _ Hsome).
    reflexivity.
  - intros returns' Hr Hr' Hmean Hbelow'. unfold sortinoRatio.
    rewrite (Hne _ Hr), (Hne _ Hr'), Hmean, (Hcode _ Hbelow), (Hcode _ Hbelow').
    reflexivity.
Qed.

(** The theorem at the series 0.02, -0.01, -0.03 and threshold 0: the two
    negative returns, and only they, make up the denominator. *)
Lemma sortino_downside_witness :
  let returns := [Fin 0.02; Fin (-0.01); Fin (-0.03)] in
  let below := [Fin (-0.01); Fin (-0.03)] in
  belowThreshold (Fin 0) returns below
  /\ @sortinoRatio sampleMath returns (Fin 0)
     = div (sub (div (sum returns) (Fin (len returns))) (Fin 0))
           (@downsideDeviation sampleMath below (Fin 0)).
Proof.
  intros returns below.
  assert (Hbelow : belowThreshold (Fin 0) returns below).
  { apply below_skip; [reflexivity |].
    apply below_take; [reflexivity |].
    apply below_take; [reflexivity |]. apply below_none. }
  split; [exact Hbelow |].
  destruct (@sortino_downside sampleMath returns below (Fin 0) Hbelow)
    as (_ & _ & _ & Hvalue & _).
  exact (Hvalue ltac:(discriminate)).
Defined.

(** C8 as stated fails: with no return below the threshold the result is
    either the raw number [Infinity] (non-empty series) or plain 0 (empty
    series), in neither case a tagged sentinel; one return below the
    threshold is enough for a finite result. *)
Lemma sortino_is_raw_infinity :
  belowThreshold (Fin 0) [Fin 0.10; Fin 0.05] []
  /\ @sortinoRatio sampleMath [Fin 0.10; Fin 0.05] (Fin 0) = PosInf
  /\ belowThreshold (Fin 0) [] []
  /\ @sortinoRatio sampleMath [] (Fin 0) = Fin 0
  /\ belowThreshold (Fin 0) [Fin 0.10; Fin (-0.05)] [Fin (-0.05)]
  /\ isFinite (@sortinoRatio sampleMath [Fin 0.10; Fin (-0.05)] (Fin 0)) = true.
Proof.
  split; [repeat constructor |]. split; [reflexivity |].
  split; [constructor |]. split; [reflexivity |].
  split; [| vm_compute; reflexivity].
  apply below_skip; [reflexivity |].
  apply below_take; [reflexivity | apply below_none].
Qed.

(* ================================================================== *)
(** ** Scenario A and the engine's cost options *)
(* ================================================================== *)

Lemma orElse_nonzero (x : option Q) (d : Q) : ~ d == 0 -> ~ orElse x d == 0.
Proof.
  intro Hd. unfold orElse. destruct x as [q |]; [| exact Hd].
  destruct (Qeq_bool q 0) eqn:E; [exact Hd |].
  intro Hq. apply Qeq_bool_iff in Hq. congruence.
Qed.

(** No choice of options gives an engine without slippage or without fees:
    a requested 0 is replaced by the default. *)
Lemma constructor_costs_nonzero (options : Options) :
  ~ slippage (constructor options) == 0 /\ ~ fees (constructor options) == 0.
Proof.
  split; apply orElse_nonzero; intro H; discriminate H.
Qed.

(** With costs that are really zero the formulas give the figures of
    scenario A. *)
Lemma scenarioA_frictionless :
  let result := scenarioA {| slippage := 0; fees := 0 |} in
  let summary := @calculateSummary sampleMath (trades result)
                   (equityCurve result) scenarioA_config in
  (exists t, trades result = [t] /\ tr_pnl t == 20)
  /\ same (totalReturn summary) (Fin 0.002)
  /\ same (winRate summary) (Fin 1).
Proof.
  cbv zeta. split; [eexists; split; [vm_compute; reflexivity | reflexivity] |].
  vm_compute. split; reflexivity.
Qed.

(** C1 on the code.  An engine constructed with slippage = 0 and fees = 0
    runs with slippage 0.005 and fees 0.02; in scenario A the recorded trade
    has pnl 15.5 and the summary reports totalReturn 0.00155 and winRate 1. *)
Theorem scenarioA_zero_costs_replaced :
  let this := constructor {| opt_slippage := Some 0; opt_fees := Some 0 |} in
  let result := scenarioA this in
  let summary := @calculateSummary sampleMath (trades result)
                   (equityCurve result) scenarioA_config in
  slippage this = 0.005
  /\ fees this = 0.02
  /\ (exists t, trades result = [t] /\ tr_pnl t == 15.5 /\ ~ tr_pnl t == 20)
  /\ same (totalReturn summary) (Fin 0.00155)
  /\ same (winRate summary) (Fin 1).
Proof.
  cbv zeta. split; [reflexivity |]. split; [reflexivity |].
  split.
  - eexists. split; [vm_compute; reflexivity |].
    split; [reflexivity | intro H; discriminate H].
  - vm_compute. split; reflexivity.
Qed.

(* ================================================================== *)
(** ** Running equity *)
(* ================================================================== *)

Lemma sumPnl_snoc (ts : list BacktestTrade) (t : BacktestTrade) :
  sumPnl (ts ++ [t]) = sumPnl ts + tr_pnl t.
Proof. unfold sumPnl. rewrite fold_left_app. reflexivity. Qed.

Section Equity.
Context {S : Type}.
Variable strategy : IStrategy S.
Variable this : BacktestEngine.
Variable config : BacktestConfig.
Variable marketData : MarketData.
Variable clock : Z -> Z.

Lemma signalStep_equity snapshots date (st : Sim S) signal :
  equity (signalStep strategy this config snapshots date st signal) = equity st.
Proof.
  unfold signalStep. rewrite capReached_cap.
  destruct (_ <=? _)%nat; [reflexivity |].
  destruct (Map_has _ _); [reflexivity |].
  destruct (validateSignal _ _ _) as [isValid s1].
  destruct isValid; simpl; [| reflexivity].
  destruct (findMarket _ _) as [market |]; [| reflexivity].
  destruct (m_resolved market); [reflexivity |].
  destruct (getPositionSize _ _ _ _) as [positionSize s2].
  destruct (Qltb positionSize 1); reflexivity.
Qed.

(** Through the frames, equity is the initial capital plus the pnl of the
    trades recorded so far. *)
Lemma runFrames_equity timestamps (s0 : S) :
  let st := runFrames strategy this config marketData clock timestamps
                      (initialSim config s0) in
  equity st == initialCapital config + sumPnl (trades st).
Proof.
  apply runFrames_inv
    with (Inv := fun st => equity st == initialCapital config + sumPnl (trades st)).
  - intros snapshots date st [marketId position] Hst.
    destruct (exits snapshots (clock date) (marketId, position)) eqn:E.
    + pose proof E as E'. unfold exits in E'. simpl in E'.
      destruct (findMarket snapshots marketId) as [market |] eqn:F; [| discriminate].
      erewrite exitStep_closes; [| exact F | exact E]. cbn [equity trades].
      rewrite sumPnl_snoc, Hst. ring.
    + rewrite exitStep_stays; assumption.
  - intros st s Hst; exact Hst.
  - intros snapshots date st signal Hst.
    rewrite signalStep_trades, signalStep_equity. exact Hst.
  - intros date st Hst; exact Hst.
  - change (initialCapital config == initialCapital config + 0). ring.
Qed.

(** The closing loop appends trades and touches nothing else. *)
Lemma closingLoop_spec (l : Positions) (st : Sim S) :
  let st' := fold_left (finalStep this config marketData) l st in
  equity st' = equity st
  /\ equityCurve st' = equityCurve st
  /\ positions st' = positions st
  /\ notified st' = notified st
  /\ exists forced,
       trades st' = trades st ++ forced
       /\ Forall (forcedFrom this config l) forced.
Proof.
  revert st. induction l as [| [marketId position] l IH]; intro st; simpl.
  - repeat split. exists []. rewrite app_nil_r. auto.
  - destruct (IH (finalStep this config marketData st (marketId, position)))
      as (He & Hc & Hp & Hn & forced & Ht & Hf).
    assert (Hweak : Forall (forcedFrom this config ((marketId, position) :: l)) forced).
    { eapply Forall_impl; [| exact Hf].
      intros t (k & p & m & Hin & ->). exists k, p, m. split; [right |]; auto. }
    unfold finalStep in *.
    destruct (findMarket _ marketId) as [market |]; simpl in *.
    + repeat split; try assumption.
      exists (finalTrade this config marketId position market :: forced).
      split; [rewrite Ht, <- app_assoc; reflexivity |].
      constructor; [| exact Hweak].
      exists marketId, position, market. split; [left |]; reflexivity.
    + repeat split; try assumption. exists forced. auto.
Qed.

End Equity.

(** C9, as amended.  Running equity starts at the initial capital and grows
    by a trade's pnl in the very step of the exit loop that records the
    trade, so after any number of frames it equals the initial capital plus
    the pnl of the trades recorded so far.  The closing loop after the last
    frame records a trade for positions still open but leaves equity as it
    was: at the end of the simulation equity is the initial capital plus the
    pnl of the trades closed during frames. *)
Theorem equity_follows_frame_trades {S : Type} (strategy : IStrategy S)
    (this : BacktestEngine) (config : BacktestConfig) (marketData : MarketData)
    (clock : Z -> Z) (s0 : S) :
  equity (initialSim config s0) = initialCapital config
  /\ (forall snapshots date (st : Sim S) marketId position market,
        findMarket snapshots marketId = Some market ->
        exits snapshots (clock date) (marketId, position) = true ->
        let st' := exitStep strategy this clock snapshots date st
                            (marketId, position) in
        exists trade,
          trades st' = trades st ++ [trade]
          /\ equity st' = equity st + tr_pnl trade)
  /\ (forall timestamps,
        let st := runFrames strategy this config marketData clock timestamps
                            (initialSim config s0) in
        equity st == initialCapital config + sumPnl (trades st))
  /\ (let frames := runFrames strategy this config marketData clock
                              (sortedTimestamps marketData)
                              (initialSim config s0) in
      let final := simulate strategy this config marketData clock s0 in
      equity final == initialCapital config + sumPnl (trades frames)
      /\ exists forced,
           trades final = trades frames ++ forced
           /\ Forall (forcedFrom this config (positions frames)) forced).
Proof.
  split; [reflexivity |]. split.
  - intros snapshots date st marketId position market F E st'. unfold st'.
    erewrite exitStep_closes; [| exact F | exact E]. simpl.
    eexists. split; reflexivity.
  - split; [intro timestamps; apply runFrames_equity |].
    cbv zeta. unfold simulate, closeRemaining.
    destruct (closingLoop_spec this config marketData
                (positions (runFrames strategy this config marketData clock
                                      (sortedTimestamps marketData)
                                      (initialSim config s0)))
                (runFrames strategy this config marketData clock
                           (sortedTimestamps marketData) (initialSim config s0)))
      as (He & _ & _ & _ & forced & Ht & Hf).
    split.
    + rewrite He. apply runFrames_equity.
    + exists forced. auto.
Qed.

(** C9 as stated fails: a position still open after the last frame is
    recorded as a trade with pnl 5.8, yet equity ends at the initial 10000. *)
Lemma forced_close_leaves_equity :
  let this := constructor {| opt_slippage := None; opt_fees := None |} in
  let final := simulate (scripted 100) this scenarioA_config openEnded_data
                        (fun t => t) openEnded_script in
  (exists t, trades final = [t] /\ tr_pnl t == 5.8)
  /\ equity final == 10000
  /\ ~ equity final == initialCapital scenarioA_config + sumPnl (trades final).
Proof.
  cbv zeta. split; [eexists; split; [vm_compute; reflexivity | reflexivity] |].
  split; [reflexivity |]. vm_compute. discriminate.
Qed.

(* ================================================================== *)
(** ** Limits on the open positions *)
(* ================================================================== *)

Lemma Map_has_false (positions : Positions) (key : string) :
  Map_has positions key = false <-> ~ In key (map fst positions).
Proof.
  unfold Map_has. induction positions as [| [k p] rest IH]; simpl.
  - tauto.
  - rewrite orb_false_iff, IH. destruct (String.eqb_spec k key); split.
    + intros [C _]; discriminate.
    + intro H. exfalso. apply H. auto.
    + intros [_ H] [E | Hin]; [congruence | contradiction].
    + intro H. split; [reflexivity | tauto].
Qed.

Lemma Map_set_new (positions : Positions) (key : string) (value : Position) :
  Map_has positions key = false ->
  Map_set positions key value = positions ++ [(key, value)].
Proof.
  unfold Map_has. induction positions as [| [k p] rest IH]; simpl;
    [reflexivity |].
  intro H. apply orb_false_iff in H. destruct H as [-> Hrest].
  rewrite IH by exact Hrest. reflexivity.
Qed.

Lemma Map_delete_limits (config : BacktestConfig) (positions : Positions)
    (key : string) :
  withinLimits config positions -> withinLimits config (Map_delete positions key).
Proof.
  unfold withinLimits, onePerMarket, Map_delete. intros [Hlen Hone]. split.
  - pose proof (filter_length_le (fun e => negb (String.eqb (fst e) key)) positions).
    lia.
  - clear Hlen. induction positions as [| [k p] rest IH]; simpl; [constructor |].
    inversion Hone as [| ? ? Hnotin Hone']; subst.
    destruct (negb (String.eqb k key)); simpl; [| apply IH; exact Hone'].
    constructor; [| apply IH; exact Hone'].
    intro Hin. apply Hnotin. apply in_map_iff in Hin.
    destruct Hin as (e & He & Hin). apply filter_In in Hin.
    apply in_map_iff. exists e. tauto.
Qed.

Lemma Map_set_limits (config : BacktestConfig) (positions : Positions)
    (key : string) (value : Position) :
  (length positions < positionCap config)%nat ->
  Map_has positions key = false ->
  onePerMarket positions ->
  withinLimits config (Map_set positions key value).
Proof.
  intros Hlen Hhas Hone. rewrite Map_set_new by exact Hhas.
  unfold withinLimits, onePerMarket. split.
  - rewrite length_app. simpl. lia.
  - rewrite map_app. simpl. apply NoDup_app; [exact Hone | repeat constructor; auto |].
    intros k Hin [<- | []]. apply Map_has_false in Hhas. contradiction.
Qed.

Section Limits.
Context {S : Type}.
Variable strategy : IStrategy S.
Variable this : BacktestEngine.
Variable config : BacktestConfig.
Variable marketData : MarketData.
Variable clock : Z -> Z.

Lemma exitStep_limits snapshots date (st : Sim S) entry :
  withinLimits config (positions st) ->
  withinLimits config
    (positions (exitStep strategy this clock snapshots date st entry)).
Proof.
  intro Hst. destruct entry as [marketId position].
  destruct (exits snapshots (clock date) (marketId, position)) eqn:E.
  - pose proof E as E'. unfold exits in E'. simpl in E'.
    destruct (findMarket snapshots marketId) as [market |] eqn:F; [| discriminate].
    erewrite exitStep_closes; [| exact F | exact E]. cbn [positions].
    apply Map_delete_limits. exact Hst.
  - rewrite exitStep_stays; assumption.
Qed.

Lemma signalStep_limits snapshots date (st : Sim S) signal :
  withinLimits config (positions st) ->
  withinLimits config
    (positions (signalStep strategy this config snapshots date st signal)).
Proof.
  intro Hst.
  destruct (signalStep_positions strategy this config snapshots date st signal)
    as [-> | (market & size & _ & Hlen & Hhas & ->)]; [exact Hst |].
  apply Map_set_limits; [exact Hlen | exact Hhas | apply Hst].
Qed.

Lemma runFrames_limits timestamps (s0 : S) :
  withinLimits config
    (positions (runFrames strategy this config marketData clock timestamps
                          (initialSim config s0))).
Proof.
  apply runFrames_inv with (Inv := fun st => withinLimits config (positions st)).
  - intros; apply exitStep_limits; assumption.
  - intros st s Hst; exact Hst.
  - intros; apply signalStep_limits; assumption.
  - intros date st Hst; exact Hst.
  - split; [simpl; lia | constructor].
Qed.

(** A signal the strategy accepts, for a market of the frame that is
    unresolved and holds no position, opens one when a slot is free. *)
Lemma signalStep_opens snapshots date (st : Sim S) signal market size :
  (length (positions st) < positionCap config)%nat ->
  Map_has (positions st) (sig_marketId signal) = false ->
  accepts strategy (strat st) signal (equity st) size ->
  findMarket snapshots (sig_marketId signal) = Some market ->
  m_resolved market = false ->
  positions (signalStep strategy this config snapshots date st signal)
  = positions st ++
      [(sig_marketId signal,
        {| pos_side := sig_type signal;
           pos_entryPrice :=
             applySlippage this (orElse (sig_entryPrice signal) (m_price market))
                           (sig_type signal);
           pos_entryTime := date;
           pos_size := size;
           pos_signal := signal |})].
Proof.
  intros Hlen Hhas (s1 & s2 & Hv & Hs & Hsize) F R. unfold signalStep. rewrite capReached_cap.
  apply Nat.leb_gt in Hlen. rewrite Hlen, Hhas, Hv. simpl.
  rewrite F, R, Hs.
  assert (Qltb size 1 = false) as -> by (apply Qltb_ge; exact Hsize).
  simpl. apply Map_set_new. exact Hhas.
Qed.

(** A signal for a market that already holds a position changes nothing. *)
Lemma signalStep_duplicate snapshots date (st : Sim S) signal :
  Map_has (positions st) (sig_marketId signal) = true ->
  signalStep strategy this config snapshots date st signal = st.
Proof.
  intro Hhas. unfold signalStep. rewrite capReached_cap. rewrite Hhas.
  destruct (_ <=? _)%nat; reflexivity.
Qed.

End Limits.

Lemma Map_has_last (positions : Positions) (key : string) (value : Position) :
  Map_has (positions ++ [(key, value)]) key = true.
Proof.
  unfold Map_has. rewrite existsb_app. simpl. rewrite String.eqb_refl.
  rewrite orb_true_r. reflexivity.
Qed.

Lemma positionCap_spec (config : BacktestConfig) :
  (forall c, maxConcurrentPositions config = Some c -> ~ c == 0 ->
             positionCap config = Z.to_nat (Qceiling c))
  /\ (forall n : nat,
        maxConcurrentPositions config = Some (inject_Z (Z.of_nat (Datatypes.S n))) ->
        positionCap config = Datatypes.S n)
  /\ (maxConcurrentPositions config = None
      \/ (exists c, maxConcurrentPositions config = Some c /\ c == 0) ->
      positionCap config = 10%nat).
Proof.
  unfold positionCap, positionLimit, orElse. split; [| split].
  - intros c -> Hc. destruct (Qeq_bool c 0) eqn:E; [| reflexivity].
    apply Qeq_bool_iff in E. contradiction.
  - intros n ->.
    destruct (Qeq_bool (inject_Z (Z.of_nat (Datatypes.S n))) 0) eqn:E.
    + apply Qeq_bool_iff in E. unfold Qeq in E. cbn [Qnum Qden inject_Z] in E.
      lia.
    + rewrite Qceiling_Z. apply Nat2Z.id.
  - intros [-> | [c [-> Hc]]]; [reflexivity |].
    apply Qeq_bool_iff in Hc. rewrite Hc. reflexivity.
Qed.

(** X25.  The limit in force is the configured maximum when that is set and
    not 0, and 10 otherwise; a signal is skipped once the number of open
    positions is at least the limit, which happens from the limit rounded up
    to a whole number.  After any number of frames, and after every single
    step of the exit loop and of the signal loop, the number of open
    positions is at most the limit rounded up and no market id holds two
    open positions.  When two signals for the same market arrive in one
    frame, one slot remains, the market holds no position, is in the frame
    and unresolved, and the strategy accepts the first signal, exactly one
    position opens; whatever the strategy answers, at most one opens. *)
Theorem open_positions_within_limits {S : Type} (strategy : IStrategy S)
    (this : BacktestEngine) (config : BacktestConfig) (marketData : MarketData)
    (clock : Z -> Z) (s0 : S) :
  ((forall c, maxConcurrentPositions config = Some c -> ~ c == 0 ->
              positionCap config = Z.to_nat (Qceiling c))
   /\ (forall n : nat,
         maxConcurrentPositions config
         = Some (inject_Z (Z.of_nat (Datatypes.S n))) ->
         positionCap config = Datatypes.S n)
   /\ (maxConcurrentPositions config = None
       \/ (exists c, maxConcurrentPositions config = Some c /\ c == 0) ->
       positionCap config = 10%nat))
  /\ (forall timestamps,
        withinLimits config
          (positions (runFrames strategy this config marketData clock timestamps
                                (initialSim config s0))))
  /\ (forall snapshots date (st : Sim S) entry,
        withinLimits config (positions st) ->
        withinLimits config
          (positions (exitStep strategy this clock snapshots date st entry)))
  /\ (forall snapshots date (st : Sim S) signal,
        withinLimits config (positions st) ->
        withinLimits config
          (positions (signalStep strategy this config snapshots date st signal)))
  /\ (forall snapshots date (st : Sim S) first second,
        sig_marketId second = sig_marketId first ->
        Map_has (positions st) (sig_marketId first) = false ->
        let st' := processSignals strategy this config snapshots date st
                                  [first; second] in
        (exists opened,
            positions st' = positions st ++ opened
            /\ (length opened <= 1)%nat)
        /\ forall market size,
             (length (positions st) + 1 = positionCap config)%nat ->
             accepts strategy (strat st) first (equity st) size ->
             findMarket snapshots (sig_marketId first) = Some market ->
             m_resolved market = false ->
             exists position,
               positions st' = positions st ++ [(sig_marketId first, position)]).
Proof.
  split; [apply positionCap_spec |].
  split; [intro timestamps; apply runFrames_limits |].
  split; [intros; apply exitStep_limits; assumption |].
  split; [intros; apply signalStep_limits; assumption |].
  intros snapshots date st first second Hsame Hhas st'.
  unfold st', processSignals. simpl. split.
  - destruct (signalStep_positions strategy this config snapshots date st first)
      as [E1 | (market & size & _ & _ & _ & E1)].
    + destruct (signalStep_positions strategy this config snapshots date
                  (signalStep strategy this config snapshots date st first) second)
        as [E2 | (market & size & _ & _ & Hhas2 & E2)].
      * exists []. rewrite E2, E1, app_nil_r. auto.
      * rewrite E2, E1. rewrite E1 in Hhas2. rewrite Map_set_new by exact Hhas2.
        eexists. split; [reflexivity | simpl; lia].
    + rewrite Map_set_new in E1 by exact Hhas.
      rewrite signalStep_duplicate.
      * rewrite E1. eexists. split; [reflexivity | simpl; lia].
      * rewrite E1, Hsame. apply Map_has_last.
  - intros market size Hslot Hacc F R.
    assert (Hlen : (length (positions st) < positionCap config)%nat) by lia.
    pose proof (signalStep_opens this config snapshots date st Hlen Hhas Hacc F R)
      as E1.
    rewrite signalStep_duplicate.
    + rewrite E1. eexists. reflexivity.
    + rewrite E1, Hsame. apply Map_has_last.
Qed.

(** The theorem in scenario D: a cap of 1, no open position, two buy signals
    for market "m" in one frame. *)
Lemma open_positions_within_limits_witness :
  let this := constructor {| opt_slippage := None; opt_fees := None |} in
  let config := {| startDate := 0; endDate := 3000; initialCapital := 10000;
                   maxConcurrentPositions := Some 1 |} in
  let first := signalFor "m" buy None None None in
  let second := signalFor "m" buy None None (Some 0.90) in
  let market := snapshotAt "m" 1000 0.40 false in
  let st := emptySim 10000 ([] : list (list Signal)) in
  withinLimits config (positions st)
  /\ accepts (scripted 100) (strat st) first (equity st) 100
  /\ exists position,
       positions (processSignals (scripted 100) this config [market] 1000 st
                                 [first; second])
       = [("m"%string, position)].
Proof.
  intros this config first second market st.
  assert (Hlim : withinLimits config (positions st))
    by (split; [simpl; lia | constructor]).
  assert (Hacc : accepts (scripted 100) (strat st) first (equity st) 100).
  { exists [], []. repeat split. discriminate. }
  split; [exact Hlim |]. split; [exact Hacc |].
  destruct (open_positions_within_limits (scripted 100) this config []
              (fun t => t) []) as (_ & _ & _ & _ & HD).
  destruct (HD [market] 1000%Z st first second eq_refl eq_refl) as [_ Hone].
  exact (Hone market 100 eq_refl Hacc eq_refl eq_refl).
Defined.

(** C5 on the code, at a configured cap of 0.  The cap test is
    [positions.size >= (config.maxConcurrentPositions || 10)]: the configured
    0 is falsy, the limit in force is 10, and in the first frame a position
    opens although the configured cap admits none. *)
Lemma zero_cap_is_ignored :
  let this := constructor {| opt_slippage := None; opt_fees := None |} in
  let st := runFrames (scripted 100) this zeroCap_config openEnded_data
                      (fun t => t) [1000%Z]
                      (initialSim zeroCap_config openEnded_script) in
  maxConcurrentPositions zeroCap_config = Some 0
  /\ positionLimit zeroCap_config = 10
  /\ length (positions st) = 1%nat
  /\ ~ len (positions st) <= 0.
Proof.
  cbv zeta. split; [reflexivity |]. split; [reflexivity |].
  assert (E : length (positions
                (runFrames (scripted 100)
                   (constructor {| opt_slippage := None; opt_fees := None |})
                   zeroCap_config openEnded_data (fun t => t) [1000%Z]
                   (initialSim zeroCap_config openEnded_script))) = 1%nat)
    by (vm_compute; reflexivity).
  unfold len. rewrite E. split; [reflexivity |].
  vm_compute. intro H. apply H. reflexivity.
Qed.

(** A cap that is no whole number is exceeded as well: the test lets a
    position open as long as the count is below the cap, so a cap of 1.5
    holds two positions. *)
Lemma fractional_cap_is_exceeded :
  let this := constructor {| opt_slippage := None; opt_fees := None |} in
  let st := runFrames (scripted 100) this fractionalCap_config twoMarkets_data
                      (fun t => t) [1000%Z]
                      (initialSim fractionalCap_config twoMarkets_script) in
  maxConcurrentPositions fractionalCap_config = Some 1.5
  /\ positionCap fractionalCap_config = 2%nat
  /\ length (positions st) = 2%nat.
Proof.
  cbv zeta. split; [reflexivity |]. split; [reflexivity |].
  vm_compute. reflexivity.
Qed.

(* ================================================================== *)
(** ** The timeline *)
(* ================================================================== *)

Lemma Set_add_NoDup (s : list Z) (x : Z) : NoDup s -> NoDup (Set_add s x).
Proof.
  intro Hs. unfold Set_add. destruct (existsb (Z.eqb x) s) eqn:E; [exact Hs |].
  apply NoDup_app; [exact Hs | repeat constructor; auto |].
  intros y Hy [<- | []].
  assert (existsb (Z.eqb x) s = true); [| congruence].
  apply existsb_exists. exists x. split; [exact Hy | apply Z.eqb_refl].
Qed.

Lemma Set_add_In (s : list Z) (x y : Z) : In y (Set_add s x) <-> In y s \/ y = x.
Proof.
  unfold Set_add. destruct (existsb (Z.eqb x) s) eqn:E.
  - apply existsb_exists in E. destruct E as (z & Hz & Ez).
    apply Z.eqb_eq in Ez. subst z. split; [auto | intros [H | ->]; assumption].
  - rewrite in_app_iff. simpl. intuition congruence.
Qed.

Lemma addSnapshots_In (snapshots : list MarketSnapshot) (acc : list Z) (y : Z) :
  In y (fold_left (fun acc s => Set_add acc (m_timestamp s)) snapshots acc)
  <-> In y acc \/ exists s, In s snapshots /\ m_timestamp s = y.
Proof.
  revert acc. induction snapshots as [| s rest IH]; intro acc; simpl.
  - split; [auto | intros [H | (s & [] & _)]; exact H].
  - rewrite IH, Set_add_In. split.
    + intros [[H | ->] | (s' & Hs' & E)]; eauto.
    + intros [H | (s' & [<- | Hs'] & E)]; eauto.
Qed.

Lemma allTimestamps_In (marketData : MarketData) (y : Z) :
  In y (allTimestamps marketData) <-> observedAt marketData y.
Proof.
  unfold allTimestamps, observedAt.
  assert (G : forall acc,
             In y (fold_left
                     (fun acc entry =>
                        fold_left (fun acc s => Set_add acc (m_timestamp s))
                                  (snd entry) acc)
                     marketData acc)
             <-> In y acc
                 \/ exists entry s,
                      In entry marketData /\ In s (snd entry) /\ m_timestamp s = y).
  { induction marketData as [| entry rest IH]; intro acc; simpl.
    - split; [auto | intros [H | (e & s & [] & _)]; exact H].
    - rewrite IH, addSnapshots_In. split.
      + intros [[H | (s & Hs & E)] | (e & s & He & Hs & E)]; eauto 8.
      + intros [H | (e & s & [<- | He] & Hs & E)]; eauto 8. }
  rewrite G. simpl. split; [intros [[] | H]; exact H | auto].
Qed.

Lemma allTimestamps_NoDup (marketData : MarketData) : NoDup (allTimestamps marketData).
Proof.
  unfold allTimestamps.
  apply fold_left_inv with (P := @NoDup Z); [| constructor].
  intros acc entry _ Hacc.
  apply fold_left_inv with (P := @NoDup Z); [| exact Hacc].
  intros acc' s _. apply Set_add_NoDup.
Qed.

Lemma sortedTimestamps_In (marketData : MarketData) (y : Z) :
  In y (sortedTimestamps marketData) <-> observedAt marketData y.
Proof.
  rewrite <- allTimestamps_In. unfold sortedTimestamps. split; intro H.
  - eapply Permutation_in; [symmetry; apply ZSort.Permuted_sort | exact H].
  - eapply Permutation_in; [apply ZSort.Permuted_sort | exact H].
Qed.

Lemma sortedTimestamps_increasing (marketData : MarketData) :
  StronglySorted Z.lt (sortedTimestamps marketData).
Proof.
  unfold sortedTimestamps.
  assert (Hnd : NoDup (ZSort.sort (allTimestamps marketData))).
  { eapply Permutation_NoDup; [apply ZSort.Permuted_sort | apply allTimestamps_NoDup]. }
  assert (Hs : StronglySorted (fun x y => is_true (x <=? y)%Z)
                              (ZSort.sort (allTimestamps marketData))).
  { apply ZSort.StronglySorted_sort.
    intros x y z Hxy Hyz. unfold ZOrder.leb, is_true in *. lia. }
  induction Hs as [| x l Hs IH Hall]; [constructor |].
  inversion Hnd as [| ? ? Hnotin Hnd']; subst.
  constructor; [apply IH; exact Hnd' |].
  rewrite Forall_forall in *. intros y Hy.
  specialize (Hall y Hy). unfold is_true in Hall.
  assert (x <> y) by (intros ->; contradiction). lia.
Qed.

(** A timestamp of the data has a non-empty frame. *)
Lemma observed_frameAvailable (marketData : MarketData) (timestamp : Z) :
  observedAt marketData timestamp -> frameAvailable marketData timestamp = true.
Proof.
  intros (entry & s & He & Hs & E). unfold frameAvailable, currentSnapshots.
  destruct (find (fun s => (m_timestamp s =? timestamp)%Z) (snd entry))
    as [found |] eqn:F.
  - assert (Hin : In found
                     (flat_map
                        (fun entry =>
                           match find (fun s => (m_timestamp s =? timestamp)%Z)
                                      (snd entry) with
                           | Some snapshot => [snapshot]
                           | None => []
                           end) marketData)).
    { apply in_flat_map. exists entry. split; [exact He |]. rewrite F. left; reflexivity. }
    destruct (flat_map _ marketData); [destruct Hin | reflexivity].
  - exfalso. pose proof (find_none _ _ F s Hs) as N. simpl in N.
    apply Z.eqb_neq in N. contradiction.
Qed.

(* ================================================================== *)
(** ** The equity curve *)
(* ================================================================== *)

Lemma runningPeak_snoc (capital : Q) (equities : list Q) (e : Q) :
  runningPeak capital (equities ++ [e]) = Qmax (runningPeak capital equities) e.
Proof. unfold runningPeak. rewrite fold_left_app. reflexivity. Qed.

(** The running peak never falls, and starts at the initial capital. *)
Lemma runningPeak_monotone (capital : Q) (equities later : list Q) :
  runningPeak capital equities <= runningPeak capital (equities ++ later).
Proof.
  induction later as [| e later IH] using rev_ind.
  - rewrite app_nil_r. apply Qle_refl.
  - rewrite app_assoc, runningPeak_snoc.
    eapply Qle_trans; [exact IH | apply Q.le_max_l].
Qed.

Section Curve.
Context {S : Type}.
Variable strategy : IStrategy S.
Variable this : BacktestEngine.
Variable config : BacktestConfig.
Variable marketData : MarketData.
Variable clock : Z -> Z.

Lemma exitStep_curve snapshots date (st : Sim S) entry :
  let st' := exitStep strategy this clock snapshots date st entry in
  equityCurve st' = equityCurve st /\ peakEquity st' = peakEquity st.
Proof.
  destruct entry as [marketId position]. unfold exitStep.
  destruct (findMarket snapshots marketId) as [market |]; [| split; reflexivity].
  destruct (_ || _); split; reflexivity.
Qed.

Lemma signalStep_curve snapshots date (st : Sim S) signal :
  let st' := signalStep strategy this config snapshots date st signal in
  equityCurve st' = equityCurve st /\ peakEquity st' = peakEquity st.
Proof.
  unfold signalStep. rewrite capReached_cap.
  destruct (_ <=? _)%nat; [split; reflexivity |].
  destruct (Map_has _ _); [split; reflexivity |].
  destruct (validateSignal _ _ _) as [isValid s1].
  destruct isValid; simpl; [| split; reflexivity].
  destruct (findMarket _ _) as [market |]; [| split; reflexivity].
  destruct (m_resolved market); [split; reflexivity |].
  destruct (getPositionSize _ _ _ _) as [positionSize s2].
  destruct (Qltb positionSize 1); split; reflexivity.
Qed.

(** What a frame does to the curve: nothing when no market is available, one
    more point stamped with the frame's time otherwise. *)
Lemma frameStep_curve (st : Sim S) (timestamp : Z) :
  let st' := frameStep strategy this config marketData clock st timestamp in
  if frameAvailable marketData timestamp
  then exists p, equityCurve st' = equityCurve st ++ [p]
                 /\ ep_timestamp p = timestamp
  else equityCurve st' = equityCurve st.
Proof.
  unfold frameStep, frameAvailable.
  destruct (length _ =? 0)%nat; simpl; [reflexivity |].
  destruct (generateSignals _ _ _) as [signals s] eqn:G.
  assert (Hsame :
            equityCurve
              (processSignals strategy this config
                 (currentSnapshots marketData timestamp) timestamp
                 (withStrat
                    (exitPositions strategy this clock
                       (currentSnapshots marketData timestamp) timestamp st) s)
                 signals)
            = equityCurve st).
  { unfold processSignals.
    apply fold_left_inv
      with (P := fun s' : Sim S => equityCurve s' = equityCurve st).
    - intros s' signal _ Hs'.
      destruct (signalStep_curve (currentSnapshots marketData timestamp)
                                 timestamp s' signal) as [-> _]. exact Hs'.
    - simpl. unfold exitPositions.
      apply fold_left_inv
        with (P := fun s' : Sim S => equityCurve s' = equityCurve st);
        [| reflexivity].
      intros s' entry _ Hs'.
      destruct (exitStep_curve (currentSnapshots marketData timestamp) timestamp
                               s' entry) as [-> _]. exact Hs'. }
  unfold recordEquity. cbn [equityCurve]. rewrite Hsame.
  eexists. split; reflexivity.
Qed.

Lemma runFrames_timestamps (timestamps : list Z) (st : Sim S) :
  map ep_timestamp
      (equityCurve (runFrames strategy this config marketData clock timestamps st))
  = map ep_timestamp (equityCurve st)
    ++ filter (frameAvailable marketData) timestamps.
Proof.
  revert st. induction timestamps as [| t rest IH]; intro st; simpl.
  - rewrite app_nil_r. reflexivity.
  - unfold runFrames in *. rewrite IH.
    pose proof (frameStep_curve st t) as F. cbv zeta in F.
    destruct (frameAvailable marketData t).
    + destruct F as (p & -> & Hp). rewrite map_app. simpl.
      rewrite Hp, <- app_assoc. reflexivity.
    + rewrite F. reflexivity.
Qed.

Lemma recordEquity_invariant (date : Z) (st : Sim S) :
  curveInvariant config st -> curveInvariant config (recordEquity date st).
Proof.
  intros [Hpeak Hcurve]. unfold curveInvariant, recordEquity.
  cbn [peakEquity equityCurve]. split.
  - rewrite map_app. simpl. rewrite runningPeak_snoc, Hpeak. reflexivity.
  - intros before p after E.
    destruct after as [| a after'] using rev_ind.
    + apply app_inj_tail in E. destruct E as [<- <-].
      unfold drawdownFieldsOf. cbn [ep_drawdown ep_equity ep_drawdownPercent].
      rewrite map_app. simpl map. rewrite runningPeak_snoc, <- Hpeak.
      split; [| reflexivity].
      symmetry. apply Q.max_r.
      pose proof (Q.le_max_r (peakEquity st) (equity st)). lra.
    + clear IHafter'. rewrite app_comm_cons, app_assoc in E.
      apply app_inj_tail in E. destruct E as [E _].
      apply (Hcurve before p after'). exact E.
Qed.

Lemma runFrames_curve (timestamps : list Z) (s0 : S) :
  curveInvariant config
    (runFrames strategy this config marketData clock timestamps
               (initialSim config s0)).
Proof.
  apply runFrames_inv with (Inv := curveInvariant config).
  - intros snapshots date st entry [Hp Hc].
    destruct (exitStep_curve snapshots date st entry) as [Ec Ep].
    unfold curveInvariant. rewrite Ec, Ep. auto.
  - intros st s H; exact H.
  - intros snapshots date st signal [Hp Hc].
    destruct (signalStep_curve snapshots date st signal) as [Ec Ep].
    unfold curveInvariant. rewrite Ec, Ep. auto.
  - intros; apply recordEquity_invariant; assumption.
  - split; [reflexivity |].
    intros before p after E. destruct before; discriminate E.
Qed.

End Curve.

Lemma filter_all {A : Type} (f : A -> bool) (l : list A) :
  (forall x, In x l -> f x = true) -> filter f l = l.
Proof.
  induction l as [| x l IH]; simpl; intro H; [reflexivity |].
  rewrite (H x) by auto. rewrite IH by auto. reflexivity.
Qed.

(** C6.  A run of frames adds one equity point for each timestamp whose
    frame has a market and none for the others.  The timestamps of the curve
    that [simulate] returns are the distinct timestamps of the market data
    in ascending order, each once, hence strictly increasing.  Every point
    has drawdown = max(0, peak - equity), where peak is the running peak
    (the largest of the initial capital and the equity of the points up to
    and including this one), and drawdownPercent = drawdown / peak when
    peak > 0 and 0 otherwise.  The running peak never decreases. *)
Theorem equity_curve_shape {S : Type} (strategy : IStrategy S)
    (this : BacktestEngine) (config : BacktestConfig) (marketData : MarketData)
    (clock : Z -> Z) (s0 : S) :
  let curve := equityCurve (simulate strategy this config marketData clock s0) in
  (forall timestamps (st : Sim S),
      map ep_timestamp
          (equityCurve (runFrames strategy this config marketData clock
                                  timestamps st))
      = map ep_timestamp (equityCurve st)
        ++ filter (frameAvailable marketData) timestamps)
  /\ map ep_timestamp curve = sortedTimestamps marketData
  /\ (forall t, In t (map ep_timestamp curve) <-> observedAt marketData t)
  /\ StronglySorted Z.lt (map ep_timestamp curve)
  /\ (forall before p after,
        curve = before ++ p :: after ->
        drawdownFieldsOf (initialCapital config) before p)
  /\ (forall equities later,
        runningPeak (initialCapital config) equities
        <= runningPeak (initialCapital config) (equities ++ later)).
Proof.
  intro curve.
  assert (Hcurve : curve
                   = equityCurve
                       (runFrames strategy this config marketData clock
                                  (sortedTimestamps marketData)
                                  (initialSim config s0))).
  { unfold curve, simulate, closeRemaining.
    apply (closingLoop_spec this config marketData). }
  assert (Hstamps : map ep_timestamp curve = sortedTimestamps marketData).
  { rewrite Hcurve, runFrames_timestamps. simpl. apply filter_all.
    intros t Ht. apply observed_frameAvailable, sortedTimestamps_In. exact Ht. }
  split; [intros; apply runFrames_timestamps |].
  split; [exact Hstamps |].
  split; [intro t; rewrite Hstamps; apply sortedTimestamps_In |].
  split; [rewrite Hstamps; apply sortedTimestamps_increasing |].
  split; [| intros; apply runningPeak_monotone].
  rewrite Hcurve. apply (runFrames_curve strategy this config marketData clock).
Qed.

(* ================================================================== *)
(** ** Drawdown periods *)
(* ================================================================== *)

Lemma Qltb_compat_l (a a' b : Q) : a == a' -> Qltb a b = Qltb a' b.
Proof.
  intro E. destruct (Qltb a' b) eqn:L.
  - apply Qltb_lt. apply Qltb_lt in L. lra.
  - apply Qltb_ge. apply Qltb_ge in L. lra.
Qed.

Lemma orElse_Some_zero (q : Q) : orElse (Some q) 0 == q.
Proof.
  unfold orElse. destruct (Qeq_bool q 0) eqn:E; [| reflexivity].
  apply Qeq_bool_iff in E. symmetry. exact E.
Qed.

Lemma last_cons_default {A : Type} (l : list A) (x d : A) :
  last (x :: l) d = last l x.
Proof.
  revert x d. induction l as [| y l IH]; intros x d; [reflexivity |].
  change (last (x :: y :: l) d) with (last (y :: l) d).
  rewrite (IH y d), (IH y x). reflexivity.
Qed.

Lemma last_In {A : Type} (l : list A) (d : A) : In (last l d) (d :: l).
Proof.
  revert d. induction l as [| x l IH]; intro d; [left; reflexivity |].
  rewrite last_cons_default. right. apply IH.
Qed.

(** The deepest point after one more point: the new point when it is
    strictly deeper, the former deepest otherwise. *)
Lemma deepest_snoc (first : EquityPoint) (more : list EquityPoint)
    (point : EquityPoint) :
  deepest first (more ++ [point])
  = if Qltb (ep_drawdown (deepest first more)) (ep_drawdown point)
    then point else deepest first more.
Proof.
  revert first. induction more as [| next rest IH]; intro first.
  - reflexivity.
  - cbn [app deepest]. rewrite IH.
    destruct (Qltb (ep_drawdown (deepest next rest)) (ep_drawdown point)) eqn:A;
      destruct (Qltb (ep_drawdown first) (ep_drawdown (deepest next rest))) eqn:B;
      try rewrite A; try reflexivity.
    + apply Qltb_lt in A. apply Qltb_lt in B.
      assert (Qltb (ep_drawdown first) (ep_drawdown point) = true) as ->
        by (apply Qltb_lt; lra).
      reflexivity.
    + apply Qltb_ge in A. apply Qltb_ge in B.
      assert (Qltb (ep_drawdown first) (ep_drawdown point) = false) as ->
        by (apply Qltb_ge; lra).
      reflexivity.
Qed.

(** Where the deepest point lies: the points before it are strictly
    shallower, the points after it are not deeper. *)
Lemma deepest_spec (first : EquityPoint) (more : list EquityPoint) :
  exists before after,
    first :: more = before ++ deepest first more :: after
    /\ Forall (fun p => ep_drawdown p < ep_drawdown (deepest first more)) before
    /\ Forall (fun p => ep_drawdown p <= ep_drawdown (deepest first more)) after.
Proof.
  revert first. induction more as [| next rest IH]; intro first.
  - exists [], []. repeat split; constructor.
  - destruct (IH next) as (before & after & E & Hb & Ha). cbn [deepest].
    destruct (Qltb (ep_drawdown first) (ep_drawdown (deepest next rest))) eqn:L.
    + apply Qltb_lt in L. exists (first :: before), after.
      split; [rewrite E; reflexivity |].
      split; [constructor; assumption | exact Ha].
    + apply Qltb_ge in L. exists [], (next :: rest).
      split; [reflexivity |]. split; [constructor |].
      rewrite E. apply Forall_app. split.
      * eapply Forall_impl; [| exact Hb]. intros p Hp. simpl in Hp. lra.
      * constructor; [exact L |].
        eapply Forall_impl; [| exact Ha]. intros p Hp. simpl in Hp. lra.
Qed.

(** The record that the scan keeps of an open period is the period of the
    points met so far; one more point of positive drawdown updates it to
    the period of the longer list. *)
Lemma periodOf_snoc (start : Z) (first : EquityPoint) (more : list EquityPoint)
    (point : EquityPoint) :
  let current := periodOf start first more in
  let deeper := Qltb (dp_maxDrawdown current) (ep_drawdown point) in
  periodOf start first (more ++ [point])
  = {| dp_startDate := dp_startDate current;
       dp_endDate := ep_timestamp point;
       dp_maxDrawdown :=
         if deeper then ep_drawdown point else dp_maxDrawdown current;
       dp_maxDrawdownPercent :=
         if deeper then ep_drawdownPercent point
         else dp_maxDrawdownPercent current;
       dp_duration :=
         inject_Z (ep_timestamp point - dp_startDate current) / msPerDay;
       dp_recovered := dp_recovered current;
       dp_recoveryDate := dp_recoveryDate current |}.
Proof.
  cbv zeta. unfold periodOf.
  cbn [dp_startDate dp_maxDrawdown dp_maxDrawdownPercent dp_recovered
       dp_recoveryDate].
  rewrite last_last, deepest_snoc.
  destruct (Qltb (ep_drawdown (deepest first more)) (ep_drawdown point));
    destruct more; reflexivity.
Qed.

(** The scan, started in any state that agrees with the points met so far,
    returns the periods of the specification. *)
Lemma drawdownScan_periods (curve : list EquityPoint) :
  forall (s : DrawdownScan) (highest : Q) (inside : list EquityPoint),
    peak s == highest ->
    currentDrawdown s = openPeriod (peakDate s) inside ->
    drawdownFinish (fold_left drawdownStep curve s)
    = drawdowns s ++ periodsAfter highest (peakDate s) inside curve.
Proof.
  induction curve as [| point rest IH]; intros s highest inside Hpeak Hcur.
  - cbn [fold_left periodsAfter]. unfold drawdownFinish. rewrite Hcur.
    destruct (openPeriod (peakDate s) inside); [reflexivity |].
    rewrite app_nil_r. reflexivity.
  - cbn [fold_left periodsAfter]. unfold drawdownStep at 2.
    rewrite (Qltb_compat_l (ep_equity point) Hpeak).
    destruct (Qltb highest (ep_equity point)) eqn:High.
    + rewrite IH with (highest := ep_equity point) (inside := []);
        [| cbn [peak]; reflexivity | reflexivity].
      cbn [drawdowns peakDate]. rewrite Hcur.
      destruct (openPeriod (peakDate s) inside) as [period |].
      * rewrite <- app_assoc. reflexivity.
      * reflexivity.
    + destruct (Qltb 0 (ep_drawdown point)) eqn:Low.
      * erewrite IH with (inside := inside ++ [point]);
          [reflexivity | exact Hpeak |].
        cbn [currentDrawdown peakDate]. rewrite Hcur.
        destruct inside as [| first more]; [reflexivity |].
        cbn [openPeriod app]. rewrite periodOf_snoc. reflexivity.
      * apply IH; assumption.
Qed.

(** C7.  [calculateDrawdowns] returns the drawdown periods of the curve as
    the specification describes them, for every curve.  The first point is
    the first peak.  A period begins at the first point of positive drawdown
    that is not above the peak and starts at the date of that peak; it is
    made of the points of positive drawdown met until equity strictly
    exceeds the peak, ends at the last of them and records the largest
    drawdown among them, with the percentage of the earliest point of that
    drawdown.  The first point above the peak closes the period as
    recovered, with that point's date as recovery date, and is the new peak;
    a period still open at the end of the curve is returned not recovered
    and without recovery date.  For the equity sequence 100, 90, 80, 95, 110
    exactly one period results, of depth 20 (20 percent), recovered at the
    point of equity 110. *)
Theorem drawdown_periods :
  (forall curve, calculateDrawdowns curve = drawdownPeriods curve)
  /\ (forall start first more,
        let period := periodOf start first more in
        covers start (first :: more) period
        /\ dp_endDate period = ep_timestamp (last more first)
        /\ dp_recovered period = false
        /\ dp_recoveryDate period = None
        /\ exists before worst after,
             first :: more = before ++ worst :: after
             /\ Forall (fun p => ep_drawdown p < ep_drawdown worst) before
             /\ Forall (fun p => ep_drawdown p <= ep_drawdown worst) after
             /\ dp_maxDrawdown period = ep_drawdown worst
             /\ dp_maxDrawdownPercent period = ep_drawdownPercent worst)
  /\ (forall peak start inside point rest,
        let closed :=
          match inside with
          | [] => []
          | first :: more =>
              [recoveredAt (periodOf start first more) (ep_timestamp point)]
          end in
        (peak < ep_equity point ->
         periodsAfter peak start inside (point :: rest)
         = closed ++ periodsAfter (ep_equity point) (ep_timestamp point) [] rest)
        /\ (ep_equity point <= peak -> 0 < ep_drawdown point ->
            periodsAfter peak start inside (point :: rest)
            = periodsAfter peak start (inside ++ [point]) rest)
        /\ (ep_equity point <= peak -> ep_drawdown point <= 0 ->
            periodsAfter peak start inside (point :: rest)
            = periodsAfter peak start inside rest))
  /\ (forall peak start first more,
        periodsAfter peak start (first :: more) []
        = [periodOf start first more])
  /\ calculateDrawdowns scenarioC_curve
     = [ {| dp_startDate := 1;
            dp_endDate := 4;
            dp_maxDrawdown := 20;
            dp_maxDrawdownPercent := 0.2;
            dp_duration := inject_Z (4 - 1) / msPerDay;
            dp_recovered := true;
            dp_recoveryDate := Some 5%Z |} ].
Proof.
  split; [| split; [| split; [| split; [| reflexivity]]]].
  - intros [| first rest]; [reflexivity |].
    unfold calculateDrawdowns, drawdownPeriods.
    rewrite (@drawdownScan_periods (first :: rest) (drawdownInit (first :: rest))
               (ep_equity first) []).
    + reflexivity.
    + cbn [drawdownInit peak hd_error option_map]. apply orElse_Some_zero.
    + reflexivity.
  - intros start first more period.
    destruct (deepest_spec first more) as (before & after & E & Hb & Ha).
    assert (Hin : In (deepest first more) (first :: more)).
    { rewrite E. apply in_or_app. right. left. reflexivity. }
    split; [| split; [reflexivity | split; [reflexivity | split; [reflexivity |]]]].
    + unfold covers, period, periodOf.
      cbn [dp_startDate dp_endDate dp_maxDrawdown dp_maxDrawdownPercent].
      split; [reflexivity |]. split; [| split].
      * exists (last more first). split; [apply last_In | reflexivity].
      * intros p Hp. rewrite E in Hp. apply in_app_or in Hp.
        rewrite Forall_forall in Hb, Ha.
        destruct Hp as [Hp | [<- | Hp]].
        -- apply Qlt_le_weak, Hb, Hp.
        -- apply Qle_refl.
        -- apply Ha, Hp.
      * exists (deepest first more). auto.
    + exists before, (deepest first more), after. auto.
  - intros pk start inside point rest closed. cbn [periodsAfter].
    split; [| split].
    + intro H. apply Qltb_lt in H. rewrite H. unfold closed.
      destruct inside; reflexivity.
    + intros H1 H2. apply Qltb_ge in H1. apply Qltb_lt in H2.
      rewrite H1, H2. reflexivity.
    + intros H1 H2. apply Qltb_ge in H1. apply Qltb_ge in H2.
      rewrite H1, H2. reflexivity.
  - reflexivity.
Qed.

(** The theorem at scenario C: the first point, of equity 100, is the peak;
    the points of equity 90, 80 and 95 join one period, and the point of
    equity 110 closes it as recovered. *)
Lemma drawdown_periods_witness :
  let at90 := {| ep_timestamp := 2; ep_equity := 90; ep_drawdown := 10;
                 ep_drawdownPercent := 0.1 |} in
  let at80 := {| ep_timestamp := 3; ep_equity := 80; ep_drawdown := 20;
                 ep_drawdownPercent := 0.2 |} in
  let at95 := {| ep_timestamp := 4; ep_equity := 95; ep_drawdown := 5;
                 ep_drawdownPercent := 0.05 |} in
  let at110 := {| ep_timestamp := 5; ep_equity := 110; ep_drawdown := 0;
                  ep_drawdownPercent := 0 |} in
  periodsAfter 100 1 [] [at90; at80; at95; at110]
  = [recoveredAt (periodOf 1 at90 [at80; at95]) 5].
Proof.
  intros at90 at80 at95 at110.
  destruct drawdown_periods as (_ & _ & Hstep & _).
  destruct (Hstep 100 1%Z [] at90 [at80; at95; at110]) as (_ & Hjoin & _).
  rewrite Hjoin by (vm_compute; discriminate || reflexivity). cbn [app].
  destruct (Hstep 100 1%Z [at90] at80 [at95; at110]) as (_ & Hjoin2 & _).
  rewrite Hjoin2 by (vm_compute; discriminate || reflexivity). cbn [app].
  destruct (Hstep 100 1%Z [at90; at80] at95 [at110]) as (_ & Hjoin3 & _).
  rewrite Hjoin3 by (vm_compute; discriminate || reflexivity). cbn [app].
  destruct (Hstep 100 1%Z [at90; at80; at95] at110 []) as (Hclose & _).
  rewrite Hclose by reflexivity. reflexivity.
Defined.

(* ================================================================== *)
(** ** Degenerate inputs of the statistics *)
(* ================================================================== *)

(** Without a point above the first peak the duration is 0. *)
Lemma maxDrawdownDuration_no_high (curve : list EquityPoint) :
  Forall (fun p => ep_equity p <= peak (drawdownInit curve)) curve ->
  getMaxDrawdownDuration curve = 0.
Proof.
  unfold getMaxDrawdownDuration. cbv zeta.
  set (pk := peak (drawdownInit curve)). set (pd := peakDate (drawdownInit curve)).
  intro Hall.
  assert (G : forall l d, Forall (fun p => ep_equity p <= pk) l ->
                          fold_left durationStep l (0, pk, d) = (0, pk, d)).
  { induction l as [| p l IH]; intros d Hl; [reflexivity |].
    inversion Hl as [| ? ? Hp Hl']; subst. cbn [fold_left].
    unfold durationStep at 2.
    assert (Qltb pk (ep_equity p) = false) as -> by (apply Qltb_ge; exact Hp).
    apply IH. exact Hl'. }
  rewrite (G curve pd Hall). reflexivity.
Qed.

Lemma grossLoss_nonneg (trades : list BacktestTrade) : 0 <= grossLoss trades.
Proof. unfold grossLoss. apply Qabs_nonneg. Qed.

(** The guard of the profit factor: [Infinity] exactly on a zero gross loss. *)
Lemma profitFactor_guard (trades : list BacktestTrade) :
  (if Qltb 0 (grossLoss trades)
   then Fin (grossProfit trades / grossLoss trades) else PosInf) = PosInf
  <-> grossLoss trades == 0.
Proof.
  pose proof (grossLoss_nonneg trades) as Hnn.
  destruct (Qltb 0 (grossLoss trades)) eqn:E.
  - apply Qltb_lt in E. split; [discriminate | intro; lra].
  - apply Qltb_ge in E. split; [intro; lra | reflexivity].
Qed.

Lemma len_positive {A : Type} (x : A) (l : list A) : 0 < len (x :: l).
Proof.
  unfold len. change 0 with (inject_Z 0). rewrite <- Zlt_Qlt.
  simpl length. lia.
Qed.

Lemma Qeq_bool_false_of_pos (q : Q) : 0 < q -> Qeq_bool q 0 = false.
Proof.
  intro H. destruct (Qeq_bool q 0) eqn:E; [| reflexivity].
  apply Qeq_bool_iff in E. lra.
Qed.

Lemma div_Fin_pos (a b : Q) : 0 < b -> div (Fin a) (Fin b) = Fin (a / b).
Proof. intro H. unfold div. rewrite (Qeq_bool_false_of_pos H). reflexivity. Qed.

(** Summing [n] copies of the finite [r] onto the finite [a]. *)
Lemma sum_repeat (r : Q) (n : nat) (a : Q) :
  exists q, fold_left add (repeat (Fin r) n) (Fin a) = Fin q
            /\ q == a + inject_Z (Z.of_nat n) * r.
Proof.
  revert a. induction n as [| n IH]; intro a.
  - exists a. split; [reflexivity |]. simpl. ring.
  - simpl repeat. simpl fold_left. destruct (IH (a + r)) as (q & E & Hq).
    exists q. split; [exact E |]. rewrite Hq.
    rewrite Nat2Z.inj_succ. unfold Z.succ. rewrite inject_Z_plus. ring.
Qed.

Section Degenerate.
Context `{M : MathEnv}.

(** Zero variance in exact arithmetic: a series of equal returns has Sharpe
    ratio 0.  In floating point the mean of equal returns need not be that
    return, so the properties below use this for a series of zeros and for
    a single return only, where the mean is exact. *)
Lemma sharpeRatio_constant `{!SqrtLaws} (r : Q) (n : nat) (riskFreeRate : number) :
  sharpeRatio (repeat (Fin r) (Datatypes.S n)) riskFreeRate = Fin 0.
Proof.
  unfold sharpeRatio.
  assert (Hlen : (length (repeat (Fin r) (Datatypes.S n)) =? 0)%nat = false)
    by (rewrite repeat_length; reflexivity).
  rewrite Hlen. cbv zeta.
  remember (len (repeat (Fin r) (Datatypes.S n))) as L eqn:EL.
  assert (HL : 0 < L) by (subst L; simpl repeat; apply len_positive).
  assert (HLn : L == inject_Z (Z.of_nat (Datatypes.S n)))
    by (subst L; unfold len; rewrite repeat_length; reflexivity).
  unfold sum.
  destruct (sum_repeat r (Datatypes.S n) 0) as (q1 & -> & Hq1).
  rewrite (div_Fin_pos q1 HL).
  assert (Havg : q1 / L == r).
  { rewrite Hq1, <- HLn. field. lra. }
  rewrite map_repeat.
  change (square (sub (Fin r) (Fin (q1 / L))))
    with (Fin ((r + - (q1 / L)) * (r + - (q1 / L)))).
  destruct (sum_repeat ((r + - (q1 / L)) * (r + - (q1 / L))) (Datatypes.S n) 0)
    as (q2 & -> & Hq2).
  rewrite (div_Fin_pos q2 HL).
  assert (Hvar : q2 / L == 0).
  { rewrite Hq2, Havg. field. lra. }
  unfold sqrt.
  assert (Qltb (q2 / L) 0 = false) as -> by (apply Qltb_ge; lra).
  unfold strictEq.
  assert (Qeq_bool (Math_sqrt (q2 / L)) 0 = true) as ->
    by (apply Qeq_bool_iff, sqrt_zero; exact Hvar).
  reflexivity.
Qed.

(** Zero peak: with no positive equity the drawdown percentage is 0. *)
Lemma maxDrawdown_nonpositive (equityCurve : list Q) :
  Forall (fun e => e <= 0) equityCurve ->
  dd_percent (maxDrawdown equityCurve) = 0.
Proof.
  unfold maxDrawdown. destruct equityCurve as [| e0 rest]; [reflexivity |].
  intro Hall.
  assert (G : forall l st,
             Forall (fun e => e <= 0) l ->
             fst (fst st) <= 0 -> snd st = 0 ->
             snd (fold_left maxDrawdown_step l st) = 0).
  { induction l as [| e l IH]; intros [[pk md] pct] Hl Hpk Hpct; simpl in *;
      [exact Hpct |].
    inversion Hl as [| ? ? He Hl']; subst. apply IH; [exact Hl' | |].
    - destruct (Qltb pk e); destruct (Qltb md _); simpl; assumption.
    - assert (Qltb 0 (if Qltb pk e then e else pk) = false) as ->
        by (apply Qltb_ge; destruct (Qltb pk e); assumption).
      destruct (Qltb md _); reflexivity. }
  specialize (G (e0 :: rest) (e0, 0, 0) Hall).
  destruct (fold_left maxDrawdown_step (e0 :: rest) (e0, 0, 0)) as [[pk md] pct].
  simpl in *. apply G; [| reflexivity].
  inversion Hall; assumption.
Qed.

End Degenerate.

Lemma sample_pow_laws : @PowLaws sampleMath.
Proof.
  split. intros x y Hx. cbn [Math_pow sampleMath]. unfold sample_pow.
  apply Qeq_bool_iff in Hx. rewrite Hx. reflexivity.
Qed.

Lemma sample_sqrt_laws : @SqrtLaws sampleMath.
Proof.
  split; simpl; unfold sample_sqrt; intros [n d] H.
  - assert (n = 0%Z) as -> by (unfold Qeq in H; simpl in H; lia).
    reflexivity.
  - assert (Hn : (0 < n)%Z) by (unfold Qlt in H; simpl in H; lia).
    unfold Qlt. cbn [Qnum Qden]. rewrite Z.mul_1_r. change (0 * _)%Z with 0%Z.
    apply Z.sqrt_pos.
    apply Z.mul_pos_pos; [apply Z.mul_pos_pos; lia | reflexivity].
Qed.

(** The closing loop appends the forced trades and changes nothing else. *)
Lemma closingLoop_exact {S : Type} (this : BacktestEngine)
    (config : BacktestConfig) (marketData : MarketData)
    (l : Positions) (st : Sim S) :
  fold_left (finalStep this config marketData) l st
  = {| trades := trades st ++ flat_map (forcedTrade this config marketData) l;
       equityCurve := equityCurve st;
       positions := positions st;
       equity := equity st;
       peakEquity := peakEquity st;
       strat := strat st;
       notified := notified st |}.
Proof.
  revert st. induction l as [| [marketId position] l IH]; intro st.
  - simpl. rewrite app_nil_r. destruct st; reflexivity.
  - cbn [fold_left flat_map]. rewrite IH. unfold finalStep, forcedTrade.
    cbn [fst snd].
    destruct (findMarket (lastSnapshots marketData) marketId) as [market |].
    + cbn [trades equityCurve positions equity peakEquity strat notified].
      rewrite <- app_assoc. reflexivity.
    + reflexivity.
Qed.

(** ** A run without a trade *)

Section NoTrade.
Context {S : Type}.
Variable strategy : IStrategy S.
Variable this : BacktestEngine.
Variable config : BacktestConfig.
Variable marketData : MarketData.
Variable clock : Z -> Z.

(** While no trade is recorded, equity and peak are the initial capital and
    the curve stays there. *)
Lemma runFrames_flat timestamps (s0 : S) :
  let st := runFrames strategy this config marketData clock timestamps
                      (initialSim config s0) in
  trades st = [] ->
  equity st = initialCapital config
  /\ peakEquity st = initialCapital config
  /\ flatAt (initialCapital config) (equityCurve st).
Proof.
  apply runFrames_inv
    with (Inv := fun st =>
                   trades st = [] ->
                   equity st = initialCapital config
                   /\ peakEquity st = initialCapital config
                   /\ flatAt (initialCapital config) (equityCurve st)).
  - intros snapshots date st entry Hst Hnone.
    destruct (exitStep_trades strategy this clock snapshots date st entry)
      as [E | (market & _ & _ & E)].
    + destruct entry as [marketId position].
      destruct (exits snapshots (clock date) (marketId, position)) eqn:X.
      * pose proof X as X'. unfold exits in X'. cbn [fst snd] in X'.
        destruct (findMarket snapshots marketId) as [m |] eqn:F;
          [| discriminate].
        erewrite exitStep_closes in Hnone; [| exact F | exact X].
        cbn [trades] in Hnone. destruct (trades st); discriminate Hnone.
      * rewrite exitStep_stays in * by exact X. apply Hst. exact Hnone.
    + rewrite E in Hnone. destruct (trades st); discriminate Hnone.
  - intros st s Hst; exact Hst.
  - intros snapshots date st signal Hst.
    rewrite signalStep_trades, signalStep_equity.
    destruct (signalStep_curve strategy this config snapshots date st signal)
      as [-> ->].
    exact Hst.
  - intros date st Hst Hnone. cbn [trades] in Hnone.
    destruct (Hst Hnone) as (He & Hp & Hflat).
    cbn [recordEquity equity peakEquity equityCurve]. rewrite He, Hp.
    destruct (Qmax_cases (initialCapital config) (initialCapital config))
      as [-> | ->].
    + split; [reflexivity |]. split; [reflexivity |].
      apply Forall_app. split; [exact Hflat |].
      constructor; [| constructor]. cbn [ep_equity ep_drawdown ep_drawdownPercent].
      split; [reflexivity |]. split; [ring |].
      destruct (Qltb 0 (initialCapital config)); [| reflexivity].
      unfold Qdiv. ring.
    + split; [reflexivity |]. split; [reflexivity |].
      apply Forall_app. split; [exact Hflat |].
      constructor; [| constructor]. cbn [ep_equity ep_drawdown ep_drawdownPercent].
      split; [reflexivity |]. split; [ring |].
      destruct (Qltb 0 (initialCapital config)); [| reflexivity].
      unfold Qdiv. ring.
  - intros _. split; [reflexivity |]. split; [reflexivity |]. constructor.
Qed.

Lemma simulate_flat (s0 : S) :
  trades (simulate strategy this config marketData clock s0) = [] ->
  flatAt (initialCapital config)
         (equityCurve (simulate strategy this config marketData clock s0)).
Proof.
  unfold simulate, closeRemaining. rewrite closingLoop_exact.
  cbn [trades equityCurve]. intro Hnone.
  apply app_eq_nil in Hnone. destruct Hnone as [Hnone _].
  apply (runFrames_flat (sortedTimestamps marketData) s0). exact Hnone.
Qed.

End NoTrade.

(** ** The statistics of a flat curve *)

Lemma flat_equities (capital : Q) (curve : list EquityPoint) :
  flatAt capital curve -> map ep_equity curve = repeat capital (length curve).
Proof.
  induction 1 as [| p curve [Hp _] _ IH]; [reflexivity |].
  cbn [map length repeat]. rewrite Hp, IH. reflexivity.
Qed.

Lemma flat_returns (capital : Q) (curve : list EquityPoint) :
  flatAt capital curve -> ~ capital == 0 ->
  stepReturns curve
  = repeat (Fin ((capital - capital) / capital)) (Nat.pred (length curve)).
Proof.
  intros Hflat Hne. destruct curve as [| first rest]; [reflexivity |].
  apply Forall_cons_iff in Hflat. destruct Hflat as [[Hfirst _] Hrest].
  cbn [stepReturns length Nat.pred]. revert first Hfirst.
  induction Hrest as [| p rest [Hp _] _ IH]; intros first Hfirst; [reflexivity |].
  cbn [returnsFrom length repeat]. rewrite (IH p Hp), Hp, Hfirst.
  unfold div.
  destruct (Qeq_bool capital 0) eqn:E; [apply Qeq_bool_iff in E; contradiction |].
  reflexivity.
Qed.

Lemma maxDrawdown_repeat (capital : Q) (n : nat) :
  maxDrawdown (repeat capital n) = {| dd_value := 0; dd_percent := 0 |}.
Proof.
  destruct n as [| n]; [reflexivity |].
  unfold maxDrawdown. cbn [repeat].
  assert (G : forall k,
             fold_left maxDrawdown_step (repeat capital k) (capital, 0, 0)
             = (capital, 0, 0)).
  { induction k as [| k IH]; [reflexivity |].
    cbn [repeat fold_left]. unfold maxDrawdown_step at 2.
    assert (Qltb capital capital = false) as -> by (apply Qltb_ge, Qle_refl).
    assert (Qltb 0 (capital - capital) = false) as -> by (apply Qltb_ge; lra).
    exact IH. }
  change (capital :: repeat capital n) with (repeat capital (Datatypes.S n)).
  rewrite G. reflexivity.
Qed.

Lemma maxDrawdownDuration_flat (capital : Q) (curve : list EquityPoint) :
  flatAt capital curve -> getMaxDrawdownDuration curve = 0.
Proof.
  intro Hflat. apply maxDrawdownDuration_no_high.
  destruct curve as [| first rest]; [constructor |].
  pose proof Hflat as Hfirst. apply Forall_cons_iff in Hfirst.
  destruct Hfirst as [[Hfirst _] _].
  cbn [drawdownInit peak hd_error option_map].
  pose proof (orElse_Some_zero (ep_equity first)) as E.
  eapply Forall_impl; [| exact Hflat].
  intros p [Hp _]. cbn beta. rewrite Hp, E, Hfirst. apply Qle_refl.
Qed.

(** Finite numbers that are all 0 sum to 0. *)
Lemma sum_of_zeros (l : list number) :
  Forall (fun x => same x (Fin 0)) l ->
  forall a, exists q, fold_left add l (Fin a) = Fin q /\ q == a.
Proof.
  induction 1 as [| x l Hx _ IH]; intro a.
  - exists a. split; reflexivity.
  - destruct x as [q0 | | |]; try contradiction. cbn [same] in Hx.
    cbn [fold_left add]. destruct (IH (a + q0)) as (q & E & Hq).
    exists q. split; [exact E |]. rewrite Hq, Hx. ring.
Qed.

Section FlatStatistics.
Context `{M : MathEnv} `{!SqrtLaws}.

Lemma sqrt_of_zero (v : Q) :
  v == 0 -> exists root, sqrt (Fin v) = Fin root /\ root == 0.
Proof.
  intro Hv. unfold sqrt.
  assert (Qltb v 0 = false) as -> by (apply Qltb_ge; lra).
  eexists. split; [reflexivity | apply sqrt_zero; exact Hv].
Qed.

(** The mean squared distance to the mean of a series of equal returns. *)
Lemma variance_constant (r : Q) (n : nat) :
  let returns := repeat (Fin r) (Datatypes.S n) in
  let avg := div (sum returns) (Fin (len returns)) in
  let squaredDiffs := map (fun x => square (sub x avg)) returns in
  exists v,
    div (sum squaredDiffs) (Fin (len squaredDiffs)) = Fin v /\ v == 0.
Proof.
  cbv zeta.
  remember (len (repeat (Fin r) (Datatypes.S n))) as L eqn:EL.
  assert (HL : 0 < L) by (subst L; cbn [repeat]; apply len_positive).
  assert (HLn : L == inject_Z (Z.of_nat (Datatypes.S n)))
    by (subst L; unfold len; rewrite repeat_length; reflexivity).
  assert (EL' : len (map (fun x => square (sub x (div (sum (repeat (Fin r)
                  (Datatypes.S n))) (Fin L)))) (repeat (Fin r) (Datatypes.S n))) = L).
  { subst L. unfold len. rewrite length_map. reflexivity. }
  rewrite EL'. unfold sum.
  destruct (sum_repeat r (Datatypes.S n) 0) as (q1 & -> & Hq1).
  rewrite (div_Fin_pos q1 HL).
  assert (Havg : q1 / L == r) by (rewrite Hq1, <- HLn; field; lra).
  rewrite map_repeat.
  change (square (sub (Fin r) (Fin (q1 / L))))
    with (Fin ((r + - (q1 / L)) * (r + - (q1 / L)))).
  destruct (sum_repeat ((r + - (q1 / L)) * (r + - (q1 / L))) (Datatypes.S n) 0)
    as (q2 & -> & Hq2).
  rewrite (div_Fin_pos q2 HL).
  eexists. split; [reflexivity |]. rewrite Hq2, Havg. field. lra.
Qed.

Lemma sharpeRatio_repeat (r : Q) (k : nat) :
  sharpeRatio (repeat (Fin r) k) (Fin 0) = Fin 0.
Proof.
  destruct k as [| n]; [reflexivity | apply sharpeRatio_constant].
Qed.

Lemma sortinoRatio_zeros (r : Q) (k : nat) :
  r == 0 ->
  sortinoRatio (repeat (Fin r) k) (Fin 0)
  = if (1 <=? k)%nat then PosInf else Fin 0.
Proof.
  intro Hr. destruct k as [| n]; [reflexivity |].
  unfold sortinoRatio. rewrite repeat_length. cbn [Nat.eqb Nat.leb].
  assert (E : negativeReturns (repeat (Fin r) (Datatypes.S n)) (Fin 0) = []).
  { unfold negativeReturns.
    induction (Datatypes.S n) as [| m IH]; [reflexivity |].
    cbn [repeat filter ltb].
    assert (Qltb r 0 = false) as -> by (apply Qltb_ge; lra). exact IH. }
  rewrite E. reflexivity.
Qed.

(** The annualised volatility of a series of returns that are all 0. *)
Lemma volatility_zeros (r : Q) (k : nat) :
  r == 0 ->
  let returns := repeat (Fin r) k in
  let avgReturn :=
    if (0 <? length returns)%nat
    then div (sum returns) (Fin (len returns)) else Fin 0 in
  let squaredDiffs := map (fun x => square (sub x avgReturn)) returns in
  let variance :=
    if (0 <? length squaredDiffs)%nat
    then div (sum squaredDiffs) (Fin (len squaredDiffs)) else Fin 0 in
  same (mul (sqrt variance) (sqrt (Fin 252))) (Fin 0).
Proof.
  intro Hr. cbv zeta.
  assert (H252 : sqrt (Fin 252) = Fin (Math_sqrt 252)) by reflexivity.
  rewrite H252.
  destruct k as [| n].
  - cbn [repeat length map Nat.ltb Nat.leb].
    destruct (sqrt_of_zero (Qeq_refl 0)) as (root & -> & Hroot).
    cbn [mul same]. rewrite Hroot. ring.
  - rewrite length_map, repeat_length. cbn [Nat.ltb Nat.leb].
    destruct (variance_constant r n) as (v & Ev & Hv). cbv zeta in Ev.
    rewrite Ev.
    destruct (sqrt_of_zero Hv) as (root & -> & Hroot).
    cbn [mul same]. rewrite Hroot. ring.
Qed.

(** The ulcer index of a curve without drawdown. *)
Lemma ulcerIndex_flat (capital : Q) (curve : list EquityPoint) :
  flatAt capital curve -> curve <> [] ->
  let squaredDrawdowns :=
    map (fun e => square (Fin (ep_drawdownPercent e * 100))) curve in
  same (sqrt (div (sum squaredDrawdowns) (Fin (len squaredDrawdowns)))) (Fin 0).
Proof.
  intros Hflat Hne. cbv zeta.
  assert (Hz : Forall (fun x => same x (Fin 0))
                 (map (fun e => square (Fin (ep_drawdownPercent e * 100))) curve)).
  { apply Forall_map. eapply Forall_impl; [| exact Hflat].
    intros p (_ & _ & Hp). cbn [square mul same]. rewrite Hp. ring. }
  destruct (sum_of_zeros Hz 0) as (q & Eq & Hq). unfold sum. rewrite Eq.
  assert (HL : 0 < len (map (fun e => square (Fin (ep_drawdownPercent e * 100)))
                            curve)).
  { destruct curve as [| p rest]; [contradiction |]. cbn [map].
    apply len_positive. }
  rewrite (div_Fin_pos q HL).
  assert (Hv : q / len (map (fun e => square (Fin (ep_drawdownPercent e * 100)))
                            curve) == 0).
  { rewrite Hq. unfold Qdiv. ring. }
  destruct (sqrt_of_zero Hv) as (root & -> & Hroot). exact Hroot.
Qed.

(** The growth rate between two equal positive values. *)
Lemma cagr_flat `{!PowLaws} (capital years : Q) :
  0 < capital -> same (cagr capital capital years) (Fin 0).
Proof.
  intro Hc. unfold cagr.
  assert (Qle_bool capital 0 = false) as ->.
  { destruct (Qle_bool capital 0) eqn:E; [| reflexivity].
    apply Qle_bool_iff in E. lra. }
  cbn [orb]. destruct (Qle_bool years 0) eqn:Y; [reflexivity |].
  assert (Hy : 0 < years).
  { destruct (Qlt_le_dec 0 years) as [L | L]; [exact L |].
    apply Qle_bool_iff in L. congruence. }
  rewrite (div_Fin_pos capital Hc), (div_Fin_pos 1 Hy).
  assert (H1 : capital / capital == 1) by (field; lra).
  pose proof (@pow_one _ _ (capital / capital) (1 / years) H1) as Hp.
  destruct (Math_pow (Fin (capital / capital)) (Fin (1 / years)))
    as [q | | |]; try contradiction.
  cbn [same] in Hp. cbn [sub neg add same]. rewrite Hp. ring.
Qed.

End FlatStatistics.

Lemma pred_leb (n : nat) : (1 <=? Nat.pred n)%nat = (2 <=? n)%nat.
Proof. destruct n as [| [| n]]; reflexivity. Qed.

(** The last equity of a flat curve, or the start value of an empty one. *)
Lemma flat_endEquity (capital : Q) (curve : list EquityPoint) :
  flatAt capital curve ->
  orElse (option_map ep_equity (hd_error (rev curve))) capital = capital.
Proof.
  intro Hflat. destruct (rev curve) as [| p l] eqn:R; [reflexivity |].
  assert (Hin : In p curve) by (apply in_rev; rewrite R; left; reflexivity).
  unfold flatAt in Hflat. rewrite Forall_forall in Hflat.
  destruct (Hflat p Hin) as [Hp _].
  cbn [hd_error option_map orElse]. rewrite Hp.
  destruct (Qeq_bool capital 0); reflexivity.
Qed.

(** C2, as amended.  The profit factor, in the summary and in the metrics,
    is [Infinity] exactly when the gross loss is 0, whatever the gross
    profit; so it is [Infinity] for an empty trade list.  A run that records
    no trade leaves a curve that stays at the initial capital.  For an empty
    trade list every figure computed from the trades is finite: the three
    counts, winRate, totalPnl, totalReturn, averageWin, averageLoss,
    largestWin, largestLoss, averageHoldingPeriod, exposure and payoffRatio
    are 0 and expectancy is -1.  On the flat curve of such a run, with a
    positive initial capital, the figures computed from the curve are
    finite as well, with one exception: maxDrawdown, the Sharpe ratio, the
    growth rate, the volatility, the Calmar ratio and the drawdown duration
    are 0, and so is the ulcer index of a curve that has a point; the
    Sortino ratio is 0 for a curve of at most one point and [Infinity] from
    two points on.  The guarded divisions answer 0: the Sharpe ratio of an
    empty series, of a series of zeros and of a single return, the Sortino
    ratio of an empty series, the Calmar ratio without drawdown, the
    drawdown percentage without positive peak, the growth rate without
    positive start value or duration.  Every one of these computations
    returns a value. *)
Theorem statistics_degenerate `{M : MathEnv} `{!SqrtLaws} `{!PowLaws} :
  (forall trades curve config,
      (profitFactor (calculateSummary trades curve config) = PosInf
       <-> grossLoss trades == 0)
      /\ (met_profitFactor (calculateMetrics trades curve config) = PosInf
          <-> grossLoss trades == 0))
  /\ (forall (S : Type) (strategy : IStrategy S) this config marketData clock s0,
        trades (simulate strategy this config marketData clock s0) = [] ->
        flatAt (initialCapital config)
               (equityCurve (simulate strategy this config marketData clock s0)))
  /\ (forall curve config,
        let s := calculateSummary [] curve config in
        let m := calculateMetrics [] curve config in
        totalTrades s = 0%nat /\ winningTrades s = 0%nat /\ losingTrades s = 0%nat
        /\ winRate s = Fin 0 /\ totalPnl s = Fin 0
        /\ same (totalReturn s) (Fin 0)
        /\ profitFactor s = PosInf
        /\ averageWin s = Fin 0 /\ averageLoss s = Fin 0
        /\ largestWin s = Fin 0 /\ largestLoss s = Fin 0
        /\ averageHoldingPeriod s = Fin 0
        /\ same (exposure s) (Fin 0)
        /\ met_winRate m = Fin 0 /\ met_profitFactor m = PosInf
        /\ same (expectancy m) (Fin (-1))
        /\ same (payoffRatio m) (Fin 0))
  /\ (forall curve config,
        flatAt (initialCapital config) curve ->
        0 < initialCapital config ->
        let s := calculateSummary [] curve config in
        let m := calculateMetrics [] curve config in
        let unbounded := if (2 <=? length curve)%nat then PosInf else Fin 0 in
        sum_maxDrawdown s = Fin 0
        /\ sum_sharpeRatio s = Fin 0
        /\ sum_sortinoRatio s = unbounded
        /\ same (met_cagr m) (Fin 0)
        /\ same (volatility m) (Fin 0)
        /\ met_sharpeRatio m = Fin 0
        /\ met_sortinoRatio m = unbounded
        /\ calmarRatio m = Fin 0
        /\ met_maxDrawdown m = Fin 0
        /\ maxDrawdownDuration m = Fin 0
        /\ (curve <> [] -> same (ulcerIndex m) (Fin 0)))
  /\ (forall r n riskFreeRate,
        r == 0 ->
        sharpeRatio (repeat (Fin r) (Datatypes.S n)) riskFreeRate = Fin 0)
  /\ (forall r riskFreeRate, sharpeRatio [Fin r] riskFreeRate = Fin 0)
  /\ (forall riskFreeRate,
        sharpeRatio [] riskFreeRate = Fin 0
        /\ sortinoRatio [] riskFreeRate = Fin 0)
  /\ (forall trades curve config,
        dd_percent (maxDrawdown (map ep_equity curve)) <= 0 ->
        calmarRatio (calculateMetrics trades curve config) = Fin 0)
  /\ maxDrawdown [] = {| dd_value := 0; dd_percent := 0 |}
  /\ (forall equities,
        Forall (fun e => e <= 0) equities ->
        dd_percent (maxDrawdown equities) = 0)
  /\ (forall startValue endValue years,
        startValue <= 0 \/ years <= 0 ->
        cagr startValue endValue years = Fin 0).
Proof.
  split; [intros; split; apply profitFactor_guard |].
  split; [intros; apply simulate_flat; assumption |].
  split.
  { intros curve config s m. unfold s, m, calculateSummary, calculateMetrics.
    cbn -[Qdiv Qmult Qminus Qplus sharpeRatio sortinoRatio maxDrawdown cagr
          stepReturns getMaxDrawdownDuration sqrt].
    repeat split.
    - destruct (Qltb 0 (initialCapital config)); cbn [same];
        [unfold Qdiv; ring | reflexivity].
    - unfold calculateExposure. destruct curve as [| first rest];
        [reflexivity |].
      destruct (Qltb 0 _); cbn [same]; [| reflexivity].
      change (Qsum (flat_map heldMs [])) with 0. unfold Qdiv. ring. }
  split.
  { intros curve config Hflat Hc s m unbounded.
    set (capital := initialCapital config) in *.
    assert (Hne : ~ capital == 0) by lra.
    pose proof (flat_returns Hflat Hne) as Eret.
    assert (Hr : (capital - capital) / capital == 0) by (unfold Qdiv; ring).
    assert (Edd : maxDrawdown (map ep_equity curve)
                  = {| dd_value := 0; dd_percent := 0 |}).
    { rewrite (flat_equities Hflat). apply maxDrawdown_repeat. }
    assert (Esortino : sortinoRatio (stepReturns curve) (Fin 0) = unbounded).
    { rewrite Eret, (sortinoRatio_zeros _ Hr), pred_leb. reflexivity. }
    assert (Esharpe : sharpeRatio (stepReturns curve) (Fin 0) = Fin 0).
    { rewrite Eret. apply sharpeRatio_repeat. }
    unfold s, m, calculateSummary, calculateMetrics.
    cbn [sum_maxDrawdown sum_sharpeRatio sum_sortinoRatio met_cagr volatility
         met_sharpeRatio met_sortinoRatio calmarRatio met_maxDrawdown
         maxDrawdownDuration ulcerIndex].
    rewrite Edd, Esharpe, Esortino. cbn [dd_percent].
    split; [reflexivity |]. split; [reflexivity |]. split; [reflexivity |].
    fold capital. rewrite (flat_endEquity Hflat).
    split; [apply cagr_flat; exact Hc |].
    split; [rewrite Eret; apply (volatility_zeros _ Hr) |].
    split; [reflexivity |]. split; [reflexivity |].
    split; [reflexivity |]. split; [reflexivity |].
    split; [rewrite (maxDrawdownDuration_flat Hflat); reflexivity |].
    intro Hsome. apply (ulcerIndex_flat Hflat Hsome). }
  split.
  { intros r n riskFreeRate _. apply sharpeRatio_constant. }
  split; [intros r riskFreeRate; apply (sharpeRatio_constant r 0) |].
  split; [intros; split; reflexivity |].
  split.
  { intros trades curve config Hdd. unfold calculateMetrics. cbn [calmarRatio].
    assert (Qltb 0 (dd_percent (maxDrawdown (map ep_equity curve))) = false) as ->
      by (apply Qltb_ge; exact Hdd).
    reflexivity. }
  split; [reflexivity |].
  split; [apply @maxDrawdown_nonpositive |].
  intros startValue endValue years Hguard. unfold cagr.
  assert (Qle_bool startValue 0 || Qle_bool years 0 = true) as ->; [| reflexivity].
  apply orb_true_iff. rewrite !Qle_bool_iff. exact Hguard.
Qed.

(** The theorem with the sample square root and power: a run on an empty
    market history records no trade and leaves an empty curve; on the flat
    curve of two points the Sharpe ratio of the summary is 0 and its Sortino
    ratio is [Infinity]; an empty trade list has profit factor [Infinity]. *)
Lemma statistics_degenerate_witness :
  let flat := [ {| ep_timestamp := 1000; ep_equity := 10000; ep_drawdown := 0;
                   ep_drawdownPercent := 0 |};
                {| ep_timestamp := 2000; ep_equity := 10000; ep_drawdown := 0;
                   ep_drawdownPercent := 0 |} ] in
  let s := @calculateSummary sampleMath [] flat scenarioA_config in
  flatAt 10000 flat
  /\ sum_sharpeRatio s = Fin 0
  /\ sum_sortinoRatio s = PosInf
  /\ profitFactor s = PosInf
  /\ @sharpeRatio sampleMath [Fin 0; Fin 0; Fin 0] (Fin 0) = Fin 0.
Proof.
  intros flat s.
  assert (Hflat : flatAt (initialCapital scenarioA_config) flat).
  { repeat constructor. }
  destruct (@statistics_degenerate sampleMath sample_sqrt_laws sample_pow_laws)
    as (_ & _ & Hempty & Hcurve & Hzeros & _).
  split; [exact Hflat |].
  destruct (Hcurve flat scenarioA_config Hflat ltac:(reflexivity))
    as (_ & Hsharpe & Hsortino & _).
  split; [exact Hsharpe |]. split; [exact Hsortino |].
  split; [apply (Hempty flat scenarioA_config) |].
  apply (Hzeros 0 2%nat (Fin 0)). reflexivity.
Defined.

(** C2 as stated fails on an empty trade list: the gross loss is 0 and the
    gross profit is 0, not positive, yet the profit factor is [Infinity],
    which is not finite.  On a flat curve of two points the Sortino ratio
    of the summary is [Infinity] as well. *)
Lemma profitFactor_of_no_trades :
  let flat := [ {| ep_timestamp := 1000; ep_equity := 10000; ep_drawdown := 0;
                   ep_drawdownPercent := 0 |};
                {| ep_timestamp := 2000; ep_equity := 10000; ep_drawdown := 0;
                   ep_drawdownPercent := 0 |} ] in
  let s := @calculateSummary sampleMath [] flat scenarioA_config in
  grossLoss [] == 0
  /\ ~ 0 < grossProfit []
  /\ profitFactor s = PosInf
  /\ isFinite (profitFactor s) = false
  /\ sum_sortinoRatio s = PosInf.
Proof.
  cbv zeta. split; [reflexivity |]. split; [intro H; discriminate H |].
  repeat split.
Qed.

(* ================================================================== *)
(** ** The curve and the equity of scenario A *)
(* ================================================================== *)

(** The curve theorem at scenario A with the default costs: two points, at
    times 1000 and 2000, the second with the drawdown fields of its peak. *)
Lemma equity_curve_shape_witness :
  let this := constructor {| opt_slippage := None; opt_fees := None |} in
  exists p1 p2,
    equityCurve (scenarioA this) = [p1; p2]
    /\ map ep_timestamp (equityCurve (scenarioA this)) = [1000; 2000]%Z
    /\ drawdownFieldsOf 10000 [p1] p2.
Proof.
  intro this.
  destruct (equity_curve_shape (scripted 100) this scenarioA_config
              scenarioA_data (fun t => t) scenarioA_script)
    as (_ & Hstamps & _ & _ & Hfields & _).
  unfold scenarioA.
  do 2 eexists. split; [vm_compute; reflexivity |].
  split; [rewrite Hstamps; reflexivity |].
  apply (Hfields [_] _ []). reflexivity.
Defined.

(** The equity theorem at scenario A with the default costs: the position
    closes in the second frame, and equity ends at the capital plus the pnl
    of that trade. *)
Lemma equity_follows_frame_trades_witness :
  let this := constructor {| opt_slippage := None; opt_fees := None |} in
  let position := {| pos_side := buy; pos_entryPrice := 0.402;
                     pos_entryTime := 1000; pos_size := 100;
                     pos_signal := signalFor "m" buy None None (Some 0.60) |} in
  let market := snapshotAt "m" 2000 0.60 false in
  let st := withPositions (emptySim 10000 []) [("m"%string, position)] in
  (exists trade,
      trades (exitStep (scripted 100) this (fun t => t) [market] 2000 st
                       ("m"%string, position)) = [trade]
      /\ equity (exitStep (scripted 100) this (fun t => t) [market] 2000 st
                          ("m"%string, position)) = 10000 + tr_pnl trade)
  /\ equity (scenarioA this) == 10000 + sumPnl (trades (scenarioA this)).
Proof.
  intros this position market st.
  destruct (equity_follows_frame_trades (scripted 100) this scenarioA_config
              scenarioA_data (fun t => t) scenarioA_script)
    as (_ & Hstep & _ & Hend & forced & Htrades & _).
  split.
  - exact (Hstep [market] 2000%Z st "m"%string position market eq_refl eq_refl).
  - cbv zeta in Hend. unfold scenarioA. rewrite Hend.
    assert (E : forall a b, a = b -> 10000 + sumPnl a == 10000 + sumPnl b)
      by (intros a b ->; reflexivity).
    apply E. vm_compute. reflexivity.
Defined.

(** The ulcer index divides by the number of points without a guard: over an
    empty curve it is [NaN]. *)
Lemma ulcerIndex_of_empty_curve `{M : MathEnv} (config : BacktestConfig) :
  ulcerIndex (calculateMetrics [] [] config) = NaN.
Proof. reflexivity. Qed.

(* ================================================================== *)
(** * Further properties of the engine *)
(* ================================================================== *)

(** ** The books of the recorded trades *)

(** X1.  Every trade of a run has an exit price and an exit time, and its pnl
    plus its fees is the price difference of its side times its size. *)
Theorem recorded_trades_account {S : Type} (strategy : IStrategy S)
    (this : BacktestEngine) (config : BacktestConfig) (marketData : MarketData)
    (clock : Z -> Z) (s0 : S) :
  Forall tradeAccounts
         (trades (simulate strategy this config marketData clock s0)).
Proof.
  apply simulate_trades_Forall.
  - intros marketId position market date. unfold tradeAccounts.
    do 2 eexists. cbn [tr_exitPrice tr_exitTime tr_pnl tr_fees tr_entryPrice
                          tr_size tr_side closingTrade].
    split; [reflexivity |]. split; [reflexivity |]. ring.
  - intros marketId position market. unfold tradeAccounts.
    do 2 eexists. cbn [tr_exitPrice tr_exitTime tr_pnl tr_fees tr_entryPrice
                          tr_size tr_side finalTrade].
    split; [reflexivity |]. split; [reflexivity |]. ring.
Qed.

(** X2.  A round trip at an unchanged price: a position opened on the price [p]
    and closed while the market still quotes [p] loses the slippage of both
    legs and the fees, whatever its side. *)
Theorem round_trip_cost (this : BacktestEngine) (marketId : string)
    (signal : Signal) (size : Q) (entryTime date : Z) (market : MarketSnapshot) :
  let position :=
    {| pos_side := sig_type signal;
       pos_entryPrice := applySlippage this (m_price market) (sig_type signal);
       pos_entryTime := entryTime;
       pos_size := size;
       pos_signal := signal |} in
  tr_pnl (closingTrade this marketId position market date)
  == - (2 * slippage this * m_price market + 2 * fees this) * size.
Proof.
  cbn [closingTrade tr_pnl pos_side pos_entryPrice pos_size].
  unfold calculatePnL, applySlippage.
  destruct (sig_type signal); cbn [isBuy]; ring.
Qed.

(** ** One trade for each closed position *)

Lemma filter_partition_length {A : Type} (f : A -> bool) (l : list A) :
  (length (filter f l) + length (filter (fun x => negb (f x)) l) = length l)%nat.
Proof.
  induction l as [| x l IH]; simpl; [reflexivity |].
  destruct (f x); simpl; lia.
Qed.

Section ExitAccounting.
Context {S : Type}.
Variable strategy : IStrategy S.
Variable this : BacktestEngine.
Variable clock : Z -> Z.
Variable snapshots : list MarketSnapshot.
Variable date : Z.

Lemma exitLoop_trades (l : Positions) (st : Sim S) :
  let st' := fold_left (exitStep strategy this clock snapshots date) l st in
  trades st' = trades st
               ++ flat_map (closedTrade this snapshots (clock date) date) l
  /\ equity st'
     == equity st
        + sumPnl (flat_map (closedTrade this snapshots (clock date) date) l).
Proof.
  revert st. induction l as [| [marketId position] l IH]; intro st.
  - simpl. rewrite app_nil_r. split; [reflexivity |].
    change (sumPnl []) with 0. ring.
  - cbn [fold_left flat_map]. 
    destruct (IH (exitStep strategy this clock snapshots date st
                           (marketId, position))) as [Ht He].
    cbv zeta in Ht, He. rewrite Ht, He.
    set (rest := flat_map (closedTrade this snapshots (clock date) date) l).
    destruct (exits snapshots (clock date) (marketId, position)) eqn:E.
    + pose proof E as E'. unfold exits in E'. cbn [fst] in E'.
      destruct (findMarket snapshots marketId) as [market |] eqn:F;
        [| discriminate].
      set (t := closingTrade this marketId position market date).
      assert (Hhead : closedTrade this snapshots (clock date) date
                                  (marketId, position) = [t]).
      { unfold closedTrade. cbn [fst snd]. rewrite F, E. reflexivity. }
      rewrite Hhead.
      erewrite exitStep_closes; [| exact F | exact E]. cbn [trades equity].
      fold t. split; [rewrite <- app_assoc; reflexivity |].
      change ([t] ++ rest) with (t :: rest).
      assert (Hcons : sumPnl (t :: rest) == tr_pnl t + sumPnl rest).
      { unfold sumPnl. cbn [fold_left].
        assert (G : forall ts a, fold_left (fun sum t => sum + tr_pnl t) ts a
                                 == a + fold_left (fun sum t => sum + tr_pnl t) ts 0).
        { induction ts as [| u ts IHts]; intro a; cbn [fold_left]; [ring |].
          rewrite (IHts (a + tr_pnl u)), (IHts (0 + tr_pnl u)). ring. }
        rewrite (G rest (0 + tr_pnl t)). ring. }
      rewrite Hcons. ring.
    + assert (Hhead : closedTrade this snapshots (clock date) date
                                  (marketId, position) = []).
      { unfold closedTrade. rewrite E.
        destruct (findMarket snapshots (fst (marketId, position))); reflexivity. }
      rewrite Hhead, exitStep_stays by exact E.
      split; reflexivity.
Qed.

End ExitAccounting.

Lemma closedTrade_length (this : BacktestEngine)
    (snapshots : list MarketSnapshot) (now date : Z) (l : Positions) :
  length (flat_map (closedTrade this snapshots now date) l)
  = length (filter (exits snapshots now) l).
Proof.
  induction l as [| e l IH]; [reflexivity |].
  cbn [flat_map filter]. rewrite length_app, IH. unfold closedTrade.
  destruct (exits snapshots now e) eqn:E.
  - unfold exits in E. destruct (findMarket snapshots (fst e));
      [reflexivity | discriminate E].
  - destruct (findMarket snapshots (fst e)); reflexivity.
Qed.

(** X3.  Exit evaluation closes a position and records its trade in one step:
    with one position per market, the frame's exit loop removes exactly the
    positions that meet the exit test, appends one trade for each of them in
    the order of the map, adds their pnl to equity, and leaves the number of
    positions plus trades unchanged. *)
Theorem exit_loop_accounts {S : Type} (strategy : IStrategy S)
    (this : BacktestEngine) (clock : Z -> Z)
    (snapshots : list MarketSnapshot) (date : Z) (st : Sim S) :
  onePerMarket (positions st) ->
  let st' := exitPositions strategy this clock snapshots date st in
  let closed := flat_map (closedTrade this snapshots (clock date) date)
                         (positions st) in
  positions st'
  = filter (fun e => negb (exits snapshots (clock date) e)) (positions st)
  /\ trades st' = trades st ++ closed
  /\ length closed = length (filter (exits snapshots (clock date)) (positions st))
  /\ (length (positions st') + length (trades st')
      = length (positions st) + length (trades st))%nat
  /\ equity st' == equity st + sumPnl closed.
Proof.
  intros Hone st' closed.
  assert (Hpos : positions st'
                 = filter (fun e => negb (exits snapshots (clock date) e))
                          (positions st))
    by (apply exitPositions_positions; exact Hone).
  destruct (exitLoop_trades strategy this clock snapshots date (positions st) st)
    as [Ht He].
  assert (Hlen : length closed
                 = length (filter (exits snapshots (clock date)) (positions st)))
    by apply closedTrade_length.
  split; [exact Hpos |]. split; [exact Ht |]. split; [exact Hlen |].
  split; [| exact He].
  unfold st', exitPositions in *. rewrite Hpos, Ht, length_app.
  fold closed. rewrite Hlen.
  pose proof (filter_partition_length (exits snapshots (clock date)) (positions st)).
  lia.
Qed.

(** The theorem at a frame with two open positions, one of which meets its
    target. *)
Lemma exit_loop_accounts_witness :
  let this := constructor {| opt_slippage := None; opt_fees := None |} in
  let hit := {| pos_side := buy; pos_entryPrice := 0.402; pos_entryTime := 1000;
                pos_size := 100;
                pos_signal := signalFor "a" buy None None (Some 0.60) |} in
  let held := {| pos_side := buy; pos_entryPrice := 0.201; pos_entryTime := 1000;
                 pos_size := 50;
                 pos_signal := signalFor "b" buy None None (Some 0.90) |} in
  let frame := [snapshotAt "a" 2000 0.60 false; snapshotAt "b" 2000 0.30 false] in
  let st := withPositions (emptySim 10000 [])
                          [("a"%string, hit); ("b"%string, held)] in
  let st' := exitPositions (scripted 100) this (fun t => t) frame 2000 st in
  onePerMarket (positions st)
  /\ positions st' = [("b"%string, held)]
  /\ length (trades st') = 1%nat.
Proof.
  intros this hit held frame st st'.
  assert (Hone : onePerMarket (positions st)).
  { repeat constructor; simpl; intuition discriminate. }
  destruct (exit_loop_accounts (scripted 100) this (fun t => t) frame 2000 st Hone)
    as (Hpos & Ht & Hlen & _).
  split; [exact Hone |]. split.
  - unfold st'. rewrite Hpos. reflexivity.
  - unfold st'. rewrite Ht, length_app, Hlen. reflexivity.
Defined.

(** ** Signal intake *)

(** X4.  Signal intake never records a trade and never touches equity, the peak,
    the curve or the notifications.  When the cap is reached or the signal's
    market already holds a position, the strategy is not consulted and the
    state is unchanged altogether; a signal the strategy does not validate,
    a signal for a market that is absent from the frame or resolved, and a
    signal sized below 1 open no position. *)
Theorem signal_rejections {S : Type} (strategy : IStrategy S)
    (this : BacktestEngine) (config : BacktestConfig)
    (snapshots : list MarketSnapshot) (date : Z) (st : Sim S) (signal : Signal) :
  let st' := signalStep strategy this config snapshots date st signal in
  (trades st' = trades st /\ equity st' = equity st
   /\ peakEquity st' = peakEquity st /\ equityCurve st' = equityCurve st
   /\ notified st' = notified st)
  /\ ((positionCap config <= length (positions st))%nat -> st' = st)
  /\ (Map_has (positions st) (sig_marketId signal) = true -> st' = st)
  /\ ((length (positions st) < positionCap config)%nat ->
      Map_has (positions st) (sig_marketId signal) = false ->
      fst (validateSignal strategy (strat st) signal) = false ->
      st' = withStrat st (snd (validateSignal strategy (strat st) signal)))
  /\ (findMarket snapshots (sig_marketId signal) = None ->
      positions st' = positions st)
  /\ (forall market,
        findMarket snapshots (sig_marketId signal) = Some market ->
        m_resolved market = true ->
        positions st' = positions st)
  /\ (forall s1,
        snd (validateSignal strategy (strat st) signal) = s1 ->
        fst (getPositionSize strategy s1 signal (equity st)) < 1 ->
        positions st' = positions st).
Proof.
  intro st'. split.
  { unfold st'. rewrite signalStep_trades, signalStep_equity, signalStep_notified.
    destruct (signalStep_curve strategy this config snapshots date st signal)
      as [-> ->]. repeat split. }
  unfold st', signalStep. rewrite capReached_cap. split.
  { intro Hcap. apply Nat.leb_le in Hcap. rewrite Hcap. reflexivity. }
  destruct (_ <=? _)%nat eqn:Cap.
  { apply Nat.leb_le in Cap. repeat split; try reflexivity. intros; lia. }
  split; [intros ->; reflexivity |].
  destruct (Map_has _ _).
  { repeat split; try reflexivity. intros; discriminate. }
  destruct (validateSignal strategy (strat st) signal) as [isValid s1].
  cbn [fst snd]. split; [intros _ _ ->; reflexivity |].
  destruct isValid; cbn [negb]; [| repeat split; reflexivity].
  split; [intros ->; reflexivity |].
  split.
  { intros market -> ->. reflexivity. }
  intros s1' <- Hsize. cbn [strat withStrat equity].
  destruct (findMarket _ _) as [market |]; [| reflexivity].
  destruct (m_resolved market); [reflexivity |].
  destruct (getPositionSize strategy s1 signal (equity st)) as [size s2].
  cbn [fst] in Hsize. apply Qltb_lt in Hsize.
  rewrite belowMinimum_Fin, Hsize. reflexivity.
Qed.

(** The theorem at a signal for a market that the frame shows resolved. *)
Lemma signal_rejections_witness :
  let this := constructor {| opt_slippage := None; opt_fees := None |} in
  let settled := snapshotAt "m" 1000 1 true in
  let st := emptySim 10000 ([] : list (list Signal)) in
  findMarket [settled] "m" = Some settled
  /\ m_resolved settled = true
  /\ positions (signalStep (scripted 100) this scenarioA_config [settled] 1000 st
                           (signalFor "m" buy None None None)) = [].
Proof.
  intros this settled st.
  destruct (signal_rejections (scripted 100) this scenarioA_config [settled]
              1000 st (signalFor "m" buy None None None))
    as (_ & _ & _ & _ & _ & Hresolved & _).
  split; [reflexivity |]. split; [reflexivity |].
  exact (Hresolved settled eq_refl eq_refl).
Defined.

(** ** The closing loop *)

(** X5.  After the last frame nothing changes but the trade list: each position
    still open adds one trade when some market's last snapshot carries its
    market id and none otherwise; the positions stay in the map, equity and
    the curve stay as they were, and the strategy is not notified of these
    trades, so the notifications match the trades closed during frames. *)
Theorem final_close_is_silent {S : Type} (strategy : IStrategy S)
    (this : BacktestEngine) (config : BacktestConfig) (marketData : MarketData)
    (clock : Z -> Z) (s0 : S) :
  let frames := runFrames strategy this config marketData clock
                          (sortedTimestamps marketData) (initialSim config s0) in
  let final := simulate strategy this config marketData clock s0 in
  trades final
  = trades frames ++ flat_map (forcedTrade this config marketData) (positions frames)
  /\ (length (trades final) <= length (trades frames) + length (positions frames))%nat
  /\ positions final = positions frames
  /\ equityCurve final = equityCurve frames
  /\ strat final = strat frames
  /\ notified final = notified frames
  /\ Forall2 reports (trades frames) (notified final).
Proof.
  intros frames final. unfold final, simulate, closeRemaining.
  fold frames. rewrite closingLoop_exact.
  cbn [trades positions equityCurve strat notified].
  split; [reflexivity |]. split.
  - rewrite length_app.
    assert (length (flat_map (forcedTrade this config marketData) (positions frames))
            <= length (positions frames))%nat; [| lia].
    induction (positions frames) as [| e l IH]; [simpl; lia |].
    cbn [flat_map]. rewrite length_app. unfold forcedTrade at 1.
    destruct (findMarket _ _); simpl in *; lia.
  - repeat split. apply runFrames_notified.
Qed.

(** ** What holds of every position and of every trade *)

Section FrameEntries.
Context {S : Type}.
Variable strategy : IStrategy S.
Variable this : BacktestEngine.
Variable config : BacktestConfig.
Variable marketData : MarketData.
Variable clock : Z -> Z.

(** The position a signal opens has a size of at least 1 and a market that
    the frame shows unresolved. *)
Lemma signalStep_opened snapshots date (st : Sim S) signal :
  let st' := signalStep strategy this config snapshots date st signal in
  positions st' = positions st
  \/ exists market size,
       1 <= size
       /\ findMarket snapshots (sig_marketId signal) = Some market
       /\ m_resolved market = false
       /\ positions st'
          = positions st ++
              [(sig_marketId signal,
                {| pos_side := sig_type signal;
                   pos_entryPrice :=
                     applySlippage this
                       (orElse (sig_entryPrice signal) (m_price market))
                       (sig_type signal);
                   pos_entryTime := date;
                   pos_size := size;
                   pos_signal := signal |})].
Proof.
  unfold signalStep. rewrite capReached_cap.
  destruct (_ <=? _)%nat; [left; reflexivity |].
  destruct (Map_has _ _) eqn:Has; [left; reflexivity |].
  destruct (validateSignal _ _ _) as [isValid s1].
  destruct isValid; simpl; [| left; reflexivity].
  destruct (findMarket _ _) as [market |]; [| left; reflexivity].
  destruct (m_resolved market) eqn:R; [left; reflexivity |].
  destruct (getPositionSize _ _ _ _) as [positionSize s2].
  destruct (Qltb positionSize 1) eqn:Small; [left; reflexivity |].
  right. exists market, positionSize. apply Qltb_ge in Small. simpl.
  repeat split; try assumption. apply Map_set_new. exact Has.
Qed.

Section OneFrame.
Variable t : Z.
Variables QP QP' : string * Position -> Prop.
Variable QT : BacktestTrade -> Prop.
Hypothesis QP_weak : forall e, QP e -> QP' e.
Hypothesis QT_close :
  forall e market, QP e -> QT (closingTrade this (fst e) (snd e) market t).
Hypothesis QP_open :
  forall signal market size,
    1 <= size ->
    QP' (sig_marketId signal,
         {| pos_side := sig_type signal;
            pos_entryPrice :=
              applySlippage this (orElse (sig_entryPrice signal) (m_price market))
                            (sig_type signal);
            pos_entryTime := t;
            pos_size := size;
            pos_signal := signal |}).

Lemma frameStep_entries (st : Sim S) :
  Forall QP (positions st) -> Forall QT (trades st) ->
  let st' := frameStep strategy this config marketData clock st t in
  Forall QP' (positions st') /\ Forall QT (trades st').
Proof.
  intros Hp Ht. unfold frameStep.
  destruct (length _ =? 0)%nat.
  { split; [eapply Forall_impl; [exact QP_weak | exact Hp] | exact Ht]. }
  destruct (generateSignals _ _ _) as [signals s] eqn:G.
  set (snapshots := currentSnapshots marketData t) in *.
  assert (Hexit : Forall QP' (positions (exitPositions strategy this clock snapshots t st))
                  /\ Forall QT (trades (exitPositions strategy this clock snapshots t st))).
  { unfold exitPositions. split.
    - rewrite exitLoop_positions. eapply Forall_impl; [exact QP_weak |].
      apply Forall_forall. intros e He. apply filter_In in He.
      rewrite Forall_forall in Hp. apply Hp. tauto.
    - destruct (exitLoop_trades strategy this clock snapshots t (positions st) st)
        as [-> _].
      apply Forall_app. split; [exact Ht |].
      apply Forall_forall. intros tr Htr. apply in_flat_map in Htr.
      destruct Htr as (e & He & Htr). unfold closedTrade in Htr.
      destruct (findMarket snapshots (fst e)) as [market |]; [| destruct Htr].
      destruct (exits _ _ _); [| destruct Htr].
      destruct Htr as [<- | []]. apply QT_close.
      rewrite Forall_forall in Hp. apply Hp. exact He. }
  cbn [recordEquity positions trades]. unfold processSignals.
  apply fold_left_inv
    with (P := fun s' : Sim S => Forall QP' (positions s') /\ Forall QT (trades s'));
    [| exact Hexit].
  intros s' signal _ [Hp' Ht']. rewrite signalStep_trades. split; [| exact Ht'].
  destruct (signalStep_opened snapshots t s' signal)
    as [-> | (market & size & Hsize & _ & _ & ->)]; [exact Hp' |].
  apply Forall_app. split; [exact Hp' |].
  constructor; [apply QP_open; exact Hsize | constructor].
Qed.

End OneFrame.

Lemma runFrames_sizes (timestamps : list Z) (st : Sim S) :
  Forall (fun e => 1 <= pos_size (snd e)) (positions st) ->
  Forall (fun tr => 1 <= tr_size tr) (trades st) ->
  let st' := runFrames strategy this config marketData clock timestamps st in
  Forall (fun e => 1 <= pos_size (snd e)) (positions st')
  /\ Forall (fun tr => 1 <= tr_size tr) (trades st').
Proof.
  revert st. induction timestamps as [| t rest IH]; intros st Hp Ht.
  - split; assumption.
  - cbn [runFrames fold_left].
    destruct (@frameStep_entries t (fun e => 1 <= pos_size (snd e))
                (fun e => 1 <= pos_size (snd e)) (fun tr => 1 <= tr_size tr))
      with (st := st) as [Hp' Ht']; auto.
    apply IH; assumption.
Qed.

Lemma runFrames_times (timestamps : list Z) (st : Sim S) :
  StronglySorted Z.lt timestamps ->
  Forall (fun e => Forall (fun t => (pos_entryTime (snd e) < t)%Z) timestamps)
         (positions st) ->
  Forall exitsAfterEntry (trades st) ->
  Forall exitsAfterEntry
         (trades (runFrames strategy this config marketData clock timestamps st)).
Proof.
  revert st. induction timestamps as [| t rest IH]; intros st Hs Hp Ht.
  - exact Ht.
  - cbn [runFrames fold_left]. inversion Hs as [| ? ? Hs' Hlt]; subst.
    assert (Hweak : forall e : string * Position,
               Forall (fun u => (pos_entryTime (snd e) < u)%Z) (t :: rest) ->
               Forall (fun u => (pos_entryTime (snd e) < u)%Z) rest)
      by (intros e He; inversion He; assumption).
    assert (Hclose : forall (e : string * Position) market,
               Forall (fun u => (pos_entryTime (snd e) < u)%Z) (t :: rest) ->
               exitsAfterEntry (closingTrade this (fst e) (snd e) market t)).
    { intros e market He. inversion He; subst.
      eexists. split; [reflexivity | assumption]. }
    destruct (@frameStep_entries t _ _ _ Hweak Hclose
                (fun signal market size _ => Hlt) st Hp Ht) as [Hp' Ht'].
    apply IH; assumption.
Qed.

End FrameEntries.

(** X6.  The size test of the signal loop is [positionSize < 1]: a finite
    size passes it exactly when it is at least 1 and [-Infinity] is
    rejected, but [NaN] and [Infinity] pass, a comparison with [NaN] being
    false.  The engine is followed here for strategies that return finite
    sizes; for them, after any frames every open position has a size of at
    least 1, and so has every trade of a run, those of the closing loop
    included. *)
Theorem finite_sizes_at_least_one {S : Type} (strategy : IStrategy S)
    (this : BacktestEngine) (config : BacktestConfig) (marketData : MarketData)
    (clock : Z -> Z) (s0 : S) :
  (forall size : Q, belowMinimum (Fin size) = false <-> 1 <= size)
  /\ belowMinimum NaN = false
  /\ belowMinimum PosInf = false
  /\ belowMinimum NegInf = true
  /\ (forall timestamps,
        Forall (fun e => belowMinimum (Fin (pos_size (snd e))) = false
                         /\ 1 <= pos_size (snd e))
               (positions (runFrames strategy this config marketData clock
                                     timestamps (initialSim config s0))))
  /\ Forall (fun tr => belowMinimum (Fin (tr_size tr)) = false
                       /\ 1 <= tr_size tr)
            (trades (simulate strategy this config marketData clock s0)).
Proof.
  assert (Hfin : forall size : Q, belowMinimum (Fin size) = false <-> 1 <= size).
  { intro size. rewrite belowMinimum_Fin. apply Qltb_ge. }
  split; [exact Hfin |]. split; [reflexivity |]. split; [reflexivity |].
  split; [reflexivity |]. split.
  - intro timestamps.
    destruct (runFrames_sizes strategy this config marketData clock timestamps
                (initialSim config s0)) as [Hp _]; [constructor | constructor |].
    cbv zeta in Hp. eapply Forall_impl; [| exact Hp].
    intros e He. split; [apply Hfin |]; exact He.
  - unfold simulate, closeRemaining. rewrite closingLoop_exact. cbn [trades].
    destruct (runFrames_sizes strategy this config marketData clock
                (sortedTimestamps marketData) (initialSim config s0))
      as [Hp Ht]; [constructor | constructor |].
    cbv zeta in Hp, Ht. apply Forall_app. split.
    + eapply Forall_impl; [| exact Ht].
      intros tr Htr. split; [apply Hfin |]; exact Htr.
    + apply Forall_forall. intros tr Htr. apply in_flat_map in Htr.
      destruct Htr as (e & He & Htr). unfold forcedTrade in Htr.
      destruct (findMarket _ _) as [market |]; [| destruct Htr].
      destruct Htr as [<- | []]. cbn [finalTrade tr_size].
      rewrite Forall_forall in Hp. split; [apply Hfin |]; apply Hp; exact He.
Qed.

(** X7.  A position is never closed in the frame that opened it: every trade
    closed during the frames of a run has its exit time strictly after its
    entry time. *)
Theorem frame_trades_exit_after_entry {S : Type} (strategy : IStrategy S)
    (this : BacktestEngine) (config : BacktestConfig) (marketData : MarketData)
    (clock : Z -> Z) (s0 : S) :
  Forall exitsAfterEntry
         (trades (runFrames strategy this config marketData clock
                            (sortedTimestamps marketData) (initialSim config s0))).
Proof.
  apply runFrames_times;
    [apply sortedTimestamps_increasing | constructor | constructor].
Qed.

(** ** The engine's cost options *)

(** X8.  A non-zero option is taken as it is; an absent option and an option of 0
    give the default, 0.005 for slippage and 0.02 for fees; so no engine has
    zero slippage or zero fees. *)
Theorem constructor_options (options : Options) :
  (forall s, opt_slippage options = Some s -> ~ s == 0 ->
             slippage (constructor options) = s)
  /\ (forall f, opt_fees options = Some f -> ~ f == 0 ->
                fees (constructor options) = f)
  /\ (opt_slippage options = None
      \/ (exists s, opt_slippage options = Some s /\ s == 0) ->
      slippage (constructor options) = 0.005)
  /\ (opt_fees options = None
      \/ (exists f, opt_fees options = Some f /\ f == 0) ->
      fees (constructor options) = 0.02)
  /\ ~ slippage (constructor options) == 0
  /\ ~ fees (constructor options) == 0.
Proof.
  assert (Hkeep : forall x d q, x = Some q -> ~ q == 0 -> orElse x d = q).
  { intros x d q -> Hq. unfold orElse. destruct (Qeq_bool q 0) eqn:E;
      [apply Qeq_bool_iff in E; contradiction | reflexivity]. }
  assert (Hdef : forall x d,
             x = None \/ (exists q, x = Some q /\ q == 0) -> orElse x d = d).
  { intros x d [-> | (q & -> & Hq)]; [reflexivity |]. unfold orElse.
    apply Qeq_bool_iff in Hq. rewrite Hq. reflexivity. }
  unfold constructor. cbn [slippage fees].
  repeat split; try (intros; apply Hkeep; assumption);
    try (intros; apply Hdef; assumption);
    apply orElse_nonzero; intro H; discriminate H.
Qed.

(** The theorem at the options of the README, slippage 0.005 and fees 0.02,
    and at a requested slippage of 0. *)
Lemma constructor_options_witness :
  slippage (constructor {| opt_slippage := Some 0.01; opt_fees := Some 0.02 |})
  = 0.01
  /\ slippage (constructor {| opt_slippage := Some 0; opt_fees := None |})
     = 0.005.
Proof.
  split.
  - apply (proj1 (constructor_options
                    {| opt_slippage := Some 0.01; opt_fees := Some 0.02 |}));
      [reflexivity | intro H; discriminate H].
  - apply (proj1 (proj2 (proj2 (constructor_options
                                 {| opt_slippage := Some 0; opt_fees := None |})))).
    right. exists 0. split; reflexivity.
Defined.

(** ** The statistics helper [maxDrawdown] *)

Lemma peak_update_is_max (peak equity : Q) :
  (if Qltb peak equity then equity else peak) = Qmax peak equity.
Proof.
  unfold Qmax, GenericMinMax.gmax.
  destruct (Qltb peak equity) eqn:E.
  - apply Qltb_lt in E.
    destruct (Qcompare_spec peak equity); [lra | reflexivity | lra].
  - apply Qltb_ge in E.
    destruct (Qcompare_spec peak equity); [reflexivity | lra | reflexivity].
Qed.

Lemma snoc_split {A : Type} (done pre post : list A) (e x : A) :
  done ++ [e] = pre ++ x :: post ->
  (post = [] /\ pre = done /\ x = e)
  \/ exists post', post = post' ++ [e] /\ done = pre ++ x :: post'.
Proof.
  intro E. destruct post as [| a post'] using rev_ind.
  - apply app_inj_tail in E. left. intuition congruence.
  - clear IHpost'. right. exists post'.
    rewrite app_comm_cons, app_assoc in E. apply app_inj_tail in E.
    destruct E as [-> ->]. auto.
Qed.

Lemma runningPeak_ge_last (capital : Q) (equities : list Q) (e : Q) :
  e <= runningPeak capital (equities ++ [e]).
Proof. rewrite runningPeak_snoc. apply Q.le_max_r. Qed.

Lemma maxDrawdown_step_keeps (e0 : Q) (done : list Q) (st : Q * Q * Q) (e : Q) :
  drawdownSoFar e0 done st ->
  drawdownSoFar e0 (done ++ [e]) (maxDrawdown_step st e).
Proof.
  destruct st as [[pk md] pct]. unfold drawdownSoFar, maxDrawdown_step.
  intros (Hpk & Hmd & Hpct & Hall & Hat & Hone).
  rewrite peak_update_is_max, Hpk, <- runningPeak_snoc.
  set (pk' := runningPeak e0 (done ++ [e])).
  assert (Hge : e <= pk') by apply runningPeak_ge_last.
  assert (Hold : forall pre x post,
             done = pre ++ x :: post -> done ++ [e] = pre ++ x :: (post ++ [e])).
  { intros pre x post ->. rewrite <- app_assoc. reflexivity. }
  assert (Hratio : 0 <= (if Qltb 0 pk' then (pk' - e) / pk' else 0)
                   /\ (0 <= e -> (if Qltb 0 pk' then (pk' - e) / pk' else 0) <= 1)).
  { destruct (Qltb 0 pk') eqn:P; [| split; intros; lra].
    apply Qltb_lt in P. split.
    - apply Qle_shift_div_l; [exact P | lra].
    - intro He. apply Qle_shift_div_r; [exact P | lra]. }
  destruct (Qltb md (pk' - e)) eqn:Deeper.
  - apply Qltb_lt in Deeper.
    split; [reflexivity |]. split; [lra |]. split; [apply Hratio |].
    split; [| split].
    + intros pre x post E. apply snoc_split in E.
      destruct E as [(-> & -> & ->) | (post' & -> & E)].
      * fold pk'. lra.
      * specialize (Hall pre x post' E). lra.
    + right. exists done, e, []. fold pk'. repeat split; reflexivity.
    + intro Hnn. apply Forall_app in Hnn. destruct Hnn as [_ He].
      inversion He; subst. apply Hratio. assumption.
  - apply Qltb_ge in Deeper.
    split; [reflexivity |]. split; [exact Hmd |]. split; [exact Hpct |].
    split; [| split].
    + intros pre x post E. apply snoc_split in E.
      destruct E as [(-> & -> & ->) | (post' & -> & E)].
      * fold pk'. exact Deeper.
      * exact (Hall pre x post' E).
    + destruct Hat as [Hzero | (pre & x & post & E & Hm & Hp)]; [left; exact Hzero |].
      right. exists pre, x, (post ++ [e]). split; [apply Hold; exact E | auto].
    + intro Hnn. apply Forall_app in Hnn. apply Hone. tauto.
Qed.

Lemma maxDrawdown_loop (e0 : Q) (l done : list Q) (st : Q * Q * Q) :
  drawdownSoFar e0 done st ->
  drawdownSoFar e0 (done ++ l) (fold_left maxDrawdown_step l st).
Proof.
  revert done st. induction l as [| e l IH]; intros done st H.
  - rewrite app_nil_r. exact H.
  - cbn [fold_left].
    replace (done ++ e :: l) with ((done ++ [e]) ++ l)
      by (rewrite <- app_assoc; reflexivity).
    apply IH. apply maxDrawdown_step_keeps. exact H.
Qed.

(** X9.  [maxDrawdown] of a non-empty curve: its value is the deepest gap between
    the running peak and the equity, reached at some point of the curve and
    never negative; its percentage is the gap at that point over the peak at
    that point (0 when that peak is not positive), never negative, and at
    most 1 when no equity value is negative. *)
Theorem maxDrawdown_deepest (e0 : Q) (rest : list Q) :
  let curve := e0 :: rest in
  let d := maxDrawdown curve in
  0 <= dd_value d
  /\ 0 <= dd_percent d
  /\ (forall pre e post,
        curve = pre ++ e :: post ->
        runningPeak e0 (pre ++ [e]) - e <= dd_value d)
  /\ (exists pre e post,
        curve = pre ++ e :: post
        /\ dd_value d == runningPeak e0 (pre ++ [e]) - e
        /\ dd_percent d
           == (if Qltb 0 (runningPeak e0 (pre ++ [e]))
               then (runningPeak e0 (pre ++ [e]) - e)
                    / runningPeak e0 (pre ++ [e])
               else 0))
  /\ (Forall (fun e => 0 <= e) curve -> dd_percent d <= 1).
Proof.
  intros curve d.
  assert (H0 : drawdownSoFar e0 [] (e0, 0, 0)).
  { unfold drawdownSoFar. split; [reflexivity |]. split; [lra |]. split; [lra |].
    split; [| split].
    - intros pre e post E. destruct pre; discriminate E.
    - left. split; reflexivity.
    - intros _. lra. }
  pose proof (@maxDrawdown_loop e0 curve [] _ H0) as H. cbn [app] in H.
  unfold d, maxDrawdown. subst d. unfold curve in *. clear curve.
  destruct (fold_left maxDrawdown_step (e0 :: rest) (e0, 0, 0)) as [[pk md] pct].
  unfold drawdownSoFar in H. cbn [dd_value dd_percent].
  destruct H as (_ & Hmd & Hpct & Hall & Hat & Hone).
  split; [exact Hmd |]. split; [exact Hpct |]. split; [exact Hall |].
  split; [| exact Hone].
  destruct Hat as [[Hm Hp] | Hat]; [| exact Hat].
  exists [], e0, rest. split; [reflexivity |].
  assert (Hpk : runningPeak e0 ([] ++ [e0]) == e0).
  { unfold runningPeak. cbn [app fold_left]. apply Q.max_l. lra. }
  split; [rewrite Hm, Hpk; ring |].
  rewrite Hp. destruct (Qltb 0 (runningPeak e0 ([] ++ [e0]))) eqn:P;
    [| reflexivity].
  apply Qltb_lt in P. rewrite Hpk in *. field. lra.
Qed.

(** The theorem at the curve 100, 90, 80, 95, 110: the gap of 20 at the third
    point is within the reported value, and the percentage is at most 1. *)
Lemma maxDrawdown_deepest_witness :
  Forall (fun e => 0 <= e) [100; 90; 80; 95; 110]
  /\ runningPeak 100 ([100; 90] ++ [80]) - 80
     <= dd_value (maxDrawdown [100; 90; 80; 95; 110])
  /\ dd_percent (maxDrawdown [100; 90; 80; 95; 110]) <= 1.
Proof.
  assert (Hnn : Forall (fun e => 0 <= e) [100; 90; 80; 95; 110])
    by (repeat constructor; discriminate).
  destruct (maxDrawdown_deepest 100 [90; 80; 95; 110])
    as (_ & _ & Hall & _ & Hone).
  split; [exact Hnn |]. split.
  - exact (Hall [100; 90] 80 [95; 110] eq_refl).
  - exact (Hone Hnn).
Defined.

(** ** The summary *)

Lemma sumPnl_cons (t : BacktestTrade) (ts : list BacktestTrade) :
  sumPnl (t :: ts) == tr_pnl t + sumPnl ts.
Proof.
  unfold sumPnl. cbn [fold_left].
  assert (G : forall l a, fold_left (fun sum t => sum + tr_pnl t) l a
                          == a + fold_left (fun sum t => sum + tr_pnl t) l 0).
  { induction l as [| u l IH]; intro a; cbn [fold_left]; [ring |].
    rewrite (IH (a + tr_pnl u)), (IH (0 + tr_pnl u)). ring. }
  rewrite (G ts (0 + tr_pnl t)). ring.
Qed.

Lemma sumPnl_winners_losers (trades : list BacktestTrade) :
  0 <= sumPnl (winners trades)
  /\ sumPnl (losers trades) <= 0
  /\ sumPnl trades == sumPnl (winners trades) + sumPnl (losers trades)
  /\ (winners trades <> [] -> 0 < sumPnl (winners trades))
  /\ (losers trades <> [] -> sumPnl (losers trades) < 0)
  /\ (length (winners trades) + length (losers trades) <= length trades)%nat.
Proof.
  induction trades as [| t ts (Hw & Hl & Hsum & Hwp & Hlp & Hlen)].
  - change (sumPnl []) with 0. cbn.
    repeat split; try lra; try (intro H; contradiction); lia.
  - unfold winners, losers in *. cbn [filter].
    destruct (Qltb 0 (tr_pnl t)) eqn:W; destruct (Qltb (tr_pnl t) 0) eqn:L;
      try (apply Qltb_lt in W); try (apply Qltb_lt in L);
      try (apply Qltb_ge in W); try (apply Qltb_ge in L);
      rewrite ?sumPnl_cons; cbn [length];
      repeat split; try lra; try lia;
      try (intros _; lra); try assumption.
Qed.

(** X10.  The summary of any trade list: totalPnl is the gross profit less the
    gross loss; winners and losers together are at most all trades; winRate
    lies between 0 and 1; the averages are never negative and positive as
    soon as a winner, respectively a loser, exists; and the profit factor is
    a finite non-negative number whenever there is a gross loss. *)
Theorem summary_identities `{M : MathEnv} (trades : list BacktestTrade)
    (curve : list EquityPoint) (config : BacktestConfig) :
  let s := calculateSummary trades curve config in
  totalPnl s = Fin (sumPnl trades)
  /\ sumPnl trades == grossProfit trades - grossLoss trades
  /\ (winningTrades s + losingTrades s <= totalTrades s)%nat
  /\ (exists w, winRate s = Fin w /\ 0 <= w <= 1)
  /\ (exists a, averageWin s = Fin a /\ 0 <= a /\ (winners trades <> [] -> 0 < a))
  /\ (exists a, averageLoss s = Fin a /\ 0 <= a /\ (losers trades <> [] -> 0 < a))
  /\ (0 < grossLoss trades ->
      exists pf, profitFactor s = Fin pf /\ 0 <= pf).
Proof.
  destruct (sumPnl_winners_losers trades) as (Hw & Hl & Hsum & Hwp & Hlp & Hlen).
  assert (Hgl : grossLoss trades == - sumPnl (losers trades))
    by (unfold grossLoss; apply Qabs_neg; exact Hl).
  assert (Hpos : forall (A : Type) (l : list A), l <> [] -> 0 < len l).
  { intros A [| x l] H; [contradiction | apply len_positive]. }
  assert (Hnil : forall (A : Type) (l : list A),
             (0 <? length l)%nat = true <-> l <> []).
  { intros A [| x l]; split; intro H.
    - vm_compute in H. discriminate H.
    - exfalso. apply H. reflexivity.
    - discriminate.
    - reflexivity. }
  cbv zeta. unfold calculateSummary.
  cbn [totalPnl winningTrades losingTrades totalTrades winRate averageWin
       averageLoss profitFactor].
  split; [reflexivity |].
  split; [unfold grossProfit; rewrite Hgl, Hsum; ring |].
  split; [exact Hlen |].
  split; [| split; [| split]].
  - destruct (0 <? length trades)%nat eqn:N; [| exists 0; split; [reflexivity | lra]].
    apply Hnil in N. eexists. split; [reflexivity |].
    assert (HT : 0 < len trades) by (apply Hpos; exact N).
    assert (HW : 0 <= len (winners trades) <= len trades).
    { unfold len. rewrite <- !Zle_Qle. change 0 with (inject_Z 0).
      rewrite <- Zle_Qle. lia. }
    split.
    + apply Qle_shift_div_l; [exact HT | lra].
    + apply Qle_shift_div_r; [exact HT | lra].
  - destruct (0 <? length (winners trades))%nat eqn:N.
    + apply Hnil in N. eexists. split; [reflexivity |].
      pose proof (Hpos _ _ N) as HL. specialize (Hwp N). unfold grossProfit.
      assert (0 < sumPnl (winners trades) / len (winners trades))
        by (apply Qlt_shift_div_l; [exact HL | lra]).
      split; [lra | intros _; assumption].
    + exists 0. split; [reflexivity |]. split; [lra |].
      intro H. apply Hnil in H. congruence.
  - destruct (0 <? length (losers trades))%nat eqn:N.
    + apply Hnil in N. eexists. split; [reflexivity |].
      pose proof (Hpos _ _ N) as HL. specialize (Hlp N).
      assert (0 < grossLoss trades / len (losers trades))
        by (apply Qlt_shift_div_l; [exact HL | lra]).
      split; [lra | intros _; assumption].
    + exists 0. split; [reflexivity |]. split; [lra |].
      intro H. apply Hnil in H. congruence.
  - intro Hloss. apply Qltb_lt in Hloss. rewrite Hloss. eexists.
    split; [reflexivity |]. apply Qltb_lt in Hloss. unfold grossProfit.
    apply Qle_shift_div_l; [exact Hloss | lra].
Qed.

(** The theorem at the pnl series -10, -5, 30: a gross loss of 15 and a
    profit factor of 2. *)
Lemma summary_identities_witness :
  let tradeOf := fun pnl =>
    {| tr_marketId := "m"; tr_outcomeId := "yes"; tr_side := buy;
       tr_entryTime := 1000; tr_exitTime := Some 2000%Z; tr_entryPrice := 0.5;
       tr_exitPrice := Some 0.6; tr_size := 100; tr_pnl := pnl;
       tr_pnlPercent := Fin 0; tr_fees := 0; tr_slippage := 0;
       tr_signal := signalFor "m" buy None None None |} in
  let trades := [tradeOf (-10); tradeOf (-5); tradeOf 30] in
  0 < grossLoss trades
  /\ exists pf,
       profitFactor (@calculateSummary sampleMath trades [] scenarioA_config)
       = Fin pf /\ 0 <= pf.
Proof.
  intros tradeOf trades.
  assert (Hloss : 0 < grossLoss trades) by reflexivity.
  split; [exact Hloss |].
  exact (proj2 (proj2 (proj2 (proj2 (proj2 (proj2
           (@summary_identities sampleMath trades [] scenarioA_config))))))
           Hloss).
Defined.

Lemma maxOf_from (a : Q) (qs : list Q) :
  exists m, fold_left max (map Fin qs) (Fin a) = Fin m
            /\ In m (a :: qs)
            /\ forall x, In x (a :: qs) -> x <= m.
Proof.
  revert a. induction qs as [| q qs IH]; intro a.
  - exists a. simpl. split; [reflexivity |]. split; [auto |].
    intros x [<- | []]. apply Qle_refl.
  - cbn [map fold_left]. unfold max at 2, ltb.
    destruct (Qltb a q) eqn:E.
    + apply Qltb_lt in E. destruct (IH q) as (m & -> & Hin & Hall).
      exists m. split; [reflexivity |]. split; [right; exact Hin |].
      intros x [<- | Hx]; [| apply Hall; exact Hx].
      specialize (Hall q (or_introl eq_refl)). lra.
    + apply Qltb_ge in E. destruct (IH a) as (m & -> & Hin & Hall).
      exists m. split; [reflexivity |]. split.
      * destruct Hin as [<- | Hin]; [left; reflexivity | right; right; exact Hin].
      * intros x [<- | [<- | Hx]].
        -- apply Hall. left; reflexivity.
        -- specialize (Hall a (or_introl eq_refl)). lra.
        -- apply Hall. right; exact Hx.
Qed.

Lemma maxOf_Fin (q : Q) (qs : list Q) :
  exists m, maxOf (map Fin (q :: qs)) = Fin m
            /\ In m (q :: qs)
            /\ forall x, In x (q :: qs) -> x <= m.
Proof. unfold maxOf. cbn [map fold_left]. apply maxOf_from. Qed.

Lemma sumPnl_bounds (ts : list BacktestTrade) (m : Q) :
  (Forall (fun t => tr_pnl t <= m) ts -> sumPnl ts <= len ts * m)
  /\ (Forall (fun t => - tr_pnl t <= m) ts -> - sumPnl ts <= len ts * m).
Proof.
  assert (Hlen : forall (t : BacktestTrade) l, len (t :: l) == 1 + len l).
  { intros t l. unfold len. cbn [length]. rewrite Nat2Z.inj_succ.
    unfold Z.succ. rewrite inject_Z_plus. ring. }
  induction ts as [| t ts [IH1 IH2]].
  - change (sumPnl []) with 0. split; intros _; vm_compute; discriminate.
  - split; intro H; inversion H as [| ? ? Ht Hts]; subst;
      rewrite sumPnl_cons, Hlen.
    + specialize (IH1 Hts). lra.
    + specialize (IH2 Hts). lra.
Qed.

(** X11.  The largest win is the pnl of one of the trades and is at least the
    average win; the largest loss is the size of the pnl of one of the
    trades and is at least the average loss. *)
Theorem largest_dominates_average `{M : MathEnv} (trades : list BacktestTrade)
    (curve : list EquityPoint) (config : BacktestConfig) :
  let s := calculateSummary trades curve config in
  (winners trades <> [] ->
   exists m a t,
     largestWin s = Fin m /\ averageWin s = Fin a /\ 0 < a <= m
     /\ In t trades /\ tr_pnl t = m)
  /\ (losers trades <> [] ->
      exists m a t,
        largestLoss s = Fin m /\ averageLoss s = Fin a /\ 0 < a <= m
        /\ In t trades /\ Qabs (tr_pnl t) = m).
Proof.
  destruct (sumPnl_winners_losers trades) as (Hw & Hl & Hsum & Hwp & Hlp & Hlen).
  cbv zeta. unfold calculateSummary.
  cbn [largestWin averageWin largestLoss averageLoss]. split.
  - intro Hne. specialize (Hwp Hne).
    destruct (winners trades) as [| w ws] eqn:W; [contradiction |].
    cbn [length Nat.ltb Nat.leb].
    rewrite <- (map_map tr_pnl Fin).
    destruct (maxOf_Fin (tr_pnl w) (map tr_pnl ws)) as (m & Hmax & Hin & Hall).
    cbn [map] in *. rewrite Hmax.
    change (tr_pnl w :: map tr_pnl ws) with (map tr_pnl (w :: ws)) in Hin, Hall.
    apply in_map_iff in Hin. destruct Hin as (t & Ht & Hin).
    exists m, (grossProfit trades / len (w :: ws)), t.
    split; [reflexivity |]. split; [reflexivity |].
    assert (HL : 0 < len (w :: ws)) by apply len_positive.
    assert (Hsumle : sumPnl (w :: ws) <= len (w :: ws) * m).
    { apply sumPnl_bounds. apply Forall_forall. intros u Hu.
      apply Hall. apply in_map. exact Hu. }
    unfold grossProfit. rewrite W. split; [split |].
    + apply Qlt_shift_div_l; [exact HL | lra].
    + apply Qle_shift_div_r; [exact HL | lra].
    + split; [| exact Ht]. rewrite <- W in Hin. apply filter_In in Hin. tauto.
  - intro Hne. specialize (Hlp Hne).
    assert (Hgl : grossLoss trades == - sumPnl (losers trades))
      by (unfold grossLoss; apply Qabs_neg; exact Hl).
    destruct (losers trades) as [| w ws] eqn:W; [contradiction |].
    cbn [length Nat.ltb Nat.leb].
    rewrite <- (map_map (fun t => Qabs (tr_pnl t)) Fin).
    destruct (maxOf_Fin (Qabs (tr_pnl w)) (map (fun t => Qabs (tr_pnl t)) ws))
      as (m & Hmax & Hin & Hall).
    cbn [map] in *. rewrite Hmax.
    change (Qabs (tr_pnl w) :: map (fun t => Qabs (tr_pnl t)) ws)
      with (map (fun t => Qabs (tr_pnl t)) (w :: ws)) in Hin, Hall.
    apply in_map_iff in Hin. destruct Hin as (t & Ht & Hin).
    exists m, (grossLoss trades / len (w :: ws)), t.
    split; [reflexivity |]. split; [reflexivity |].
    assert (HL : 0 < len (w :: ws)) by apply len_positive.
    assert (Hsumle : - sumPnl (w :: ws) <= len (w :: ws) * m).
    { apply sumPnl_bounds. apply Forall_forall. intros u Hu.
      specialize (Hall _ (in_map (fun t => Qabs (tr_pnl t)) _ _ Hu)).
      cbv beta in Hall. pose proof (Qle_Qabs (- tr_pnl u)) as Habs.
      rewrite Qabs_opp in Habs. lra. }
    split; [split |].
    + apply Qlt_shift_div_l; [exact HL | lra].
    + apply Qle_shift_div_r; [exact HL | lra].
    + split; [| exact Ht]. rewrite <- W in Hin. apply filter_In in Hin. tauto.
Qed.

(** The theorem at the pnl series -10, -5, 30: the largest win and the
    average win are both 30, the largest loss 10 and the average loss 7.5. *)
Lemma largest_dominates_average_witness :
  let trades := [tradeWithPnl (-10); tradeWithPnl (-5); tradeWithPnl 30] in
  let s := @calculateSummary sampleMath trades [] scenarioA_config in
  winners trades <> [] /\ losers trades <> []
  /\ (exists m a, largestWin s = Fin m /\ averageWin s = Fin a /\ a <= m)
  /\ (exists m a, largestLoss s = Fin m /\ averageLoss s = Fin a /\ a <= m).
Proof.
  intros trades s.
  assert (Hw : winners trades <> []) by discriminate.
  assert (Hl : losers trades <> []) by discriminate.
  destruct (@largest_dominates_average sampleMath trades [] scenarioA_config)
    as [Hwin Hloss].
  destruct (Hwin Hw) as (m & a & _ & Em & Ea & [_ Hle] & _).
  destruct (Hloss Hl) as (m' & a' & _ & Em' & Ea' & [_ Hle'] & _).
  split; [exact Hw |]. split; [exact Hl |]. split.
  - exists m, a. auto.
  - exists m', a'. auto.
Defined.

(** ** Step returns *)

Lemma returnsFrom_shape (rest : list EquityPoint) (previous : EquityPoint) :
  length (returnsFrom previous rest) = length rest
  /\ (Forall (fun p => ~ ep_equity p == 0) (previous :: rest) ->
      Forall (fun r => isFinite r = true) (returnsFrom previous rest)).
Proof.
  revert previous. induction rest as [| e rest IH]; intro previous.
  - split; [reflexivity | intros _; constructor].
  - destruct (IH e) as [Hlen Hfin]. cbn [returnsFrom length]. split.
    + rewrite Hlen. reflexivity.
    + intro H. inversion H as [| ? ? Hp Hrest]; subst.
      constructor; [| apply Hfin; exact Hrest].
      unfold div. destruct (Qeq_bool (ep_equity previous) 0) eqn:E;
        [apply Qeq_bool_iff in E; contradiction | reflexivity].
Qed.

(** X12.  The step returns of a curve: one fewer than its points; finite whenever
    no equity value of the curve is 0; and each finite return [r] of a point
    with non-zero equity [a] gives the next equity as [a * (1 + r)]. *)
Theorem stepReturns_shape (curve : list EquityPoint) :
  length (stepReturns curve) = Nat.pred (length curve)
  /\ (Forall (fun p => ~ ep_equity p == 0) curve ->
      Forall (fun r => isFinite r = true) (stepReturns curve))
  /\ (forall pre a b post,
        curve = pre ++ a :: b :: post ->
        ~ ep_equity a == 0 ->
        exists r,
          nth_error (stepReturns curve) (length pre) = Some (Fin r)
          /\ ep_equity b == ep_equity a * (1 + r)).
Proof.
  split; [| split].
  - destruct curve as [| first rest]; [reflexivity |].
    apply (returnsFrom_shape rest first).
  - destruct curve as [| first rest]; [intros _; constructor |].
    apply (returnsFrom_shape rest first).
  - intros pre a b post -> Ha.
    assert (G : forall l previous,
               exists r,
                 nth_error (returnsFrom previous (l ++ a :: b :: post))
                           (Datatypes.S (length l)) = Some (Fin r)
                 /\ ep_equity b == ep_equity a * (1 + r)).
    { intro l. induction l as [| x l' IH]; intro previous.
      - cbn [app returnsFrom length nth_error]. unfold div.
        destruct (Qeq_bool (ep_equity a) 0) eqn:E;
          [apply Qeq_bool_iff in E; contradiction |].
        eexists. split; [reflexivity |]. field. exact Ha.
      - cbn [app returnsFrom length nth_error]. apply IH. }
    destruct pre as [| first pre'].
    + cbn [app stepReturns returnsFrom length nth_error]. unfold div.
      destruct (Qeq_bool (ep_equity a) 0) eqn:E;
        [apply Qeq_bool_iff in E; contradiction |].
      eexists. split; [reflexivity |]. field. exact Ha.
    + cbn [app stepReturns length]. apply G.
Qed.

(** The theorem at the curve of scenario C. *)
Lemma stepReturns_shape_witness :
  Forall (fun p => ~ ep_equity p == 0) scenarioC_curve
  /\ Forall (fun r => isFinite r = true) (stepReturns scenarioC_curve).
Proof.
  assert (H : Forall (fun p => ~ ep_equity p == 0) scenarioC_curve)
    by (repeat constructor; intro E; discriminate E).
  split; [exact H |].
  exact (proj1 (proj2 (stepReturns_shape scenarioC_curve)) H).
Defined.

(** ** [getMaxDrawdownDuration] *)

(** The largest of [start] and the values [l], taken from the left. *)
Lemma fold_Qmax_bounds (l : list Q) (start : Q) :
  start <= fold_left Qmax l start
  /\ Forall (fun x => x <= fold_left Qmax l start) l
  /\ (fold_left Qmax l start = start \/ In (fold_left Qmax l start) l).
Proof.
  revert start. induction l as [| x l IH]; intro start; cbn [fold_left].
  - split; [apply Qle_refl |]. split; [constructor | left; reflexivity].
  - destruct (IH (Qmax start x)) as (Hge & Hall & Hin).
    pose proof (Q.le_max_l start x). pose proof (Q.le_max_r start x).
    split; [lra |]. split; [constructor; [lra | exact Hall] |].
    destruct Hin as [E | Hin]; [| right; right; exact Hin].
    destruct (Qmax_cases start x) as [E' | E'].
    + left. congruence.
    + right. left. congruence.
Qed.

(** The loop of [getMaxDrawdownDuration] keeps the largest wait between
    new highs. *)
Lemma durationScan_highs (points : list EquityPoint) :
  forall (longest peak highest : Q) (peakDate : Z),
    peak == highest ->
    fst (fst (fold_left durationStep points (longest, peak, peakDate)))
    = fold_left Qmax (daysBetween peakDate (newHighs highest points)) longest.
Proof.
  induction points as [| point rest IH]; intros longest pk highest pd Hpk;
    [reflexivity |].
  cbn [fold_left newHighs]. unfold durationStep at 2.
  rewrite (Qltb_compat_l (ep_equity point) Hpk).
  destruct (Qltb highest (ep_equity point)).
  - cbn [daysBetween fold_left]. apply IH. reflexivity.
  - apply IH. exact Hpk.
Qed.

(** A new high is a point strictly above the peak and above every point
    before it. *)
Lemma newHighs_In (curve : list EquityPoint) :
  forall (peak : Q) (p : EquityPoint),
    In p (newHighs peak curve)
    <-> exists before after,
          curve = before ++ p :: after
          /\ peak < ep_equity p
          /\ Forall (fun q => ep_equity q < ep_equity p) before.
Proof.
  induction curve as [| point rest IH]; intros pk p; cbn [newHighs].
  - split; [intros [] |]. intros (before & after & E & _).
    destruct before; discriminate E.
  - destruct (Qltb pk (ep_equity point)) eqn:High.
    + apply Qltb_lt in High. cbn [In]. rewrite IH. split.
      * intros [<- | (before & after & -> & Hp & Hb)].
        -- exists [], rest. repeat split; [exact High | constructor].
        -- exists (point :: before), after.
           split; [reflexivity |]. split; [lra |]. constructor; assumption.
      * intros (before & after & E & Hp & Hb).
        destruct before as [| q before]; cbn [app] in E.
        -- left. injection E as -> _. reflexivity.
        -- right. injection E as <- ->. inversion Hb; subst.
           exists before, after. repeat split; assumption.
    + apply Qltb_ge in High. rewrite IH. split.
      * intros (before & after & -> & Hp & Hb).
        exists (point :: before), after.
        split; [reflexivity |]. split; [exact Hp |].
        constructor; [lra | exact Hb].
      * intros (before & after & E & Hp & Hb).
        destruct before as [| q before]; cbn [app] in E.
        -- injection E as -> _. lra.
        -- injection E as <- ->. inversion Hb; subst.
           exists before, after. repeat split; assumption.
Qed.

(** X13.  [getMaxDrawdownDuration] is the longest wait, in days, from one
    high of the curve to the next: the first point is the first high, a new
    high is a point strictly above the first point and above every point
    before it, and the waits run from each high to the next one.  The result
    is at least every such wait, it is one of them unless it is 0, and it is
    never negative; the time spent below the last high is not counted, so a
    curve that never rises above its first point gives 0. *)
Theorem maxDrawdownDuration_between_highs (first : EquityPoint)
    (rest : list EquityPoint) :
  let curve := first :: rest in
  let highs := newHighs (ep_equity first) rest in
  let waits := daysBetween (ep_timestamp first) highs in
  let longest := getMaxDrawdownDuration curve in
  getMaxDrawdownDuration [] = 0
  /\ 0 <= longest
  /\ Forall (fun wait => wait <= longest) waits
  /\ (longest = 0 \/ In longest waits)
  /\ (forall p,
        In p highs
        <-> exists before after,
              rest = before ++ p :: after
              /\ ep_equity first < ep_equity p
              /\ Forall (fun q => ep_equity q < ep_equity p) before)
  /\ (Forall (fun p => ep_equity p <= ep_equity first) rest -> longest = 0).
Proof.
  intros curve highs waits longest.
  assert (E : longest = fold_left Qmax waits 0).
  { unfold longest, getMaxDrawdownDuration, curve. cbv zeta.
    cbn [fold_left]. unfold durationStep at 2.
    cbn [drawdownInit peak peakDate hd_error option_map].
    rewrite (Qltb_compat_l (ep_equity first) (orElse_Some_zero (ep_equity first))).
    assert (Qltb (ep_equity first) (ep_equity first) = false) as ->
      by (apply Qltb_ge, Qle_refl).
    apply durationScan_highs. apply orElse_Some_zero. }
  destruct (fold_Qmax_bounds waits 0) as (Hge & Hall & Hin).
  rewrite <- E in Hge, Hall, Hin.
  split; [reflexivity |]. split; [exact Hge |]. split; [exact Hall |].
  split; [exact Hin |]. split; [apply newHighs_In |].
  intro Hlow. rewrite E. unfold waits, highs.
  assert (N : forall l pk, Forall (fun p => ep_equity p <= pk) l ->
                           newHighs pk l = []).
  { induction l as [| p l IH]; intros pk Hl; [reflexivity |].
    inversion Hl; subst. cbn [newHighs].
    assert (Qltb pk (ep_equity p) = false) as -> by (apply Qltb_ge; assumption).
    apply IH. assumption. }
  rewrite (N rest (ep_equity first) Hlow). reflexivity.
Qed.

(** The theorem at a curve with highs on day 0, day 3 and day 7: the waits
    are 3 and 4 days and the result is 4; and at a curve that falls from 100
    and never recovers. *)
Lemma maxDrawdownDuration_between_highs_witness :
  let day := 86400000%Z in
  let at_ t e := {| ep_timestamp := t; ep_equity := e; ep_drawdown := 0;
                    ep_drawdownPercent := 0 |} in
  let first := at_ 0%Z 100 in
  let rest := [at_ day 90; at_ (3 * day)%Z 110; at_ (4 * day)%Z 105;
               at_ (7 * day)%Z 120] in
  Forall (fun wait => wait <= getMaxDrawdownDuration (first :: rest))
         [inject_Z (3 * day - 0) / msPerDay;
          inject_Z (7 * day - 3 * day) / msPerDay]
  /\ getMaxDrawdownDuration (first :: rest) == 4
  /\ getMaxDrawdownDuration [first; at_ (10 * day)%Z 60] = 0.
Proof.
  intros day at_ first rest.
  destruct (maxDrawdownDuration_between_highs first rest)
    as (_ & _ & Hall & _).
  destruct (maxDrawdownDuration_between_highs first [at_ (10 * day)%Z 60])
    as (_ & _ & _ & _ & _ & Hzero).
  split; [exact Hall |]. split; [reflexivity |].
  apply Hzero. repeat constructor. discriminate.
Defined.

(* ================================================================== *)
(** * Monthly returns *)
(* ================================================================== *)

(** ** The text of a key *)

Lemma isDigit_not_sign (c : ascii) :
  isDigit c = true -> Ascii.eqb c "-" = false /\ Ascii.eqb c "+" = false.
Proof.
  intro H. split.
  - destruct (Ascii.eqb_spec c "-") as [-> |]; [discriminate H | reflexivity].
  - destruct (Ascii.eqb_spec c "+") as [-> |]; [discriminate H | reflexivity].
Qed.

Lemma string_of_uint_digits (d : Decimal.uint) :
  digitsOnly (NilEmpty.string_of_uint d) = true.
Proof. induction d; cbn [NilEmpty.string_of_uint digitsOnly]; auto. Qed.

Lemma digitsOf_digits (text : string) :
  digitsOnly text = true -> digitsOf text = text.
Proof.
  induction text as [| c rest IH]; cbn [digitsOnly digitsOf]; [reflexivity |].
  intro H. apply andb_true_iff in H. destruct H as [Hc Hrest].
  rewrite Hc, IH by exact Hrest. reflexivity.
Qed.

Lemma split_dash_digits (text : string) :
  digitsOnly text = true -> split_dash text = [text].
Proof.
  induction text as [| c rest IH]; cbn [digitsOnly split_dash]; [reflexivity |].
  intro H. apply andb_true_iff in H. destruct H as [Hc Hrest].
  destruct (isDigit_not_sign c Hc) as [-> _]. rewrite IH by exact Hrest.
  reflexivity.
Qed.

Lemma split_dash_app (text rest : string) :
  digitsOnly text = true ->
  split_dash (text ++ String "-" rest) = text :: split_dash rest.
Proof.
  induction text as [| c text IH]; cbn [digitsOnly split_dash String.append].
  - reflexivity.
  - intro H. apply andb_true_iff in H. destruct H as [Hc Htext].
    destruct (isDigit_not_sign c Hc) as [-> _]. rewrite IH by exact Htext.
    reflexivity.
Qed.

(** From 0 on, an integer is shown as its digits. *)
Lemma showInt_digits (z : Z) :
  (0 <= z)%Z ->
  exists digits,
    digits <> Decimal.Nil
    /\ showInt z = NilEmpty.string_of_uint digits
    /\ Z.of_uint digits = z.
Proof.
  intro Hz. unfold showInt. destruct z as [| p | p]; [| | lia].
  - exists (Decimal.D0 Decimal.Nil). repeat split. discriminate.
  - exists (Pos.to_uint p). split; [apply DecimalPos.Unsigned.to_uint_nonnil |].
    split.
    + cbn [Z.to_int NilZero.string_of_int]. unfold NilZero.string_of_uint.
      pose proof (DecimalPos.Unsigned.to_uint_nonnil p) as Hn.
      destruct (Pos.to_uint p); [contradiction | reflexivity ..].
    + exact (DecimalZ.of_to (Z.pos p)).
Qed.

Lemma showInt_digitsOnly (z : Z) : (0 <= z)%Z -> digitsOnly (showInt z) = true.
Proof.
  intro Hz. destruct (showInt_digits Hz) as (d & _ & -> & _).
  apply string_of_uint_digits.
Qed.

Lemma parseInt_showInt (z : Z) :
  (0 <= z)%Z -> parseInt (showInt z) = Fin (inject_Z z).
Proof.
  intro Hz. destruct (showInt_digits Hz) as (d & Hd & E & Hv). rewrite E.
  pose proof (string_of_uint_digits d) as Hdigits.
  pose proof (NilEmpty.usu d) as Hread.
  unfold parseInt.
  destruct (NilEmpty.string_of_uint d) as [| c rest] eqn:Etext.
  - destruct d; discriminate Etext || contradiction.
  - cbn [digitsOnly] in Hdigits. apply andb_true_iff in Hdigits.
    destruct Hdigits as [Hc Hrest].
    destruct (isDigit_not_sign c Hc) as [-> ->].
    rewrite digitsOf_digits by (cbn [digitsOnly]; rewrite Hc, Hrest; reflexivity).
    unfold NilZero.uint_of_string. rewrite Hread, Hv. reflexivity.
Qed.

(** The pieces of the key of a month from the year 0 on. *)
Lemma split_dash_key (month : MonthKey) :
  (0 <= fst month)%Z -> (0 <= snd month)%Z ->
  split_dash (monthKeyText month) = [showInt (fst month); showInt (snd month)].
Proof.
  intros Hy Hm. unfold monthKeyText.
  change ("-" ++ showInt (snd month))%string
    with (String "-" (showInt (snd month))).
  rewrite split_dash_app by (apply showInt_digitsOnly; exact Hy).
  rewrite split_dash_digits by (apply showInt_digitsOnly; exact Hm).
  reflexivity.
Qed.

Lemma inject_Z_eq (a b : Z) : Fin (inject_Z a) = Fin (inject_Z b) -> a = b.
Proof. intros [= E]. exact E. Qed.

Lemma monthKeyText_inj (a b : MonthKey) :
  (0 <= fst a)%Z -> (0 <= snd a)%Z -> (0 <= fst b)%Z -> (0 <= snd b)%Z ->
  monthKeyText a = monthKeyText b -> a = b.
Proof.
  intros Hya Hma Hyb Hmb E.
  apply (f_equal split_dash) in E. rewrite !split_dash_key in E by assumption.
  injection E as Ey Em.
  apply (f_equal parseInt) in Ey, Em.
  rewrite !parseInt_showInt in Ey, Em by assumption.
  apply inject_Z_eq in Ey, Em. destruct a, b. cbn [fst snd] in *. congruence.
Qed.

Lemma monthKey_eqb_eq (a b : MonthKey) : monthKey_eqb a b = true <-> a = b.
Proof.
  destruct a as [y m], b as [y' m']. unfold monthKey_eqb. cbn [fst snd].
  rewrite andb_true_iff, !Z.eqb_eq. split; [intros [-> ->] | intros [= -> ->]]; auto.
Qed.

Lemma monthKeyText_eqb (a b : MonthKey) :
  (0 <= fst a)%Z -> (0 <= snd a)%Z -> (0 <= fst b)%Z -> (0 <= snd b)%Z ->
  String.eqb (monthKeyText a) (monthKeyText b) = monthKey_eqb a b.
Proof.
  intros Hya Hma Hyb Hmb.
  destruct (String.eqb_spec (monthKeyText a) (monthKeyText b)) as [E | E];
    destruct (monthKey_eqb a b) eqn:K; try reflexivity.
  - apply monthKeyText_inj in E; try assumption.
    apply monthKey_eqb_eq in E. congruence.
  - apply monthKey_eqb_eq in K. subst b. contradiction.
Qed.

(** ** The groups *)

Lemma Map_push_keys (groups : MonthGroups) (key : string) (point : EquityPoint) :
  (In key (map fst groups) ->
   map fst (Map_push groups key point) = map fst groups)
  /\ (~ In key (map fst groups) ->
      map fst (Map_push groups key point) = map fst groups ++ [key]).
Proof.
  induction groups as [| [k ps] rest [IHin IHout]]; cbn [Map_push map fst snd].
  - split; [intros [] | reflexivity].
  - destruct (String.eqb k key) eqn:E.
    + apply String.eqb_eq in E. subst k. cbn [map fst].
      split; [reflexivity |]. intro H. exfalso. apply H. left; reflexivity.
    + apply String.eqb_neq in E. cbn [map fst app]. split.
      * intros [H | H]; [contradiction |]. rewrite IHin by exact H. reflexivity.
      * intro H. rewrite IHout; [reflexivity |]. intro Hin. apply H. right; exact Hin.
Qed.

Lemma Map_push_In (groups : MonthGroups) (key : string) (point : EquityPoint)
    (k : string) (ps : list EquityPoint) :
  NoDup (map fst groups) ->
  In (k, ps) (Map_push groups key point)
  <-> (k <> key /\ In (k, ps) groups)
      \/ (k = key
          /\ ((exists ps0, In (key, ps0) groups /\ ps = ps0 ++ [point])
              \/ (~ In key (map fst groups) /\ ps = [point]))).
Proof.
  induction groups as [| [k0 ps0] rest IH]; cbn [Map_push map fst snd]; intro Hnd.
  - simpl. split.
    + intros [[= <- <-] | []]. right. split; [reflexivity |]. right. tauto.
    + intros [[_ []] | [-> [(x & [] & _) | [_ ->]]]]. left; reflexivity.
  - inversion Hnd as [| ? ? Hnotin Hnd']; subst. specialize (IH Hnd').
    destruct (String.eqb k0 key) eqn:E.
    + apply String.eqb_eq in E. subst k0. simpl. split.
      * intros [[= <- <-] | Hin].
        -- right. split; [reflexivity |]. left. exists ps0. auto.
        -- left. split; [| right; exact Hin].
           intros ->. apply Hnotin. apply (in_map fst) in Hin. exact Hin.
      * intros [[Hne [[= -> _] | Hin]] | [-> [(x & [[= <-] | Hin] & ->) | [Hno _]]]].
        -- contradiction.
        -- right; exact Hin.
        -- left; reflexivity.
        -- exfalso. apply Hnotin. apply (in_map fst) in Hin. exact Hin.
        -- exfalso. apply Hno. left; reflexivity.
    + apply String.eqb_neq in E. simpl. rewrite IH. split.
      * intros [[= <- <-] | [[Hne Hin] | [-> [(x & Hin & ->) | [Hno ->]]]]].
        -- left. split; [exact E | left; reflexivity].
        -- left. split; [exact Hne | right; exact Hin].
        -- right. split; [reflexivity |]. left. exists x. split; [right |]; auto.
        -- right. split; [reflexivity |]. right. split; [| reflexivity].
           intros [H | H]; [contradiction | apply Hno; exact H].
      * intros [[Hne [[= -> ->] | Hin]] | [-> [(x & [[= H _] | Hin] & ->) | [Hno ->]]]].
        -- left; reflexivity.
        -- right. left. auto.
        -- contradiction.
        -- right. right. split; [reflexivity |]. left. exists x. auto.
        -- right. right. split; [reflexivity |]. right. split; [| reflexivity].
           intro H. apply Hno. right; exact H.
Qed.

Section MonthlyProofs.
Variable calendar : Z -> MonthKey.

Lemma pointsUnder_snoc (key : string) (done : list EquityPoint) (p : EquityPoint) :
  pointsUnder calendar key (done ++ [p])
  = pointsUnder calendar key done
    ++ (if String.eqb (keyOf calendar p) key then [p] else []).
Proof. unfold pointsUnder. rewrite filter_app. reflexivity. Qed.

Lemma Map_push_groups (done : list EquityPoint) (groups : MonthGroups)
    (p : EquityPoint) :
  groupsOf calendar done groups ->
  groupsOf calendar (done ++ [p]) (Map_push groups (keyOf calendar p) p).
Proof.
  intros [Hnd Hin]. set (kp := keyOf calendar p).
  assert (Hkey : In kp (map fst groups) <-> pointsUnder calendar kp done <> []).
  { split.
    - intro H. apply in_map_iff in H. destruct H as ([k ps] & Ek & H).
      cbn [fst] in Ek. subst k. apply Hin in H. destruct H as [Hne ->]. exact Hne.
    - intro H. apply in_map_iff. exists (kp, pointsUnder calendar kp done).
      split; [reflexivity |]. apply Hin. auto. }
  split.
  - destruct (Map_push_keys groups kp p) as [Hsame Hnew].
    destruct (in_dec string_dec kp (map fst groups)) as [Hk | Hk].
    + rewrite Hsame by exact Hk. exact Hnd.
    + rewrite Hnew by exact Hk. apply NoDup_app; [exact Hnd | repeat constructor; auto |].
      intros k Hk' [<- | []]. contradiction.
  - intros key ps. rewrite Map_push_In by exact Hnd. rewrite pointsUnder_snoc.
    fold kp. split.
    + intros [[Hne H] | [-> [(ps0 & H & ->) | [Hno ->]]]].
      * apply Hin in H. destruct H as [Hps ->].
        assert (String.eqb kp key = false) as ->
          by (apply String.eqb_neq; congruence).
        rewrite app_nil_r. auto.
      * apply Hin in H. destruct H as [Hps ->].
        rewrite String.eqb_refl.
        split; [| reflexivity]. intro E. apply app_eq_nil in E. destruct E; discriminate.
      * rewrite String.eqb_refl.
        destruct (pointsUnder calendar kp done) as [| x xs] eqn:P.
        -- split; [discriminate | reflexivity].
        -- exfalso. apply Hno. apply Hkey. discriminate.
    + intros [Hps ->]. destruct (String.eqb kp key) eqn:E.
      * apply String.eqb_eq in E. subst key. right. split; [reflexivity |].
        destruct (pointsUnder calendar kp done) as [| x xs] eqn:P.
        -- right. split; [| reflexivity]. intro Hk. apply Hkey in Hk.
           apply Hk. reflexivity.
        -- left. exists (x :: xs). split; [| reflexivity].
           apply Hin. rewrite P. split; [discriminate | reflexivity].
      * apply String.eqb_neq in E. rewrite app_nil_r in *. left.
        split; [congruence |]. apply Hin. auto.
Qed.

Lemma byMonth_groups (curve : list EquityPoint) :
  groupsOf calendar curve (byMonth calendar curve).
Proof.
  unfold byMonth.
  assert (G : forall l done groups,
             groupsOf calendar done groups ->
             groupsOf calendar (done ++ l)
               (fold_left (fun groups point =>
                             Map_push groups (keyOf calendar point) point)
                          l groups)).
  { induction l as [| p l IH]; intros done groups H.
    - rewrite app_nil_r. exact H.
    - cbn [fold_left].
      replace (done ++ p :: l) with ((done ++ [p]) ++ l)
        by (rewrite <- app_assoc; reflexivity).
      apply IH. apply Map_push_groups. exact H. }
  apply (G curve [] []). split; [constructor |].
  intros key ps. simpl. split; [intros [] | intros [H ->]; apply H; reflexivity].
Qed.

(** From the year 0 on, the points filed under the key of a month are the
    points of that month. *)
Lemma pointsUnder_month (curve : list EquityPoint) (month : MonthKey) :
  fromYearZero calendar curve ->
  (0 <= fst month)%Z -> (0 <= snd month)%Z ->
  pointsUnder calendar (monthKeyText month) curve = pointsOf calendar month curve.
Proof.
  intros Hcurve Hy Hm. unfold pointsUnder, pointsOf. apply filter_ext_in.
  intros p Hp. unfold fromYearZero in Hcurve. rewrite Forall_forall in Hcurve.
  destruct (Hcurve p Hp) as [Hpy Hpm]. unfold keyOf.
  apply monthKeyText_eqb; assumption.
Qed.

Lemma pointsUnder_key (curve : list EquityPoint) (key : string)
    (first : EquityPoint) (rest : list EquityPoint) :
  pointsUnder calendar key curve = first :: rest ->
  In first curve /\ key = keyOf calendar first.
Proof.
  intro E. assert (H : In first (pointsUnder calendar key curve))
    by (rewrite E; left; reflexivity).
  unfold pointsUnder in H. apply filter_In in H. destruct H as [Hin Hk].
  apply String.eqb_eq in Hk. auto.
Qed.

Lemma pointsOf_key (curve : list EquityPoint) (month : MonthKey)
    (first : EquityPoint) (rest : list EquityPoint) :
  pointsOf calendar month curve = first :: rest ->
  In first curve /\ month = calendar (ep_timestamp first).
Proof.
  intro E. assert (H : In first (pointsOf calendar month curve))
    by (rewrite E; left; reflexivity).
  unfold pointsOf in H. apply filter_In in H. destruct H as [Hin Hk].
  apply monthKey_eqb_eq in Hk. auto.
Qed.

End MonthlyProofs.

Lemma rev_head_last {A : Type} (l : list A) (x d : A) (l' : list A) :
  rev l = x :: l' -> last l d = x.
Proof.
  intro E. assert (L : l = rev l' ++ [x]).
  { rewrite <- (rev_involutive l), E. reflexivity. }
  rewrite L. apply last_last.
Qed.

(** The row of a month from the year 0 on. *)
Lemma monthRow_month (month : MonthKey) (first : EquityPoint)
    (rest : list EquityPoint) :
  (0 <= fst month)%Z -> (0 <= snd month)%Z ->
  monthRow (monthKeyText month, first :: rest)
  = {| mr_year := Fin (inject_Z (fst month));
       mr_month := Fin (inject_Z (snd month));
       mr_return :=
         if Qltb 0 (ep_equity first)
         then (ep_equity (last rest first) - ep_equity first) / ep_equity first
         else 0;
       mr_trades := 0 |}.
Proof.
  intros Hy Hm. unfold monthRow. rewrite split_dash_key by assumption.
  cbn [nth_error parseIntOf]. rewrite !parseInt_showInt by assumption.
  destruct (rev (first :: rest)) as [| x l'] eqn:R.
  - apply (f_equal (@length _)) in R. rewrite length_rev in R. discriminate R.
  - apply rev_head_last with (d := first) in R.
    assert (L : last (first :: rest) first = last rest first)
      by (destruct rest; reflexivity).
    rewrite <- L, R. reflexivity.
Qed.

(** ** The sort *)

Lemma insertSorted_perm {A : Type} (compare : A -> A -> number) (x : A)
    (sorted : list A) :
  Permutation (x :: sorted) (insertSorted compare x sorted).
Proof.
  induction sorted as [| y rest IH]; cbn [insertSorted]; [reflexivity |].
  destruct (gtb (compare y x) (Fin 0)); [reflexivity |].
  rewrite perm_swap. apply perm_skip. exact IH.
Qed.

Lemma Array_sort_fold_perm {A : Type} (compare : A -> A -> number)
    (xs sorted : list A) :
  Permutation (sorted ++ xs)
    (fold_left (fun sorted x => insertSorted compare x sorted) xs sorted).
Proof.
  revert sorted. induction xs as [| x xs IH]; intro sorted; cbn [fold_left].
  - rewrite app_nil_r. reflexivity.
  - rewrite <- IH. rewrite <- Permutation_middle.
    change (x :: sorted ++ xs) with ((x :: sorted) ++ xs).
    apply Permutation_app_tail. apply insertSorted_perm.
Qed.

Lemma Array_sort_perm {A : Type} (compare : A -> A -> number) (xs : list A) :
  Permutation xs (Array_sort compare xs).
Proof. exact (Array_sort_fold_perm compare xs []). Qed.

Lemma Qltb_inject_Z (a b : Z) : Qltb (inject_Z a) (inject_Z b) = (a <? b)%Z.
Proof.
  unfold Qltb, Qle_bool. cbn [inject_Z Qnum Qden].
  rewrite !Z.mul_1_r. destruct (Z.ltb_spec a b), (Z.leb_spec b a);
    try reflexivity; lia.
Qed.

Lemma Qeq_bool_inject_Z (a b : Z) : Qeq_bool (inject_Z a) (inject_Z b) = (a =? b)%Z.
Proof.
  destruct (Z.eqb_spec a b) as [-> | Hne].
  - apply Qeq_bool_iff. reflexivity.
  - destruct (Qeq_bool _ _) eqn:E; [| reflexivity].
    apply Qeq_bool_iff in E. unfold Qeq in E.
    cbn [inject_Z Qnum Qden] in E. lia.
Qed.

Lemma Qltb_difference (a b : Z) :
  Qltb 0 (inject_Z a + - inject_Z b) = (b <? a)%Z.
Proof.
  unfold Qltb, Qle_bool. cbn [inject_Z Qnum Qden Qplus Qopp].
  destruct (Z.ltb_spec b a), (Z.leb_spec (a * 1 + - b * 1) (0 * 1));
    try reflexivity; lia.
Qed.

Lemma Qeq_bool_difference (a b : Z) :
  Qeq_bool (inject_Z a + - inject_Z b) 0 = (a =? b)%Z.
Proof.
  destruct (Z.eqb_spec a b) as [-> | Hne].
  - apply Qeq_bool_iff. ring.
  - destruct (Qeq_bool _ _) eqn:E; [| reflexivity].
    apply Qeq_bool_iff in E. unfold Qeq in E.
    cbn [inject_Z Qnum Qden Qplus Qopp] in E. lia.
Qed.

Lemma wholeKeyed_whole (year month : Z) (ret : Q) (trades : nat) :
  let row := {| mr_year := Fin (inject_Z year); mr_month := Fin (inject_Z month);
                mr_return := ret; mr_trades := trades |} in
  wholeKeyed row /\ rowMonth row = (year, month).
Proof.
  intro row. unfold wholeKeyed, rowMonth, row. cbn [mr_year mr_month whole fst snd].
  rewrite !Qfloor_Z. auto.
Qed.

(** On rows with a whole year and month the comparator and [monthBefore]
    are the order of the months. *)
Lemma compareMonths_whole (a b : MonthlyReturn) :
  wholeKeyed a -> wholeKeyed b ->
  gtb (compareMonths a b) (Fin 0) = true <-> lexLt (rowMonth b) (rowMonth a).
Proof.
  intros [Hya Hma] [Hyb Hmb]. unfold compareMonths, lexLt.
  rewrite Hya, Hma, Hyb, Hmb.
  destruct (rowMonth a) as [ya ma], (rowMonth b) as [yb mb]. cbn [fst snd].
  unfold sub, neg, add, truthyNumber, gtb, ltb.
  rewrite Qeq_bool_difference.
  destruct (Z.eqb_spec ya yb) as [-> | Hne]; cbn [negb];
    rewrite Qltb_difference, Z.ltb_lt; lia.
Qed.

Lemma monthBefore_whole (a b : MonthlyReturn) :
  wholeKeyed a -> wholeKeyed b ->
  monthBefore a b <-> lexLt (rowMonth a) (rowMonth b).
Proof.
  intros [Hya Hma] [Hyb Hmb]. unfold monthBefore, lexLt.
  rewrite Hya, Hma, Hyb, Hmb.
  destruct (rowMonth a) as [ya ma], (rowMonth b) as [yb mb]. cbn [fst snd].
  unfold ltb, strictEq.
  rewrite !Qltb_inject_Z, Qeq_bool_inject_Z, !Z.ltb_lt, Z.eqb_eq. reflexivity.
Qed.

Lemma lexLt_total (a b : MonthKey) : a <> b -> lexLt a b \/ lexLt b a.
Proof.
  destruct a as [ya ma], b as [yb mb]. unfold lexLt. cbn [fst snd]. intro Hne.
  destruct (Z.eq_dec ya yb) as [-> | Hy]; [| lia].
  destruct (Z.eq_dec ma mb) as [-> | Hm]; [contradiction Hne; reflexivity | lia].
Qed.

Lemma insertSorted_sorted (row : MonthlyReturn) (sorted : list MonthlyReturn) :
  wholeKeyed row ->
  Forall wholeKeyed sorted ->
  ~ In (rowMonth row) (map rowMonth sorted) ->
  StronglySorted monthBefore sorted ->
  StronglySorted monthBefore (insertSorted compareMonths row sorted).
Proof.
  intros Hrow. induction sorted as [| y rest IH]; intros Hall Hnew Hs;
    cbn [insertSorted].
  - repeat constructor.
  - apply Forall_cons_iff in Hall. destruct Hall as [Hy Hrest].
    apply StronglySorted_inv in Hs. destruct Hs as [Hs Hbefore].
    cbn [map] in Hnew.
    assert (Hne : rowMonth y <> rowMonth row)
      by (intro E; apply Hnew; left; exact E).
    assert (Hnew' : ~ In (rowMonth row) (map rowMonth rest))
      by (intro H; apply Hnew; right; exact H).
    rewrite Forall_forall in Hbefore, Hrest.
    destruct (gtb (compareMonths y row) (Fin 0)) eqn:C.
    + apply compareMonths_whole in C; [| exact Hy | exact Hrow].
      constructor; [constructor; [exact Hs | apply Forall_forall; exact Hbefore] |].
      apply Forall_forall. intros z [<- | Hz].
      * apply monthBefore_whole; assumption.
      * apply monthBefore_whole; [exact Hrow | apply Hrest; exact Hz |].
        specialize (Hbefore z Hz).
        apply monthBefore_whole in Hbefore; [| exact Hy | apply Hrest; exact Hz].
        unfold lexLt in *. lia.
    + constructor.
      * apply IH; [apply Forall_forall; exact Hrest | exact Hnew' | exact Hs].
      * apply Forall_forall. intros z Hz.
        apply (Permutation_in _ (Permutation_sym (insertSorted_perm _ _ _))) in Hz.
        destruct Hz as [<- | Hz]; [| apply Hbefore; exact Hz].
        apply monthBefore_whole; [exact Hy | exact Hrow |].
        destruct (lexLt_total Hne) as [H | H]; [exact H |].
        apply compareMonths_whole in H; [| exact Hy | exact Hrow]. congruence.
Qed.

Lemma Array_sort_months (rows : list MonthlyReturn) :
  Forall wholeKeyed rows ->
  NoDup (map rowMonth rows) ->
  StronglySorted monthBefore (Array_sort compareMonths rows).
Proof.
  unfold Array_sort.
  assert (G : forall xs sorted,
             Forall wholeKeyed (sorted ++ xs) ->
             NoDup (map rowMonth (sorted ++ xs)) ->
             StronglySorted monthBefore sorted ->
             StronglySorted monthBefore
               (fold_left (fun sorted x => insertSorted compareMonths x sorted)
                          xs sorted)).
  { induction xs as [| x xs IH]; intros sorted Hall Hnd Hs; cbn [fold_left].
    - exact Hs.
    - assert (P : Permutation (sorted ++ x :: xs)
                    (insertSorted compareMonths x sorted ++ xs)).
      { rewrite <- Permutation_middle.
        change (x :: sorted ++ xs) with ((x :: sorted) ++ xs).
        apply Permutation_app_tail. apply insertSorted_perm. }
      assert (Hx : wholeKeyed x).
      { rewrite Forall_forall in Hall. apply Hall. apply in_or_app.
        right; left; reflexivity. }
      assert (Hsorted : Forall wholeKeyed sorted).
      { rewrite Forall_forall in *. intros z Hz. apply Hall. apply in_or_app.
        left; exact Hz. }
      assert (Hnew : ~ In (rowMonth x) (map rowMonth sorted)).
      { rewrite map_app in Hnd. cbn [map] in Hnd.
        apply NoDup_remove_2 in Hnd. intro H. apply Hnd. apply in_or_app.
        left; exact H. }
      apply IH.
      + rewrite Forall_forall in *. intros z Hz. apply Hall.
        apply (Permutation_in _ (Permutation_sym P)). exact Hz.
      + apply (Permutation_NoDup (l := map rowMonth (sorted ++ x :: xs)));
          [apply Permutation_map; exact P | exact Hnd].
      + apply insertSorted_sorted; assumption. }
  intros Hall Hnd. apply (G rows []); [exact Hall | exact Hnd | constructor].
Qed.

(** X14.  The monthly returns of a curve whose points all have a date from
    the year 0 on, for any calendar: the rows are in strictly ascending
    order of (year, month); there is exactly one row for each month that
    has a point on the curve; its return is the change from the first to
    the last point of that month over the first, or 0 when the first equity
    is not positive; and its trade count is always 0. *)
Theorem monthly_returns_rows (calendar : Z -> MonthKey)
    (curve : list EquityPoint) :
  fromYearZero calendar curve ->
  let rows := calculateMonthlyReturns calendar curve in
  StronglySorted monthBefore rows
  /\ (forall row,
        In row rows
        <-> exists month first rest,
              pointsOf calendar month curve = first :: rest
              /\ row = {| mr_year := Fin (inject_Z (fst month));
                          mr_month := Fin (inject_Z (snd month));
                          mr_return :=
                            if Qltb 0 (ep_equity first)
                            then (ep_equity (last rest first) - ep_equity first)
                                 / ep_equity first
                            else 0;
                          mr_trades := 0 |})
  /\ Forall (fun row => mr_trades row = 0%nat) rows.
Proof.
  intros Hcurve rows.
  destruct (byMonth_groups calendar curve) as [Hnd Hgroups].
  assert (Hvalid : forall p, In p curve ->
                     (0 <= fst (calendar (ep_timestamp p)))%Z
                     /\ (0 <= snd (calendar (ep_timestamp p)))%Z).
  { unfold fromYearZero in Hcurve. rewrite Forall_forall in Hcurve. exact Hcurve. }
  assert (Hperm : Permutation (map monthRow (byMonth calendar curve)) rows)
    by apply Array_sort_perm.
  (* every group is the group of a month from the year 0 on *)
  assert (Hgroup : forall key ps,
             In (key, ps) (byMonth calendar curve) ->
             exists month first rest,
               (0 <= fst month)%Z /\ (0 <= snd month)%Z
               /\ key = monthKeyText month /\ ps = first :: rest
               /\ pointsOf calendar month curve = first :: rest).
  { intros key ps H. apply Hgroups in H. destruct H as [Hne E].
    destruct ps as [| first rest]; [contradiction |].
    symmetry in E. destruct (pointsUnder_key _ _ _ E) as [Hin Hk].
    destruct (Hvalid first Hin) as [Hy Hm].
    exists (calendar (ep_timestamp first)), first, rest.
    repeat (split; [assumption || reflexivity |]).
    rewrite <- E, Hk. symmetry. apply pointsUnder_month; assumption. }
  assert (Hin : forall row,
             In row rows
             <-> exists month first rest,
                   pointsOf calendar month curve = first :: rest
                   /\ row = monthRow (monthKeyText month, first :: rest)).
  { intro row. split.
    - intro H. apply (Permutation_in _ (Permutation_sym Hperm)) in H.
      apply in_map_iff in H. destruct H as ([key ps] & <- & H).
      destruct (Hgroup key ps H) as (month & first & rest & _ & _ & -> & -> & E).
      exists month, first, rest. auto.
    - intros (month & first & rest & E & ->).
      destruct (pointsOf_key _ _ _ E) as [Hfirst ->].
      destruct (Hvalid first Hfirst) as [Hy Hm].
      apply (Permutation_in _ Hperm). apply in_map. apply Hgroups.
      rewrite pointsUnder_month by assumption.
      rewrite E. split; [discriminate | reflexivity]. }
  assert (Hrow : forall month first rest,
             pointsOf calendar month curve = first :: rest ->
             monthRow (monthKeyText month, first :: rest)
             = {| mr_year := Fin (inject_Z (fst month));
                  mr_month := Fin (inject_Z (snd month));
                  mr_return :=
                    if Qltb 0 (ep_equity first)
                    then (ep_equity (last rest first) - ep_equity first)
                         / ep_equity first
                    else 0;
                  mr_trades := 0 |}).
  { intros month first rest E. destruct (pointsOf_key _ _ _ E) as [Hfirst ->].
    destruct (Hvalid first Hfirst) as [Hy Hm]. apply monthRow_month; assumption. }
  split; [| split].
  - apply Array_sort_months.
    + apply Forall_forall. intros row H. apply in_map_iff in H.
      destruct H as ([key ps] & <- & H).
      destruct (Hgroup key ps H) as (month & first & rest & Hy & Hm & -> & -> & E).
      rewrite monthRow_month by assumption. apply wholeKeyed_whole.
    + rewrite map_map.
      assert (Hinj : forall groups,
                 (forall key ps, In (key, ps) groups ->
                    exists month first rest,
                      (0 <= fst month)%Z /\ (0 <= snd month)%Z
                      /\ key = monthKeyText month /\ ps = first :: rest
                      /\ pointsOf calendar month curve = first :: rest) ->
                 NoDup (map fst groups) ->
                 NoDup (map (fun entry => rowMonth (monthRow entry)) groups)).
      { induction groups as [| [key ps] groups IH]; intros Hg Hn; cbn [map];
          [constructor |].
        cbn [map fst] in Hn. apply NoDup_cons_iff in Hn. destruct Hn as [Hnot Hn].
        constructor.
        - intro H. apply in_map_iff in H. destruct H as ([key' ps'] & E' & H').
          destruct (Hg key ps (or_introl eq_refl))
            as (month & first & rest & Hy & Hm & -> & -> & _).
          destruct (Hg key' ps' (or_intror H'))
            as (month' & first' & rest' & Hy' & Hm' & -> & -> & _).
          rewrite !monthRow_month in E' by assumption.
          pose proof (wholeKeyed_whole (fst month) (snd month)) as W.
          pose proof (wholeKeyed_whole (fst month') (snd month')) as W'.
          cbv zeta in W, W'.
          rewrite (proj2 (W _ _)), (proj2 (W' _ _)) in E'.
          apply Hnot. apply in_map_iff. exists (monthKeyText month', first' :: rest').
          split; [| exact H']. cbn [fst]. destruct month, month'.
          cbn [fst snd] in E'. congruence.
        - apply IH; [| exact Hn]. intros k p H. apply Hg. right; exact H. }
      apply Hinj; [exact Hgroup | exact Hnd].
  - intro row. rewrite Hin. split; intros (month & first & rest & E & ->);
      exists month, first, rest; (split; [exact E |]);
      [apply Hrow; exact E | symmetry; apply Hrow; exact E].
  - apply Forall_forall. intros row H. apply Hin in H.
    destruct H as (month & first & rest & _ & ->). reflexivity.
Qed.

Lemma monthly_returns_rows_witness :
  let calendar := fun t : Z => (2024, t / 10)%Z in
  let at_ t e := {| ep_timestamp := t; ep_equity := e; ep_drawdown := 0;
                    ep_drawdownPercent := 0 |} in
  let curve := [at_ 0%Z 100; at_ 15%Z 120; at_ 5%Z 110] in
  fromYearZero calendar curve
  /\ StronglySorted monthBefore (calculateMonthlyReturns calendar curve)
  /\ (exists row, In row (calculateMonthlyReturns calendar curve)
                  /\ mr_year row = Fin 2024 /\ mr_month row = Fin 0
                  /\ mr_return row == 1 # 10)
  /\ Forall (fun row => mr_trades row = 0%nat)
            (calculateMonthlyReturns calendar curve).
Proof.
  intros calendar at_ curve.
  assert (H : fromYearZero calendar curve)
    by (repeat constructor; cbn; lia).
  destruct (@monthly_returns_rows calendar curve H) as (Hsorted & Hrows & Htrades).
  split; [exact H |]. split; [exact Hsorted |]. split; [| exact Htrades].
  eexists. split.
  - apply Hrows. exists (2024, 0)%Z, (at_ 0%Z 100), [at_ 5%Z 110].
    split; reflexivity.
  - split; [reflexivity |]. split; reflexivity.
Defined.

(** Before the year 0 the key starts with a dash: its first piece is empty,
    so the year reads as [NaN] and the digits of the year are taken for the
    month. *)
Example monthly_returns_before_year_zero :
  let calendar := fun _ : Z => (-5, 3)%Z in
  let point := {| ep_timestamp := 0; ep_equity := 100; ep_drawdown := 0;
                  ep_drawdownPercent := 0 |} in
  keyOf calendar point = "-5-3"%string
  /\ split_dash "-5-3" = [""; "5"; "3"]%string
  /\ map mr_year (calculateMonthlyReturns calendar [point]) = [NaN]
  /\ map mr_month (calculateMonthlyReturns calendar [point]) = [Fin 5].
Proof. repeat split. Qed.

(* ================================================================== *)
(** * The numeric helpers *)
(* ================================================================== *)

(** ** clamp *)

(** X15 (clamp).  With [min <= max] the result lies in the range and is the
    value itself when the value does; with the bounds the wrong way round
    the result is [max] whatever the value; clamping twice is clamping
    once. *)
Theorem clamp_range (value min max : Q) :
  (min <= max -> min <= clamp value min max <= max)
  /\ (min <= value <= max -> clamp value min max == value)
  /\ (max < min -> clamp value min max == max)
  /\ clamp (clamp value min max) min max == clamp value min max.
Proof.
  unfold clamp.
  destruct (Q.max_spec value min) as [[L1 E1] | [L1 E1]];
    destruct (Q.min_spec (Qmax value min) max) as [[L2 E2] | [L2 E2]];
    rewrite E2;
    destruct (Q.max_spec (Qmax value min) min) as [[L3 E3] | [L3 E3]];
    destruct (Q.max_spec max min) as [[L4 E4] | [L4 E4]];
    try rewrite E3; try rewrite E4;
    destruct (Q.min_spec (Qmax value min) max) as [[L5 E5] | [L5 E5]];
    destruct (Q.min_spec min max) as [[L6 E6] | [L6 E6]];
    destruct (Q.min_spec max max) as [[L7 E7] | [L7 E7]];
    try rewrite E5; try rewrite E6; try rewrite E7;
    rewrite ?E1 in *; repeat split; intros; try lra.
Qed.

Lemma clamp_range_witness :
  0 <= clamp 7 0 5 <= 5 /\ clamp 3 0 5 == 3 /\ clamp 3 5 0 == 0.
Proof.
  destruct (clamp_range 7 0 5) as [A _].
  destruct (clamp_range 3 0 5) as [_ [B _]].
  destruct (clamp_range 3 5 0) as [_ [_ [C _]]].
  split; [apply A; lra |]. split; [apply B; lra | apply C; lra].
Defined.

(** ** round *)

Lemma pow10_pos (decimals : nat) : 0 < pow10 decimals.
Proof.
  unfold pow10. change 0 with (inject_Z 0). rewrite <- Zlt_Qlt.
  apply Z.pow_pos_nonneg; lia.
Qed.

Lemma Qfloor_eq (x : Q) (z : Z) :
  inject_Z z <= x -> x < inject_Z (z + 1) -> Qfloor x = z.
Proof.
  intros Hlo Hhi.
  pose proof (Qfloor_le x) as F1. pose proof (Qlt_floor x) as F2.
  assert (A : (z < Qfloor x + 1)%Z).
  { rewrite Zlt_Qlt. eapply Qle_lt_trans; [exact Hlo | exact F2]. }
  assert (B : (Qfloor x < z + 1)%Z).
  { rewrite Zlt_Qlt. eapply Qle_lt_trans; [exact F1 | exact Hhi]. }
  lia.
Qed.

Lemma Qceiling_eq (x : Q) (z : Z) :
  inject_Z (z - 1) < x -> x <= inject_Z z -> Qceiling x = z.
Proof.
  intros Hlo Hhi.
  pose proof (Qle_ceiling x) as F1. pose proof (Qceiling_lt x) as F2.
  assert (A : (z - 1 < Qceiling x)%Z).
  { rewrite Zlt_Qlt. eapply Qlt_le_trans; [exact Hlo | exact F1]. }
  assert (B : (Qceiling x - 1 < z)%Z).
  { rewrite Zlt_Qlt. eapply Qlt_le_trans; [exact F2 | exact Hhi]. }
  lia.
Qed.

Lemma Qdiv_cancel (x y : Q) : ~ y == 0 -> x / y * y == x.
Proof. intro Hne. field. exact Hne. Qed.

Lemma Math_round_bounds (x : Q) :
  x - (1 # 2) < inject_Z (Math_round x) <= x + (1 # 2).
Proof.
  unfold Math_round.
  pose proof (Qfloor_le (x + (1 # 2))) as F1.
  pose proof (Qlt_floor (x + (1 # 2))) as F2.
  rewrite inject_Z_plus in F2. change (inject_Z 1) with 1 in F2.
  split; lra.
Qed.

Lemma Math_round_integer (z : Z) : Math_round (inject_Z z) = z.
Proof.
  unfold Math_round. apply Qfloor_eq; rewrite ?inject_Z_plus;
    change (inject_Z 1) with 1; lra.
Qed.

Lemma Math_round_monotone (x y : Q) : x <= y -> (Math_round x <= Math_round y)%Z.
Proof. intro L. unfold Math_round. apply Qfloor_resp_le. lra. Qed.

Lemma Math_round_compat (x y : Q) : x == y -> Math_round x = Math_round y.
Proof. intro E. unfold Math_round. rewrite E. reflexivity. Qed.

Lemma round_of_unit (n : Z) (decimals : nat) :
  round (inject_Z n / pow10 decimals) decimals == inject_Z n / pow10 decimals.
Proof.
  pose proof (pow10_pos decimals) as Hf. unfold round.
  assert (E : Math_round (inject_Z n / pow10 decimals * pow10 decimals) = n).
  { transitivity (Math_round (inject_Z n)); [| apply Math_round_integer].
    apply Math_round_compat. apply Qdiv_cancel. lra. }
  rewrite E. reflexivity.
Qed.

Lemma floatProduct_exact : floatProduct Qmult.
Proof.
  split.
  - intros x y f Hf L. apply Qmult_le_compat_r; assumption.
  - intros x f. pose proof (Qabs_nonneg (x * f)) as Hn.
    assert (E : x * f - x * f == 0) by ring. rewrite E.
    change (Qabs 0) with 0. unfold unitRoundoff.
    apply Qmult_le_0_compat; [discriminate | lra].
Qed.

Lemma roundWith_exact (value : Q) (decimals : nat) :
  roundWith Qmult value decimals = round value decimals.
Proof. reflexivity. Qed.

(** A value within a quarter of a unit of a whole number of units goes to
    that number, whatever the rounding error of the product. *)
Lemma roundWith_near (product : Q -> Q -> Q) (value : Q) (decimals : nat)
    (units : Z) :
  floatProduct product ->
  (Z.abs units <= 2 ^ 50)%Z ->
  Qabs (value * pow10 decimals - inject_Z units) <= 1 # 4 ->
  roundWith product value decimals = inject_Z units / pow10 decimals.
Proof.
  intros [_ Hnear] Hunits Hclose. unfold roundWith. cbv zeta.
  f_equal. f_equal. unfold Math_round.
  specialize (Hnear value (pow10 decimals)).
  set (p := product value (pow10 decimals)) in *.
  set (a := value * pow10 decimals) in *.
  apply Qabs_Qle_condition in Hclose. destruct Hclose as [C1 C2].
  assert (U : - inject_Z (2 ^ 50) <= inject_Z units <= inject_Z (2 ^ 50)).
  { rewrite <- inject_Z_opp, <- !Zle_Qle. lia. }
  change (inject_Z (2 ^ 50)) with 1125899906842624 in U. destruct U as [U1 U2].
  assert (A : Qabs a <= 1125899906842624 + (1 # 4)).
  { apply Qabs_Qle_condition. split; lra. }
  pose proof (Qabs_nonneg a) as A0.
  assert (E : Qabs (p - a) <= 1 # 4).
  { eapply Qle_trans; [exact Hnear |]. unfold unitRoundoff.
    generalize dependent (Qabs a). intros A A1 A0. lra. }
  apply Qabs_Qle_condition in E. destruct E as [E1 E2].
  assert (E3 : Qabs (p - a) <= unitRoundoff * (Qabs a + 1)) by exact Hnear.
  apply Qfloor_eq; rewrite ?inject_Z_plus; change (inject_Z 1) with 1.
  - lra.
  - assert (S : Qabs (p - a) < 1 # 4).
    { eapply Qle_lt_trans; [exact E3 |]. unfold unitRoundoff.
      generalize dependent (Qabs a). intros A A1 A0 _. lra. }
    apply Qabs_Qlt_condition in S. lra.
Qed.

(** X16 (round).  With the floating-point product in place of the exact
    one: a value within a quarter of a unit of the last kept decimal place
    from a whole number of units, at most 2^50 of them, is rounded to that
    number; so rounding a rounded value changes nothing; and rounding keeps
    the order of two values.  Where a value near the middle between two
    neighbours goes depends on the rounding of the product and is not
    stated.  [round] is the case of the exact product. *)
Theorem round_stable (product : Q -> Q -> Q) (value : Q) (decimals : nat) :
  floatProduct product ->
  let factor := pow10 decimals in
  let rounded := roundWith product value decimals in
  (forall units : Z,
      (Z.abs units <= 2 ^ 50)%Z ->
      Qabs (value * factor - inject_Z units) <= 1 # 4 ->
      rounded = inject_Z units / factor)
  /\ (Qabs (rounded * factor) <= inject_Z (2 ^ 50) ->
      roundWith product rounded decimals = rounded)
  /\ (forall other,
        value <= other -> rounded <= roundWith product other decimals)
  /\ round value decimals = roundWith Qmult value decimals.
Proof.
  intros Hp factor rounded.
  pose proof (pow10_pos decimals) as Hf. fold factor in Hf.
  split; [intros units Hu Hc; apply roundWith_near; assumption |].
  split.
  - intro Hsize. unfold rounded at 2. unfold roundWith. cbv zeta. fold factor.
    set (z := Math_round (product value factor)).
    assert (Ez : rounded * factor == inject_Z z).
    { unfold rounded, roundWith. cbv zeta. fold factor. fold z.
      apply Qdiv_cancel. lra. }
    apply roundWith_near; [exact Hp | |].
    + rewrite Ez in Hsize. apply Qabs_Qle_condition in Hsize.
      rewrite <- inject_Z_opp, <- !Zle_Qle in Hsize. lia.
    + fold factor. rewrite Ez.
      assert (E0 : inject_Z z - inject_Z z == 0) by ring.
      rewrite E0. discriminate.
  - split; [| reflexivity].
    intros other L. unfold rounded, roundWith. cbv zeta. fold factor.
    apply Qmult_le_r with (z := factor); [exact Hf |].
    rewrite !Qdiv_cancel by lra. rewrite <- Zle_Qle.
    apply Math_round_monotone. destruct Hp as [Hmono _]. apply Hmono; [lra | exact L].
Qed.

Lemma round_stable_witness :
  floatProduct Qmult
  /\ round (1112 # 1000) 2 = inject_Z 111 / pow10 2
  /\ round (1112 # 1000) 2 <= round (1118 # 1000) 2.
Proof.
  pose proof floatProduct_exact as Hp.
  destruct (@round_stable Qmult (1112 # 1000) 2 Hp) as (Hnear & _ & Hmono & _).
  split; [exact Hp |]. split.
  - rewrite <- roundWith_exact. apply Hnear; [vm_compute; discriminate |].
    vm_compute. discriminate.
  - rewrite <- !roundWith_exact. apply Hmono. vm_compute. discriminate.
Defined.

(** ** timeDiff *)

Lemma div_positive_iff (a k : Z) : (0 < k)%Z -> (0 <? a / k)%Z = (k <=? a)%Z.
Proof.
  intro Hk.
  destruct (Z.leb_spec k a) as [L | L].
  - apply Z.ltb_lt. apply Z.div_str_pos. lia.
  - apply Z.ltb_ge.
    destruct (Z.lt_ge_cases a 0) as [N | N].
    + assert (a / k < 0)%Z by (apply Z.div_lt_upper_bound; lia). lia.
    + rewrite Z.div_small; lia.
Qed.

(** X17 (timeDiff).  The nested floors amount to whole days, hours and
    minutes of the elapsed milliseconds, and the unit shown is the largest
    one that the elapsed time reaches; below one minute, and for every date
    ahead of the clock, the text is "just now". *)
Theorem timeDiff_units (now date : Z) :
  let elapsed := (now - date)%Z in
  timeDiff now date =
    (if (86400000 <=? elapsed)%Z then showInt (elapsed / 86400000) ++ "d ago"
     else if (3600000 <=? elapsed)%Z then showInt (elapsed / 3600000) ++ "h ago"
     else if (60000 <=? elapsed)%Z then showInt (elapsed / 60000) ++ "m ago"
     else "just now")%string.
Proof.
  intro elapsed. unfold timeDiff. fold elapsed.
  assert (M : (elapsed / 1000 / 60 = elapsed / 60000)%Z)
    by (rewrite Z.div_div by lia; reflexivity).
  assert (H : (elapsed / 1000 / 60 / 60 = elapsed / 3600000)%Z)
    by (rewrite M, Z.div_div by lia; reflexivity).
  assert (D : (elapsed / 1000 / 60 / 60 / 24 = elapsed / 86400000)%Z)
    by (rewrite H, Z.div_div by lia; reflexivity).
  rewrite D, H, M.
  rewrite !div_positive_iff by lia. reflexivity.
Qed.

(** ** median and percentile *)

Lemma sortAscending_perm (values : list Q) :
  Permutation values (sortAscending values).
Proof. apply QSort.Permuted_sort. Qed.

Lemma sortAscending_length (values : list Q) :
  length (sortAscending values) = length values.
Proof. symmetry. apply Permutation_length, sortAscending_perm. Qed.

Lemma sortAscending_sorted (values : list Q) :
  StronglySorted Qle (sortAscending values).
Proof.
  assert (T : Transitive (fun x y : Q => is_true (QOrder.leb x y))).
  { intros x y z A B. unfold is_true, QOrder.leb in *.
    apply Qle_bool_iff in A, B. apply Qle_bool_iff. lra. }
  pose proof (@QSort.StronglySorted_sort values T) as H.
  unfold sortAscending.
  induction H as [| a l Hl IH Ha]; constructor; [exact IH |].
  eapply Forall_impl; [| exact Ha].
  intros b Hb. apply Qle_bool_iff. exact Hb.
Qed.

Lemma countIf_perm (keep : Q -> bool) (l l' : list Q) :
  Permutation l l' -> countIf keep l = countIf keep l'.
Proof.
  unfold countIf. induction 1 as [| x l l' P IH | x y l | l l' l'' P1 IH1 P2 IH2];
    simpl.
  - reflexivity.
  - destruct (keep x); simpl; congruence.
  - destruct (keep x), (keep y); reflexivity.
  - congruence.
Qed.

(** In a sorted list the entries up to position [i] are at most any bound
    of the entry at [i]. *)
Lemma sorted_count_below (sorted : list Q) :
  StronglySorted Qle sorted ->
  forall (i : nat) (x : Q),
    (i < length sorted)%nat -> nth i sorted 0 <= x ->
    (i + 1 <= countIf (fun v => Qle_bool v x) sorted)%nat.
Proof.
  induction 1 as [| a l Hl IH Ha]; intros i x Hi Hx; [simpl in Hi; lia |].
  unfold countIf in *. destruct i as [| j]; simpl in *.
  - assert (E : Qle_bool a x = true) by (apply Qle_bool_iff; exact Hx).
    rewrite E. simpl. lia.
  - assert (Hj : (j < length l)%nat) by lia.
    assert (E : Qle_bool a x = true).
    { apply Qle_bool_iff. apply Qle_trans with (nth j l 0); [| exact Hx].
      rewrite Forall_forall in Ha. apply Ha, nth_In, Hj. }
    rewrite E. simpl. specialize (IH j x Hj Hx). lia.
Qed.

(** And the entries from position [i] on are at least any lower bound of
    the entry at [i]. *)
Lemma sorted_count_above (sorted : list Q) :
  StronglySorted Qle sorted ->
  forall (i : nat) (x : Q),
    (i < length sorted)%nat -> x <= nth i sorted 0 ->
    (length sorted - i <= countIf (fun v => Qle_bool x v) sorted)%nat.
Proof.
  induction 1 as [| a l Hl IH Ha]; intros i x Hi Hx; [simpl in Hi; lia |].
  unfold countIf in *. destruct i as [| j]; simpl in *.
  - assert (E : Qle_bool x a = true) by (apply Qle_bool_iff; exact Hx).
    rewrite E. simpl.
    assert (All : filter (fun v => Qle_bool x v) l = l).
    { apply filter_all. intros v Hv. apply Qle_bool_iff.
      apply Qle_trans with a; [exact Hx |].
      rewrite Forall_forall in Ha. apply Ha, Hv. }
    rewrite All. lia.
  - assert (Hj : (j < length l)%nat) by lia.
    specialize (IH j x Hj Hx).
    destruct (Qle_bool x a); simpl; lia.
Qed.

Lemma sorted_nth_le (sorted : list Q) :
  StronglySorted Qle sorted ->
  forall i j : nat,
    (i <= j)%nat -> (j < length sorted)%nat -> nth i sorted 0 <= nth j sorted 0.
Proof.
  induction 1 as [| a l Hl IH Ha]; intros i j Hij Hj; [simpl in Hj; lia |].
  destruct i as [| i], j as [| j]; simpl in *; try lia.
  - lra.
  - rewrite Forall_forall in Ha. apply Ha, nth_In. lia.
  - apply IH; lia.
Qed.

(** The middle position and the parity of a length. *)
Lemma half_odd (n : nat) :
  (n mod 2 =? 0)%nat = false -> (n = 2 * (n / 2) + 1)%nat.
Proof.
  intro H. apply Nat.eqb_neq in H.
  pose proof (Nat.div_mod_eq n 2). pose proof (Nat.mod_upper_bound n 2). lia.
Qed.

Lemma half_even (n : nat) :
  (n mod 2 =? 0)%nat = true -> (n = 2 * (n / 2))%nat.
Proof.
  intro H. apply Nat.eqb_eq in H.
  pose proof (Nat.div_mod_eq n 2). lia.
Qed.

(** X18 (median).  The median of no value is 0.  Of a non-empty array, at
    least half of the values are at most the median and at least half are
    at least the median, and the median lies within every range that holds
    the values. *)
Theorem median_splits (values : list Q) :
  median [] = 0
  /\ (values <> [] ->
      let m := median values in
      (length values <= 2 * countIf (fun v => Qle_bool v m) values)%nat
      /\ (length values <= 2 * countIf (fun v => Qle_bool m v) values)%nat
      /\ forall lo hi, (forall v, In v values -> lo <= v <= hi) -> lo <= m <= hi).
Proof.
  split; [reflexivity |].
  intros Hne m.
  pose proof (sortAscending_perm values) as P.
  pose proof (sortAscending_sorted values) as Sd.
  pose proof (sortAscending_length values) as Ln.
  assert (Hpos : (0 < length values)%nat).
  { destruct values; [contradiction | simpl; lia]. }
  rewrite (countIf_perm _ P), (countIf_perm (fun v => Qle_bool m v) P).
  assert (Hin : forall i, (i < length (sortAscending values))%nat ->
                          In (nth i (sortAscending values) 0) values).
  { intros i Hi. apply (Permutation_in _ (Permutation_sym P)), nth_In, Hi. }
  unfold median in m.
  destruct (length values =? 0)%nat eqn:Z0; [apply Nat.eqb_eq in Z0; lia |].
  set (sorted := sortAscending values) in *.
  set (mid := (length sorted / 2)%nat) in *.
  destruct (length sorted mod 2 =? 0)%nat eqn:Par; simpl in m.
  - apply half_even in Par. fold mid in Par.
    assert (Hmid : (1 <= mid)%nat) by lia.
    assert (Lo : nth (mid - 1) sorted 0 <= m).
    { pose proof (@sorted_nth_le sorted Sd (mid - 1) mid ltac:(lia) ltac:(lia)).
      unfold m. apply Qle_shift_div_l; lra. }
    assert (Hi : m <= nth mid sorted 0).
    { pose proof (@sorted_nth_le sorted Sd (mid - 1) mid ltac:(lia) ltac:(lia)).
      unfold m. apply Qle_shift_div_r; lra. }
    pose proof (@sorted_count_below sorted Sd (mid - 1) m ltac:(lia) Lo).
    pose proof (@sorted_count_above sorted Sd mid m ltac:(lia) Hi).
    split; [lia |]. split; [lia |].
    intros lo hi Hall.
    pose proof (Hall _ (Hin (mid - 1)%nat ltac:(lia))).
    pose proof (Hall _ (Hin mid ltac:(lia))). lra.
  - apply half_odd in Par. fold mid in Par.
    pose proof (@sorted_count_below sorted Sd mid m ltac:(lia) ltac:(unfold m; lra)).
    pose proof (@sorted_count_above sorted Sd mid m ltac:(lia) ltac:(unfold m; lra)).
    split; [lia |]. split; [lia |].
    intros lo hi Hall. exact (Hall _ (Hin mid ltac:(lia))).
Qed.

Lemma median_splits_witness :
  let values : list Q := [3; 1; 2; 10] in
  let m := median values in
  (length values <= 2 * countIf (fun v => Qle_bool v m) values)%nat
  /\ (length values <= 2 * countIf (fun v => Qle_bool m v) values)%nat
  /\ forall lo hi, (forall v, In v values -> lo <= v <= hi) -> lo <= m <= hi.
Proof.
  intro values. destruct (median_splits values) as [_ H]. apply H. discriminate.
Defined.

Lemma inject_Z_sub (a b : Z) : inject_Z (a - b) == inject_Z a - inject_Z b.
Proof. unfold Z.sub. rewrite inject_Z_plus, inject_Z_opp. reflexivity. Qed.

Lemma elementAt_inside (sorted : list Q) (i : Z) :
  (0 <= i < Z.of_nat (length sorted))%Z ->
  elementAt sorted i = Some (nth (Z.to_nat i) sorted 0).
Proof.
  intro Hi. unfold elementAt.
  destruct (Z.ltb_spec i 0); [lia |].
  apply nth_error_nth'. lia.
Qed.

Lemma elementAt_outside (sorted : list Q) (i : Z) :
  (i < 0 \/ Z.of_nat (length sorted) <= i)%Z -> elementAt sorted i = None.
Proof.
  intro Hi. unfold elementAt.
  destruct (Z.ltb_spec i 0); [reflexivity |].
  apply nth_error_None. lia.
Qed.

(** X19 (percentile).  Of a non-empty array: for [p] from 0 to 100 the result
    is a number within every range that holds the values; the 50th
    percentile is the median; and with two values or more a [p] below 0 or
    above 100 indexes outside the array, so that the result is [undefined]
    or [NaN], never a number. *)
Theorem percentile_interpolates (values : list Q) (p : Q) :
  values <> [] ->
  (0 <= p <= 100 ->
   exists q, percentile values p = Value q
     /\ forall lo hi, (forall v, In v values -> lo <= v <= hi) -> lo <= q <= hi)
  /\ (exists q, percentile values 50 = Value q /\ q == median values)
  /\ ((2 <= length values)%nat -> p < 0 \/ 100 < p ->
      forall q, percentile values p <> Value q).
Proof.
  intro Hne.
  pose proof (sortAscending_perm values) as P.
  pose proof (sortAscending_length values) as Ln.
  assert (Hpos : (0 < length values)%nat).
  { destruct values; [contradiction | simpl; lia]. }
  assert (Z0 : (length values =? 0)%nat = false) by (apply Nat.eqb_neq; lia).
  assert (Hin : forall i, (i < length (sortAscending values))%nat ->
                          In (nth i (sortAscending values) 0) values).
  { intros i Hi. apply (Permutation_in _ (Permutation_sym P)), nth_In, Hi. }
  unfold percentile, median. rewrite Z0.
  set (sorted := sortAscending values) in *.
  assert (Hlen : 1 <= len sorted).
  { unfold len. change 1 with (inject_Z 1). rewrite <- Zle_Qle. lia. }
  split; [| split].
  - intros [Hp0 Hp100].
    set (index := p / 100 * (len sorted - 1)).
    assert (Hc : p / 100 == p * (1 # 100)) by field.
    assert (I0 : 0 <= index).
    { unfold index. apply Qmult_le_0_compat; [rewrite Hc |]; lra. }
    assert (I1 : index <= len sorted - 1).
    { unfold index. rewrite <- (Qmult_1_l (len sorted - 1)) at 2.
      apply Qmult_le_compat_r; [rewrite Hc |]; lra. }
    assert (L0 : (0 <= Qfloor index)%Z).
    { change 0%Z with (Qfloor 0). apply Qfloor_resp_le, I0. }
    assert (U0 : (0 <= Qceiling index)%Z).
    { change 0%Z with (Qceiling 0). apply Qceiling_resp_le, I0. }
    assert (Ebound : len sorted - 1 == inject_Z (Z.of_nat (length sorted) - 1)).
    { unfold len. rewrite inject_Z_sub. reflexivity. }
    assert (L1 : (Qfloor index <= Z.of_nat (length sorted) - 1)%Z).
    { rewrite <- (Qfloor_Z (Z.of_nat (length sorted) - 1)).
      apply Qfloor_resp_le. rewrite <- Ebound. exact I1. }
    assert (U1 : (Qceiling index <= Z.of_nat (length sorted) - 1)%Z).
    { rewrite <- (Qceiling_Z (Z.of_nat (length sorted) - 1)).
      apply Qceiling_resp_le. rewrite <- Ebound. exact I1. }
    rewrite (@elementAt_inside sorted (Qfloor index)) by lia.
    rewrite (@elementAt_inside sorted (Qceiling index)) by lia.
    pose proof (Hin (Z.to_nat (Qfloor index)) ltac:(lia)) as InL.
    pose proof (Hin (Z.to_nat (Qceiling index)) ltac:(lia)) as InU.
    destruct (Qfloor index =? Qceiling index)%Z.
    + eexists. split; [reflexivity |]. intros lo hi Hall. apply Hall, InL.
    + eexists. split; [reflexivity |]. intros lo hi Hall.
      pose proof (Hall _ InL) as [A1 A2]. pose proof (Hall _ InU) as [B1 B2].
      pose proof (Qfloor_le index) as F1. pose proof (Qlt_floor index) as F2.
      rewrite inject_Z_plus in F2. change (inject_Z 1) with 1 in F2.
      set (a := nth (Z.to_nat (Qfloor index)) sorted 0) in *.
      set (b := nth (Z.to_nat (Qceiling index)) sorted 0) in *.
      set (t := index - inject_Z (Qfloor index)).
      assert (T0 : 0 <= t) by (unfold t; lra).
      assert (T1 : t <= 1) by (unfold t; lra).
      split; nra.
  - set (index := 50 / 100 * (len sorted - 1)).
    set (mid := (length sorted / 2)%nat).
    destruct (length sorted mod 2 =? 0)%nat eqn:Par; simpl negb; cbv iota.
    + apply half_even in Par. fold mid in Par.
      assert (Hmid : (1 <= mid)%nat) by lia.
      assert (Ei : index == inject_Z (Z.of_nat mid) - (1 # 2)).
      { unfold index, len. rewrite Par, Nat2Z.inj_mul, inject_Z_mult.
        change (inject_Z (Z.of_nat 2)) with 2. field. }
      assert (Fl : Qfloor index = (Z.of_nat mid - 1)%Z).
      { apply Qfloor_eq; rewrite Ei, ?inject_Z_plus, ?inject_Z_sub;
          change (inject_Z 1) with 1; lra. }
      assert (Ce : Qceiling index = Z.of_nat mid).
      { apply Qceiling_eq; rewrite Ei, ?inject_Z_sub;
          change (inject_Z 1) with 1; lra. }
      rewrite Fl, Ce.
      destruct (Z.eqb_spec (Z.of_nat mid - 1) (Z.of_nat mid)); [lia |].
      rewrite !elementAt_inside by lia.
      replace (Z.to_nat (Z.of_nat mid - 1)) with (mid - 1)%nat by lia.
      rewrite Nat2Z.id.
      eexists. split; [reflexivity |].
      rewrite Ei, inject_Z_sub. change (inject_Z 1) with 1. field.
    + apply half_odd in Par. fold mid in Par.
      assert (Ei : index == inject_Z (Z.of_nat mid)).
      { unfold index, len. rewrite Par, Nat2Z.inj_add, Nat2Z.inj_mul,
          inject_Z_plus, inject_Z_mult.
        change (inject_Z (Z.of_nat 2)) with 2.
        change (inject_Z (Z.of_nat 1)) with 1. field. }
      assert (Fl : Qfloor index = Z.of_nat mid)
        by (rewrite Ei; apply Qfloor_Z).
      assert (Ce : Qceiling index = Z.of_nat mid)
        by (rewrite Ei; apply Qceiling_Z).
      rewrite Fl, Ce, Z.eqb_refl.
      rewrite elementAt_inside by lia. rewrite Nat2Z.id.
      eexists. split; reflexivity.
  - intros Htwo Hout q.
    set (index := p / 100 * (len sorted - 1)).
    assert (Hlen2 : 2 <= len sorted).
    { unfold len. change 2 with (inject_Z 2). rewrite <- Zle_Qle. lia. }
    assert (Hc : p / 100 == p * (1 # 100)) by field.
    destruct Hout as [Hlow | Hhigh].
    + assert (I : index < 0).
      { unfold index. setoid_replace 0 with (0 * (len sorted - 1)) by ring.
        apply Qmult_lt_compat_r; [| rewrite Hc]; lra. }
      assert (L : (Qfloor index < 0)%Z).
      { rewrite Zlt_Qlt. eapply Qle_lt_trans; [apply Qfloor_le | exact I]. }
      rewrite (@elementAt_outside sorted (Qfloor index)) by lia.
      destruct (Qfloor index =? Qceiling index)%Z; discriminate.
    + assert (I : len sorted - 1 < index).
      { unfold index. rewrite <- (Qmult_1_l (len sorted - 1)) at 1.
        apply Qmult_lt_compat_r; [| rewrite Hc]; lra. }
      assert (U : (Z.of_nat (length sorted) - 1 < Qceiling index)%Z).
      { rewrite Zlt_Qlt. eapply Qlt_le_trans; [| apply Qle_ceiling].
        rewrite inject_Z_sub. exact I. }
      rewrite (@elementAt_outside sorted (Qceiling index)) by lia.
      destruct (Z.eqb_spec (Qfloor index) (Qceiling index)) as [E | E].
      * rewrite E. rewrite (@elementAt_outside sorted (Qceiling index)) by lia.
        discriminate.
      * destruct (elementAt sorted (Qfloor index)); discriminate.
Qed.

Lemma percentile_interpolates_witness :
  let values : list Q := [3; 1; 2; 10] in
  (exists q, percentile values 90 = Value q
     /\ forall lo hi, (forall v, In v values -> lo <= v <= hi) -> lo <= q <= hi)
  /\ forall q, percentile values 101 <> Value q.
Proof.
  intro values.
  destruct (@percentile_interpolates values 90) as [A _]; [discriminate |].
  destruct (@percentile_interpolates values 101) as [_ [_ B]]; [discriminate |].
  split; [apply A; lra |].
  apply B; [simpl; lia | right; lra].
Defined.

(* ================================================================== *)
(** * The base strategy *)
(* ================================================================== *)

(** ** Position sizing *)

Lemma max_zero_Fin (x : Q) :
  max (Fin 0) (Fin x) = Fin (if Qltb 0 x then x else 0).
Proof. unfold max, ltb. destruct (Qltb 0 x); reflexivity. Qed.

Lemma Qeq_bool_false_pos_abs (q : Q) : Qeq_bool (Qabs q) 0 = false -> 0 < Qabs q.
Proof.
  intro E. pose proof (Qabs_nonneg q) as N.
  destruct (Qlt_le_dec 0 (Qabs q)) as [L | L]; [exact L |].
  assert (Z0 : Qabs q == 0) by lra.
  apply Qeq_bool_iff in Z0. congruence.
Qed.

Lemma kelly_fraction_finite (signal : Signal) (scores : SignalScores) :
  0 <= sig_confidence scores < 1 ->
  exists k, BaseStrategy.calculateKellyFraction signal scores = Fin k
            /\ 0 <= k <= sig_confidence scores.
Proof.
  intros [Hc0 Hc1]. unfold BaseStrategy.calculateKellyFraction.
  set (c := sig_confidence scores) in *.
  set (entryPrice := orElse (sig_entryPrice signal) 0.5).
  set (targetPrice := orElse (sig_targetPrice scores) (entryPrice + 0.1)).
  set (stopLoss := orElse (sig_stopLoss signal) (entryPrice - 0.1)).
  destruct (Qeq_bool (Qabs (entryPrice - stopLoss)) 0) eqn:Epl.
  { exists 0. split; [reflexivity | lra]. }
  apply Qeq_bool_false_pos_abs in Epl.
  pose proof (Qabs_nonneg (targetPrice - entryPrice)) as Hpw.
  set (potentialWin := Qabs (targetPrice - entryPrice)) in *.
  set (potentialLoss := Qabs (entryPrice - stopLoss)) in *.
  assert (Hb : 0 <= potentialWin / potentialLoss).
  { apply Qle_shift_div_l; [exact Epl | lra]. }
  set (b := potentialWin / potentialLoss) in *.
  unfold div. destruct (Qeq_bool b 0) eqn:Eb.
  - apply Qeq_bool_iff in Eb.
    assert (Hneg : b * c - (1 - c) < 0) by (rewrite Eb; lra).
    destruct (Qcompare_spec (b * c - (1 - c)) 0) as [E | E | E]; try lra.
    exists 0. split; [reflexivity | lra].
  - assert (Hbpos : 0 < b).
    { destruct (Qlt_le_dec 0 b) as [L | L]; [exact L |].
      assert (Z0 : b == 0) by lra. apply Qeq_bool_iff in Z0. congruence. }
    rewrite max_zero_Fin.
    destruct (Qltb 0 ((b * c - (1 - c)) / b)) eqn:Ex.
    + apply Qltb_lt in Ex. eexists. split; [reflexivity |].
      split; [lra |].
      apply Qle_shift_div_r; [exact Hbpos |]. lra.
    + exists 0. split; [reflexivity | lra].
Qed.

(** X20 (calculateKellyFraction).  For a confidence from 0 up to, but not
    including, 1 the Kelly fraction is a finite number between 0 and the
    confidence, whatever prices the signal carries.  For a signal without
    entry, target and stop prices the defaults make win and loss equal, and
    the fraction is twice the confidence minus 1, or 0 when that is
    negative. *)
Theorem kelly_fraction_range (signal : Signal) (scores : SignalScores) :
  (0 <= sig_confidence scores < 1 ->
   exists k, BaseStrategy.calculateKellyFraction signal scores = Fin k
             /\ 0 <= k <= sig_confidence scores)
  /\ (sig_entryPrice signal = None -> sig_targetPrice scores = None ->
      sig_stopLoss signal = None ->
      same (BaseStrategy.calculateKellyFraction signal scores)
           (Fin (Qmax 0 (2 * sig_confidence scores - 1)))).
Proof.
  split; [apply kelly_fraction_finite |].
  intros He Ht Hs. unfold BaseStrategy.calculateKellyFraction.
  rewrite He, Ht, Hs. cbn [orElse].
  set (c := sig_confidence scores).
  change (Qeq_bool (Qabs (0.5 - (0.5 - 0.1))) 0) with false. cbv iota zeta.
  match goal with |- context [div _ (Fin ?r)] => set (b := r) end.
  assert (E1 : b == 1) by reflexivity. clearbody b.
  assert (E2 : (b * c - (1 - c)) / b == 2 * c - 1) by (rewrite E1; field).
  unfold div.
  destruct (Qeq_bool b 0) eqn:E0; [apply Qeq_bool_iff in E0; lra |].
  rewrite max_zero_Fin. cbn [same].
  destruct (Qltb 0 ((b * c - (1 - c)) / b)) eqn:Ex;
    [apply Qltb_lt in Ex | apply Qltb_ge in Ex];
    rewrite E2 in *; symmetry; [apply Q.max_r | apply Q.max_l]; lra.
Qed.

Lemma kelly_fraction_range_witness :
  let signal := signalFor "m" buy (Some 0.40) (Some 0.30) None in
  let scores :=
    {| sig_strength := 4; sig_confidence := 0.6; sig_targetPrice := Some 0.70 |} in
  exists k, BaseStrategy.calculateKellyFraction signal scores = Fin k
            /\ 0 <= k <= 0.6.
Proof.
  intros signal scores.
  destruct (kelly_fraction_range signal scores) as [A _].
  apply A. simpl. lra.
Defined.

Lemma round_monotone (x y : Q) (decimals : nat) :
  x <= y -> round x decimals <= round y decimals.
Proof.
  intro L. pose proof (pow10_pos decimals) as Hf. unfold round.
  apply Qmult_le_r with (z := pow10 decimals); [exact Hf |].
  rewrite !Qdiv_cancel by lra. rewrite <- Zle_Qle.
  apply Math_round_monotone. apply Qmult_le_r; [exact Hf | exact L].
Qed.

Lemma round_compat (x y : Q) (decimals : nat) :
  x == y -> round x decimals == round y decimals.
Proof.
  intro E. unfold round.
  rewrite (@Math_round_compat (x * pow10 decimals) (y * pow10 decimals));
    [reflexivity | rewrite E; reflexivity].
Qed.

Lemma Math_min_Fin (x y : Q) :
  Math_min (Fin x) (Fin y) = Fin (if Qltb y x then y else x).
Proof. unfold Math_min, ltb. destruct (Qltb y x); reflexivity. Qed.

Lemma max_Fin (x y : Q) : max (Fin x) (Fin y) = Fin (if Qltb x y then y else x).
Proof. unfold max, ltb. destruct (Qltb x y); reflexivity. Qed.

(** X21 (getPositionSize).  For a confidence from 0 up to, but not
    including, 1 the size is a finite number, rounded to cents, and never
    below the rounded minimum [minCapital * 0.01].  When the minimum does not
    exceed the cap [capital * (maxPositionSize || 0.1)] the size stays within
    the rounded cap; when it does, the minimum wins and the size is the
    rounded minimum whatever the signal says.  With [minCapital] of 100 or
    more the size is at least 1, the least size the engine accepts. *)
Theorem position_size_bounds (maxPositionSize : option Q) (minCapital : Q)
    (signal : Signal) (scores : SignalScores) (capital : Q) :
  0 <= sig_confidence scores < 1 ->
  let maxSize := capital * orElse maxPositionSize 0.1 in
  let minSize := minCapital * 0.01 in
  exists size,
    BaseStrategy.getPositionSize maxPositionSize minCapital signal scores capital
    = Fin size
    /\ round minSize 2 <= size
    /\ (minSize <= maxSize -> size <= round maxSize 2)
    /\ (maxSize < minSize -> size == round minSize 2)
    /\ (100 <= minCapital -> 1 <= size).
Proof.
  intros Hc maxSize minSize.
  destruct (@kelly_fraction_finite signal scores Hc) as [k [Ek _]].
  unfold BaseStrategy.getPositionSize. rewrite Ek. cbn [mul].
  fold maxSize minSize. rewrite Math_min_Fin, max_Fin.
  match goal with |- context [Qltb maxSize ?r] => set (raw := r) end.
  set (capped := if Qltb maxSize raw then maxSize else raw).
  set (size := if Qltb capped minSize then minSize else capped).
  change (inject_Z (Math_round (size * 100)) / 100) with (round size 2).
  assert (Hcap : capped <= maxSize).
  { unfold capped. destruct (Qltb maxSize raw) eqn:E;
      [lra | apply Qltb_ge in E; exact E]. }
  assert (Hmin : minSize <= size).
  { unfold size. destruct (Qltb capped minSize) eqn:E;
      [lra | apply Qltb_ge in E; exact E]. }
  exists (round size 2). split; [reflexivity |].
  split; [apply round_monotone, Hmin |]. split; [| split].
  - intro Hle. apply round_monotone. unfold size.
    destruct (Qltb capped minSize); [exact Hle | exact Hcap].
  - intro Hlt. apply round_compat. unfold size.
    destruct (Qltb capped minSize) eqn:E; [reflexivity |].
    apply Qltb_ge in E. lra.
  - intro Hbig. apply Qle_trans with (round 1 2); [vm_compute; discriminate |].
    apply round_monotone. unfold minSize in Hmin. lra.
Qed.

Lemma position_size_bounds_witness :
  let signal := signalFor "m" buy (Some 0.40) (Some 0.30) None in
  let scores :=
    {| sig_strength := 4; sig_confidence := 0.6; sig_targetPrice := Some 0.70 |} in
  exists size,
    BaseStrategy.getPositionSize None 100 signal scores 10000 = Fin size
    /\ round (100 * 0.01) 2 <= size
    /\ size <= round (10000 * orElse None 0.1) 2
    /\ 1 <= size.
Proof.
  intros signal scores.
  destruct (@position_size_bounds None 100 signal scores 10000)
    as [size [E [A [B [_ C]]]]]; [simpl; lra |].
  exists size. split; [exact E |]. split; [exact A |].
  split; [apply B; vm_compute; discriminate | apply C; lra].
Defined.

(** X22 (sizing a certain, flat signal).  When the confidence is 1, the
    target equals the entry price and the stop does not, the win/loss ratio
    and the numerator of the Kelly formula are both 0: the Kelly fraction is
    [NaN], and so is the position size for every capital, since neither
    [Math.min] nor [Math.max] nor the rounding removes a [NaN]. *)
Theorem position_size_not_a_number (maxPositionSize : option Q) (minCapital : Q)
    (signal : Signal) (scores : SignalScores) (capital : Q) :
  let entryPrice := orElse (sig_entryPrice signal) 0.5 in
  sig_confidence scores == 1 ->
  orElse (sig_targetPrice scores) (entryPrice + 0.1) == entryPrice ->
  ~ orElse (sig_stopLoss signal) (entryPrice - 0.1) == entryPrice ->
  BaseStrategy.calculateKellyFraction signal scores = NaN
  /\ BaseStrategy.getPositionSize maxPositionSize minCapital signal scores capital
     = NaN.
Proof.
  intros entryPrice Hc Ht Hs.
  assert (Ek : BaseStrategy.calculateKellyFraction signal scores = NaN).
  { unfold BaseStrategy.calculateKellyFraction. fold entryPrice.
    set (targetPrice := orElse (sig_targetPrice scores) (entryPrice + 0.1)) in *.
    set (stopLoss := orElse (sig_stopLoss signal) (entryPrice - 0.1)) in *.
    assert (Hpl : 0 < Qabs (entryPrice - stopLoss)).
    { pose proof (Qabs_nonneg (entryPrice - stopLoss)) as N.
      destruct (Qlt_le_dec 0 (Qabs (entryPrice - stopLoss))) as [L | L];
        [exact L |].
      exfalso. apply Hs.
      assert (Z0 : Qabs (entryPrice - stopLoss) == 0) by lra.
      pose proof (Qle_Qabs (entryPrice - stopLoss)) as U.
      pose proof (Qle_Qabs (- (entryPrice - stopLoss))) as V.
      rewrite Qabs_opp in V. lra. }
    rewrite (Qeq_bool_false_of_pos Hpl).
    assert (Hpw : Qabs (targetPrice - entryPrice) == 0).
    { setoid_replace (targetPrice - entryPrice) with 0 by lra. reflexivity. }
    set (b := Qabs (targetPrice - entryPrice) / Qabs (entryPrice - stopLoss)).
    assert (Hb : b == 0) by (unfold b; rewrite Hpw; field; lra).
    assert (Hn : b * sig_confidence scores - (1 - sig_confidence scores) == 0)
      by (rewrite Hb, Hc; ring).
    unfold div.
    assert (E0 : Qeq_bool b 0 = true) by (apply Qeq_bool_iff, Hb). rewrite E0.
    destruct (Qcompare_spec
                (b * sig_confidence scores - (1 - sig_confidence scores)) 0)
      as [E | E | E]; try lra.
    reflexivity. }
  split; [exact Ek |].
  unfold BaseStrategy.getPositionSize. rewrite Ek. reflexivity.
Qed.

Lemma position_size_not_a_number_witness :
  let signal := signalFor "m" buy (Some 0.40) (Some 0.30) None in
  let scores :=
    {| sig_strength := 5; sig_confidence := 1; sig_targetPrice := Some 0.40 |} in
  BaseStrategy.calculateKellyFraction signal scores = NaN
  /\ BaseStrategy.getPositionSize None 100 signal scores 10000 = NaN.
Proof.
  intros signal scores.
  apply (@position_size_not_a_number None 100 signal scores 10000).
  - reflexivity.
  - reflexivity.
  - simpl. intro H. discriminate H.
Defined.

(** ** The counters of a strategy during a backtest *)

Lemma classify_not_pending (pnl : number) : isPending (classify pnl) = false.
Proof.
  unfold classify. destruct (gtb pnl (Fin 0)), (ltb pnl (Fin 0)); reflexivity.
Qed.

Lemma classify_isWin (pnl : Q) : isWin (classify (Fin pnl)) = Qltb 0 pnl.
Proof.
  unfold classify, gtb, ltb. destruct (Qltb 0 pnl), (Qltb pnl 0); reflexivity.
Qed.

(** Results that report the trades count the same wins, and none of them is
    pending. *)
Lemma reported_outcomes (ts : list BacktestTrade)
    (ns : list (Signal * SignalResult)) :
  Forall2 reports ts ns ->
  length (filter (fun r => isWin (res_outcome r)) (map snd ns))
  = length (winners ts)
  /\ length (filter (fun r => negb (isPending (res_outcome r))) (map snd ns))
     = length ts.
Proof.
  unfold winners.
  induction 1 as [| t n ts ns [_ [_ [_ Ho]]] _ [IH1 IH2]]; [split; reflexivity |].
  cbn [map filter]. rewrite Ho, classify_isWin, classify_not_pending.
  cbn [negb]. destruct (Qltb 0 (tr_pnl t)); cbn [length]; split; congruence.
Qed.

Section BaseBacktest.
Context {D : Type}.
Variable class : BaseStrategy.Class D.
Variable this : BacktestEngine.
Variable config : BacktestConfig.
Variable marketData : MarketData.
Variable clock : Z -> Z.

Lemma exitStep_counters snapshots date st entry :
  countersInv st ->
  countersInv (exitStep (BaseStrategy.asStrategy class) this clock
                        snapshots date st entry).
Proof.
  intros [Hr Ha]. destruct entry as [marketId position]. unfold exitStep.
  destruct (findMarket snapshots marketId) as [market |]; [| split; assumption].
  destruct (_ || _); [| split; assumption].
  unfold countersInv. cbn [strat notified].
  cbn [onSignalExecuted BaseStrategy.asStrategy].
  unfold BaseStrategy.onSignalExecuted, BaseStrategy.withDerived.
  cbn [BaseStrategy.results BaseStrategy.activePositions].
  cbn [executionResult res_executed res_outcome].
  rewrite classify_not_pending, Hr, Ha, map_app. split; reflexivity.
Qed.

Lemma signalStep_counters snapshots date st signal :
  countersInv st ->
  countersInv (signalStep (BaseStrategy.asStrategy class) this config
                          snapshots date st signal).
Proof.
  intros [Hr Ha]. unfold signalStep. rewrite capReached_cap.
  destruct (_ <=? _)%nat; [split; assumption |].
  destruct (Map_has _ _); [split; assumption |].
  cbn [validateSignal BaseStrategy.asStrategy].
  destruct (BaseStrategy.validate class (strat st) signal) as [isValid d].
  destruct isValid; cbn [negb]; [| split; assumption].
  destruct (findMarket _ _) as [market |]; [| split; assumption].
  destruct (m_resolved market); [split; assumption |].
  cbn [getPositionSize BaseStrategy.asStrategy strat withStrat].
  destruct (belowMinimum _); split; assumption.
Qed.

Lemma runFrames_counters timestamps st :
  countersInv st ->
  countersInv (runFrames (BaseStrategy.asStrategy class) this config marketData
                         clock timestamps st).
Proof.
  unfold runFrames. apply fold_left_inv. clear st.
  intros st timestamp _ Hst. unfold frameStep.
  destruct (length _ =? 0)%nat; [exact Hst |].
  assert (Hexit : countersInv
            (exitPositions (BaseStrategy.asStrategy class) this clock
               (currentSnapshots marketData timestamp) timestamp st)).
  { unfold exitPositions. apply fold_left_inv; [| exact Hst].
    intros; apply exitStep_counters; assumption. }
  cbn [generateSignals BaseStrategy.asStrategy].
  destruct (BaseStrategy.generate class _ _) as [signals d].
  match goal with
  | |- countersInv (recordEquity _ ?after) =>
      assert (Hsig : countersInv after); [| exact Hsig]
  end.
  unfold processSignals. apply fold_left_inv; [| exact Hexit].
  intros; apply signalStep_counters; assumption.
Qed.

End BaseBacktest.

(** X23 (a BaseStrategy under the engine).  After any number of frames of a
    backtest that starts from a fresh strategy, the strategy has received
    one result for each trade closed in a frame, in order, and none of them
    pending; its [activePositions] is 0 whatever positions the engine holds
    open, since the engine reports closings only; and the success rate of
    [getStatus] is the win rate over the trades closed in frames.  The
    closing pass after the last frame changes none of this. *)
Theorem base_strategy_under_backtest {D : Type} (class : BaseStrategy.Class D)
    (this : BacktestEngine) (config : BacktestConfig) (marketData : MarketData)
    (clock : Z -> Z) (d : D) (timestamps : list Z) :
  let strategy := BaseStrategy.asStrategy class in
  let st := runFrames strategy this config marketData clock timestamps
                      (initialSim config (BaseStrategy.fresh d)) in
  let status := BaseStrategy.getStatus (strat st) in
  BaseStrategy.results (strat st) = map snd (notified st)
  /\ Forall2 reports (trades st) (notified st)
  /\ Forall (fun r => res_outcome r <> pending) (BaseStrategy.results (strat st))
  /\ status_activePositions status = 0%Z
  /\ status_successRate status = winRateOf (trades st)
  /\ strat (simulate strategy this config marketData clock (BaseStrategy.fresh d))
     = strat (runFrames strategy this config marketData clock
                        (sortedTimestamps marketData)
                        (initialSim config (BaseStrategy.fresh d))).
Proof.
  intros strategy st status.
  assert (Hinv : countersInv st).
  { apply runFrames_counters. split; reflexivity. }
  destruct Hinv as [Hr Ha].
  pose proof (runFrames_notified strategy this config marketData clock
                timestamps (BaseStrategy.fresh d)) as Hn.
  fold st in Hn. cbv zeta in Hn.
  destruct (reported_outcomes Hn) as [Hw Hcompl].
  split; [exact Hr |]. split; [exact Hn |]. split; [| split; [exact Ha |]].
  - rewrite Hr. clear - Hn.
    induction Hn as [| t n ts ns [_ [_ [_ Ho]]] _ IH]; constructor; [| exact IH].
    rewrite Ho. intro Hp.
    pose proof (classify_not_pending (Fin (tr_pnl t))) as Hn.
    rewrite Hp in Hn. discriminate Hn.
  - split.
    + unfold status, BaseStrategy.getStatus, winRateOf.
      cbn [status_successRate]. unfold len. rewrite Hr, Hw, Hcompl. reflexivity.
    + unfold simulate, closeRemaining. rewrite closingLoop_exact. reflexivity.
Qed.

(* ================================================================== *)
(** * Sides other than buy and sell *)
(* ================================================================== *)

(** X24 (positions that are neither long nor short).  The engine stores
    [signal.type] as the side without looking at it.  A position whose side
    is not [buy] is closed like a short: the exit price is the quote raised
    by the slippage and the profit is entry minus exit.  When the side is
    not [sell] either, the stop-loss and the take-profit are never looked at
    and [shouldExitPosition] answers with the expiration test alone. *)
Theorem sides_other_than_buy (this : BacktestEngine) (marketId : string)
    (position : Position) (market : MarketSnapshot) (date now : Z) :
  pos_side position <> buy ->
  let trade := closingTrade this marketId position market date in
  let exitPrice := m_price market * (1 + slippage this) in
  tr_exitPrice trade = Some exitPrice
  /\ tr_pnl trade
     == (pos_entryPrice position - exitPrice) * pos_size position
        - 2 * fees this * pos_size position
  /\ (pos_side position <> sell ->
      forall currentPrice,
        shouldExitPosition position currentPrice market now
        = match sig_expiresAt (pos_signal position) with
          | Some expiresAt => (expiresAt <? now)%Z
          | None => false
          end).
Proof.
  intros Hside trade exitPrice.
  assert (Hb : isBuy (pos_side position) = false).
  { destruct (pos_side position); try reflexivity. contradiction. }
  unfold trade, exitPrice, closingTrade, applySlippage, calculatePnL.
  cbn [tr_exitPrice tr_pnl]. rewrite Hb. cbn [isBuy].
  split; [reflexivity |]. split; [ring |].
  intros Hsell currentPrice.
  assert (Hs : isSell (pos_side position) = false).
  { destruct (pos_side position); try reflexivity; contradiction. }
  unfold shouldExitPosition. rewrite Hb, Hs. cbn [andb orb].
  destruct (whenSet (sig_stopLoss (pos_signal position)));
    destruct (whenSet (sig_takeProfit (pos_signal position))); reflexivity.
Qed.

Lemma sides_other_than_buy_witness :
  let position :=
    {| pos_side := hold; pos_entryPrice := 0.40; pos_entryTime := 1000;
       pos_size := 100;
       pos_signal := signalFor "m" hold None (Some 0.50) (Some 0.30) |} in
  let market := snapshotAt "m" 2000 0.60 false in
  let trade := closingTrade (constructor {| opt_slippage := None; opt_fees := None |})
                            "m" position market 2000 in
  tr_exitPrice trade = Some (0.60 * (1 + 0.005))
  /\ shouldExitPosition position 0.60 market 5000 = false.
Proof.
  intros position market trade.
  destruct (@sides_other_than_buy
              (constructor {| opt_slippage := None; opt_fees := None |})
              "m" position market 2000 5000) as [A [_ B]]; [discriminate |].
  split; [exact A |]. apply B. discriminate.
Defined.
